(** * ai-metadata-sync: the index generator and the description pass

    A shallow embedding of [generate-index.mjs] (alias rules, import
    resolution, graph construction, semantic tagging, incremental reuse,
    the digest), of [describe-files.mjs] (description cache), of
    [sync-repo.mjs] (the pipeline of the two) and of [bin/install.mjs]
    (the installer), with the properties of the design document and
    further properties of the code stated and proved over it.

    Conventions.
    - A JavaScript string is a [string]; the model covers the strings
      whose code units are below 256.
    - A JavaScript object used as a map and a [Map] are insertion-ordered
      association lists ([JsObj]); a [Set] is a duplicate-free list in
      insertion order; an array is a list.
    - Node's [path] module is modelled in its POSIX flavour ([NodePath]).
    - What the program obtains from its platform (the working directory,
      the file system, git, the TypeScript parser, the hash function) is a
      field of [World]; a call that may throw returns an [Outcome].
    - The snapshots [index.json] and [descriptions.json] are typed
      records; what a run writes is what the next run reads.  The previous
      snapshot and the clock are arguments of a run.

    The file has two parts: the definitions (the platform, the two
    scripts, the wording of the design document where it is compared with
    the code, sample inputs), then the properties. *)

From Stdlib Require Import String Ascii List Bool Arith Lia ZArith.
From Stdlib Require Import Sorting.Sorted Sorting.Permutation.
From Stdlib Require Import DecimalString.
Import ListNotations.

Local Open Scope string_scope.
Local Open Scope nat_scope.
Local Open Scope list_scope.

(** String concatenation, JavaScript's [+] on strings. *)
Infix "+++" := String.append (right associativity, at level 60).

Set Implicit Arguments.

(* ------------------------------------------------------------------ *)
(** ** JavaScript string methods *)

Module JsString.

(** [s.startsWith(p)] *)
Definition startsWith (s p : string) : bool := String.prefix p s.

(** [s.slice(n)] for [n >= 0] *)
Fixpoint drop (n : nat) (s : string) : string :=
  match n, s with
  | O, _ => s
  | S _, EmptyString => EmptyString
  | S n', String _ s' => drop n' s'
  end.

(** [s.slice(0, n)] for [n >= 0] *)
Fixpoint take (n : nat) (s : string) : string :=
  match n, s with
  | O, _ => EmptyString
  | S _, EmptyString => EmptyString
  | S n', String c s' => String c (take n' s')
  end.

(** [s.slice(0, -n)] *)
Definition dropLast (n : nat) (s : string) : string :=
  take (String.length s - n) s.

(** [s.endsWith(suf)] *)
Definition endsWith (s suf : string) : bool :=
  (String.length suf <=? String.length s)
  && String.eqb (drop (String.length s - String.length suf) s) suf.

(** [s.split(c)] for a one-character separator: never empty. *)
Fixpoint split (sep : ascii) (s : string) : list string :=
  match s with
  | EmptyString => [EmptyString]
  | String c s' =>
      if Ascii.eqb c sep then EmptyString :: split sep s'
      else match split sep s' with
           | [] => [String c EmptyString]
           | h :: t => String c h :: t
           end
  end.

(** [parts.join(sep)] on strings *)
Definition join (sep : string) (parts : list string) : string :=
  String.concat sep parts.

(** [s.replaceAll(a, b)] for one-character [a] and [b] *)
Fixpoint replaceAllChar (a b : ascii) (s : string) : string :=
  match s with
  | EmptyString => EmptyString
  | String c s' =>
      String (if Ascii.eqb c a then b else c) (replaceAllChar a b s')
  end.

(** [s.includes(t)] *)
Fixpoint includes (s t : string) : bool :=
  String.prefix t s
  || match s with
     | EmptyString => false
     | String _ s' => includes s' t
     end.

(** [c.toLowerCase()] on a code unit below 256: the ASCII capitals and
    the Latin-1 capitals (all of 192..222 but the multiplication sign). *)
Definition lowerChar (c : ascii) : ascii :=
  let n := nat_of_ascii c in
  if ((65 <=? n) && (n <=? 90))
     || ((192 <=? n) && (n <=? 222) && negb (n =? 215))
  then ascii_of_nat (n + 32) else c.

Fixpoint toLowerCase (s : string) : string :=
  match s with
  | EmptyString => EmptyString
  | String c s' => String (lowerChar c) (toLowerCase s')
  end.

(** Truthiness of a string value: only the empty string is falsy. *)
Definition truthy (s : string) : bool := negb (String.eqb s "").

(** Does character [c] occur in [s]? *)
Fixpoint hasChar (c : ascii) (s : string) : bool :=
  match s with
  | EmptyString => false
  | String d s' => Ascii.eqb d c || hasChar c s'
  end.

(** [`${n}`] for a non-negative integer *)
Definition ofNat (n : nat) : string :=
  NilEmpty.string_of_uint (Nat.to_uint n).

End JsString.

(* ------------------------------------------------------------------ *)
(** ** JavaScript objects used as maps, and [Map]s

    Keys are enumerated in insertion order; assigning to an existing key
    keeps its position.  (Keys that are canonical array indices would be
    enumerated first by JavaScript; the keys of this program are file
    paths, tags and directory names.) *)

Module JsObj.
Section Obj.
Variable V : Type.

Definition t := list (string * V).

(** [o[k]] *)
Fixpoint get (k : string) (o : t) : option V :=
  match o with
  | [] => None
  | (k', v) :: o' => if String.eqb k k' then Some v else get k o'
  end.

(** [o[k] = v] *)
Fixpoint set (k : string) (v : V) (o : t) : t :=
  match o with
  | [] => [(k, v)]
  | (k', v') :: o' =>
      if String.eqb k k' then (k, v) :: o' else (k', v') :: set k v o'
  end.

(** [Object.keys(o)] *)
Definition keys (o : t) : list string := map fst o.
End Obj.
End JsObj.

(* ------------------------------------------------------------------ *)
(** ** Node's [path] module, POSIX flavour *)

Module NodePath.
Import JsString.

Definition slash : ascii := "/"%char.
Definition dot : ascii := "."%char.

Definition isSlash (c : ascii) : bool := Ascii.eqb c slash.

Fixpoint dropWhile (f : ascii -> bool) (l : list ascii) : list ascii :=
  match l with
  | [] => []
  | c :: l' => if f c then dropWhile f l' else l
  end.

Fixpoint takeWhile (f : ascii -> bool) (l : list ascii) : list ascii :=
  match l with
  | [] => []
  | c :: l' => if f c then c :: takeWhile f l' else []
  end.

(** [normalizeString]: the segments that survive.  Empty segments and
    [.] are dropped; [..] removes the segment before it, and is kept only
    when [allowAboveRoot] and there is nothing left to remove. *)
Fixpoint normalizeAcc (allowAboveRoot : bool) (res segs : list string)
  : list string :=
  match segs with
  | [] => rev res
  | seg :: rest =>
      if String.eqb seg "" || String.eqb seg "." then
        normalizeAcc allowAboveRoot res rest
      else if String.eqb seg ".." then
        match res with
        | last :: res' =>
            if String.eqb last ".." then
              normalizeAcc allowAboveRoot
                (if allowAboveRoot then ".." :: res else res) rest
            else normalizeAcc allowAboveRoot res' rest
        | [] =>
            normalizeAcc allowAboveRoot
              (if allowAboveRoot then [".."] else []) rest
        end
      else normalizeAcc allowAboveRoot (seg :: res) rest
  end.

Definition normalizeString (p : string) (allowAboveRoot : bool) : string :=
  join "/" (normalizeAcc allowAboveRoot [] (split slash p)).

(** [path.normalize(p)] *)
Definition normalize (p : string) : string :=
  if String.eqb p "" then "."
  else
    let isAbsolute := startsWith p "/" in
    let trailingSeparator := endsWith p "/" in
    let body := normalizeString p (negb isAbsolute) in
    if String.eqb body "" then
      if isAbsolute then "/" else if trailingSeparator then "./" else "."
    else
      let body' := if trailingSeparator then body +++ "/" else body in
      if isAbsolute then "/" +++ body' else body'.

(** [path.join(a, b)] *)
Definition join2 (a b : string) : string :=
  let joined :=
    if String.eqb a "" then b
    else if String.eqb b "" then a
    else a +++ "/" +++ b in
  if String.eqb joined "" then "." else normalize joined.

(** The right-to-left scan of [path.resolve]: stops at the first
    absolute argument. *)
Fixpoint resolveScan (argsRev : list string) (acc : string)
  : string * bool :=
  match argsRev with
  | [] => (acc, false)
  | p :: rest =>
      if String.eqb p "" then resolveScan rest acc
      else
        let acc' := p +++ "/" +++ acc in
        if startsWith p "/" then (acc', true) else resolveScan rest acc'
  end.

(** [path.resolve(...args)] in a process whose working directory is
    [cwd]. *)
Definition resolve (cwd : string) (args : list string) : string :=
  let '(resolvedPath, resolvedAbsolute) :=
    resolveScan (rev args ++ [cwd]) "" in
  let body := normalizeString resolvedPath (negb resolvedAbsolute) in
  if resolvedAbsolute then "/" +++ body
  else if String.eqb body "" then "." else body.

(** [path.basename(p)]: the last segment, trailing slashes ignored. *)
Definition basename (p : string) : string :=
  let r := dropWhile isSlash (rev (list_ascii_of_string p)) in
  string_of_list_ascii (rev (takeWhile (fun c => negb (isSlash c)) r)).

(** [path.dirname(p)] *)
Definition dirname (p : string) : string :=
  match p with
  | EmptyString => "."
  | String c0 rest =>
      let hasRoot := isSlash c0 in
      let r1 := dropWhile isSlash (rev (list_ascii_of_string rest)) in
      let r2 := dropWhile (fun c => negb (isSlash c)) r1 in
      match r2 with
      | [] => if hasRoot then "/" else "."
      | _ :: r3 =>
          if hasRoot && (List.length r3 =? 0) then "//"
          else String c0 (string_of_list_ascii (rev r3))
      end
  end.

Fixpoint lastIndexOf (c : ascii) (s : string) : option nat :=
  match s with
  | EmptyString => None
  | String d s' =>
      match lastIndexOf c s' with
      | Some i => Some (S i)
      | None => if Ascii.eqb d c then Some 0 else None
      end
  end.

(** [path.extname(p)]: from the last dot of the base name, unless that
    dot is its first character or the base name is [..]. *)
Definition extname (p : string) : string :=
  let b := basename p in
  match lastIndexOf dot b with
  | None => ""
  | Some i =>
      if (i =? 0) || String.eqb b ".." then "" else drop i b
  end.

(** The non-empty segments of a resolved path. *)
Definition segments (p : string) : list string :=
  filter (fun s => negb (String.eqb s "")) (split slash p).

Fixpoint stripCommon (a b : list string) : list string * list string :=
  match a, b with
  | x :: a', y :: b' =>
      if String.eqb x y then stripCommon a' b' else (a, b)
  | _, _ => (a, b)
  end.

(** [path.relative(from, to)]: both are resolved, the common leading
    segments are dropped, every segment left of [from] becomes [..]. *)
Definition relative (cwd from to : string) : string :=
  let '(f, t) :=
    stripCommon (segments (resolve cwd [from])) (segments (resolve cwd [to]))
  in
  join "/" (map (fun _ => "..") f ++ t).

End NodePath.

(* ------------------------------------------------------------------ *)
(** ** Values read from JSON files *)

#[local] Unset Elimination Schemes.
Inductive json : Type :=
| JNull
| JBool (b : bool)
| JNum (n : Z)
| JStr (s : string)
| JArr (items : list json)
| JObj (members : list (string * json)).
#[local] Set Elimination Schemes.

Module Json.

(** [v?.[k]] for a key that is neither an array index nor inherited. *)
Definition member (k : string) (v : option json) : option json :=
  match v with
  | Some (JObj members) => JsObj.get k members
  | _ => None
  end.

(** [Object.entries(v)] for a value that is truthy and of type
    [object]: an object yields its members, an array its elements under
    their indices. *)
Definition entries (v : json) : list (string * json) :=
  match v with
  | JObj members => members
  | JArr items => combine (map JsString.ofNat (seq 0 (List.length items))) items
  | _ => []
  end.

End Json.

(* ------------------------------------------------------------------ *)
(** ** Calls that may throw *)

Inductive Outcome (A : Type) : Type :=
| Returned (a : A)
| Thrown.
Arguments Thrown {A}.

Definition bind {A B : Type} (c : Outcome A) (k : A -> Outcome B) : Outcome B :=
  match c with
  | Returned a => k a
  | Thrown => Thrown
  end.

Notation "x <- c ;; k" := (bind c (fun x => k))
  (at level 61, c at next level, right associativity).

(** [try { c } catch { handler }] *)
Definition tryCatch {A : Type} (c : Outcome A) (handler : Outcome A) : Outcome A :=
  match c with
  | Returned a => Returned a
  | Thrown => handler
  end.

(* ------------------------------------------------------------------ *)
(** ** Arrays and sets of strings *)

Module JsArray.

Definition mem (x : string) (l : list string) : bool :=
  existsb (String.eqb x) l.

(** [set.add(x)] on a [Set] kept in insertion order *)
Definition setAdd (x : string) (s : list string) : list string :=
  if mem x s then s else s ++ [x].

(** [new Set(l)] *)
Definition setOfList (l : list string) : list string :=
  fold_left (fun s x => setAdd x s) l [].

Fixpoint insertSorted (x : string) (l : list string) : list string :=
  match l with
  | [] => [x]
  | y :: l' => if String.leb x y then x :: l else y :: insertSorted x l'
  end.

(** [l.sort()] on strings: ascending by code unit. *)
Definition sort (l : list string) : list string :=
  fold_right insertSorted [] l.

Section ByCount.
Variable A : Type.
Variable count : A -> nat.

Fixpoint insertDesc (x : A) (l : list A) : list A :=
  match l with
  | [] => [x]
  | y :: l' => if count x <? count y then y :: insertDesc x l' else x :: l
  end.

(** [l.sort((a, b) => b.n - a.n)]: descending by count; the sort is
    stable, elements of equal count keep their order. *)
Definition sortDesc (l : list A) : list A := fold_right insertDesc [] l.
End ByCount.

(** [map.set(k, (map.get(k) ?? 0) + 1)] *)
Definition bump (k : string) (m : JsObj.t nat) : JsObj.t nat :=
  JsObj.set k (match JsObj.get k m with Some n => n | None => 0 end + 1) m.

End JsArray.

(* ------------------------------------------------------------------ *)
(** ** The platform *)

(** What the walk over the syntax tree of one file finds, in source
    order: module specifiers of import and re-export declarations,
    string arguments of [import(...)] and [require(...)], names declared
    with an export modifier, and whether an export assignment occurs. *)
Record TsFacts : Type := {
  staticSpecifiers : list string;
  dynamicSpecifiers : list string;
  exportedNames : list string;
  hasExportAssignment : bool
}.

Inductive ScriptKind : Type := TSX | JSX | JS | TS.

Record World : Type := {
  (** [process.cwd()], an absolute path *)
  cwd : string;
  (** standard output of [git ls-files] *)
  gitLsFilesStdout : Outcome string;
  (** [fs.readFile(p, 'utf8')] *)
  fsReadFile : string -> Outcome string;
  (** whether [fs.access(p)] succeeds *)
  fsAccess : string -> bool;
  (** [ts.sys.readFile(p)] *)
  tsSysReadFile : string -> Outcome (option string);
  (** the [config] member of [ts.parseConfigFileTextToJson(p, text)] *)
  tsParseConfigFileTextToJson : string -> string -> Outcome (option json);
  (** [ts.createSourceFile] followed by the two traversals *)
  tsScan : ScriptKind -> string -> string -> TsFacts;
  (** SHA-256, hexadecimal *)
  sha256Hex : string -> string
}.

(* ------------------------------------------------------------------ *)
(** ** generate-index.mjs *)

Definition SCHEMA_VERSION : Z := 2.
Definition METADATA_DIR : string := "ai-metadata".

Definition SOURCE_EXTENSIONS : list string :=
  [".ts"; ".tsx"; ".js"; ".jsx"; ".mjs"; ".cjs"].

Definition RESOLVE_EXTENSIONS : list string :=
  [".ts"; ".tsx"; ".js"; ".jsx"; ".mjs"; ".cjs"; ".json"; ".css"].

Definition TAG_KEYWORDS : list string :=
  ["canvas"; "artboard"; "flow"; "reactflow"; "xyflow"; "storyboard";
   "publish"; "profile"; "subscription"; "settings"; "http"; "auth";
   "token"; "kling"; "yunwu"; "gemini"; "grs"; "qrcode"; "zip"; "worker"].

(** [toPosixPath]: [path.sep] is the slash already. *)
Definition toPosixPath (filePath : string) : string :=
  JsString.join "/" (JsString.split NodePath.slash filePath).

Definition pathExists (w : World) (filePath : string) : bool :=
  fsAccess w filePath.

(** White space in the sense of [\s] and [trim], among the code units
    below 256. *)
Definition isSpace (c : ascii) : bool :=
  let n := nat_of_ascii c in
  ((9 <=? n) && (n <=? 13)) || (n =? 32) || (n =? 160).

(** [s.trim()] *)
Definition trim (s : string) : string :=
  string_of_list_ascii
    (rev (NodePath.dropWhile isSpace
            (rev (NodePath.dropWhile isSpace (list_ascii_of_string s))))).

Definition newline : ascii := ascii_of_nat 10.

Definition gitLsFiles (w : World) : Outcome (list string) :=
  stdout <- gitLsFilesStdout w ;;
  Returned (filter JsString.truthy (map trim (JsString.split newline stdout))).

(** An alias rule: a pattern and its candidate targets, as found in the
    configuration. *)
Record AliasRule : Type := {
  pattern : string;
  targets : list json
}.

Definition readTsconfigPathsBody (w : World) (projectRootAbs : string)
  : Outcome (list AliasRule) :=
  let tsconfigPath := NodePath.join2 projectRootAbs "tsconfig.json" in
  configText <- tsSysReadFile w tsconfigPath ;;
  match configText with
  | None => Returned []
  | Some text =>
      if negb (JsString.truthy text) then Returned []
      else
        config <- tsParseConfigFileTextToJson w tsconfigPath text ;;
        let paths := Json.member "paths" (Json.member "compilerOptions" config) in
        match paths with
        | Some (JObj _ as p) | Some (JArr _ as p) =>
            Returned
              (flat_map
                 (fun kv =>
                    match snd kv with
                    | JArr items => [{| pattern := fst kv; targets := items |}]
                    | _ => []
                    end)
                 (Json.entries p))
        | _ => Returned []
        end
  end.

Definition readTsconfigPaths (w : World) (projectRootAbs : string)
  : Outcome (list AliasRule) :=
  tryCatch (readTsconfigPathsBody w projectRootAbs) (Returned []).

Fixpoint applySimpleAlias (spec : string) (aliasPaths : list AliasRule)
  : option string :=
  match aliasPaths with
  | [] => None
  | rule :: later =>
      if negb (JsString.endsWith (pattern rule) "/*") then
        applySimpleAlias spec later
      else
        let prefix := JsString.dropLast 2 (pattern rule) in
        if negb (JsString.startsWith spec (prefix +++ "/")) then
          applySimpleAlias spec later
        else
          let rest := JsString.drop (String.length prefix + 1) spec in
          match targets rule with
          | JStr firstTarget :: _ =>
              if String.eqb firstTarget "./*" then Some rest
              else if JsString.endsWith firstTarget "/*" then
                Some (JsString.dropLast 2 firstTarget +++ "/" +++ rest)
              else applySimpleAlias spec later
          | _ => applySimpleAlias spec later
          end
  end.

(** Truthiness of a [string | null]. *)
Definition truthyOpt (v : option string) : bool :=
  match v with
  | Some s => JsString.truthy s
  | None => false
  end.

(** The candidate of [resolveLocalImport], before the probes. *)
Definition candidateRel (importerRel spec : string) (aliasPaths : list AliasRule)
  : option string :=
  if JsString.startsWith spec "./" || JsString.startsWith spec "../" then
    Some (NodePath.join2 (NodePath.dirname importerRel) spec)
  else if JsString.startsWith spec "/" then
    Some (JsString.drop 1 spec)
  else
    let aliasRel := applySimpleAlias spec aliasPaths in
    if truthyOpt aliasRel then aliasRel else None.

(** The paths probed for a candidate, in probing order. *)
Definition tryPaths (candidateAbsNoExt : string) : list string :=
  let hasExt := JsString.truthy (NodePath.extname candidateAbsNoExt) in
  if hasExt then [candidateAbsNoExt]
  else
    map (fun ext => candidateAbsNoExt +++ ext) RESOLVE_EXTENSIONS
    ++ map (fun ext => NodePath.join2 candidateAbsNoExt ("index" +++ ext))
         RESOLVE_EXTENSIONS.

Fixpoint firstExisting (w : World) (paths : list string) : option string :=
  match paths with
  | [] => None
  | absPath :: later =>
      if pathExists w absPath then Some absPath else firstExisting w later
  end.

Definition resolveLocalImport (w : World) (projectRootAbs importerRel spec : string)
  (aliasPaths : list AliasRule) : option string :=
  match candidateRel importerRel spec aliasPaths with
  | None => None
  | Some rel =>
      if negb (JsString.truthy rel) then None
      else
        let candidateAbsNoExt := NodePath.resolve (cwd w) [projectRootAbs; rel] in
        match firstExisting w (tryPaths candidateAbsNoExt) with
        | Some absPath =>
            Some (toPosixPath (NodePath.relative (cwd w) projectRootAbs absPath))
        | None => None
        end
  end.

Definition externalPackageName (spec : string) : string :=
  if JsString.startsWith spec "@" then
    let parts := JsString.split NodePath.slash spec in
    match parts with
    | p0 :: p1 :: _ => p0 +++ "/" +++ p1
    | _ => spec
    end
  else
    match JsString.split NodePath.slash spec with
    | p0 :: _ => p0
    | [] => spec
    end.

(** Syntactically local: relative, root-absolute, or rewritten by an
    alias into a non-empty path. *)
Definition looksLocal (spec : string) (aliasPaths : list AliasRule) : bool :=
  JsString.startsWith spec "./" || JsString.startsWith spec "../"
  || JsString.startsWith spec "/" || truthyOpt (applySimpleAlias spec aliasPaths).

Definition featureFromPath (filePath : string) : string :=
  let p := JsString.replaceAllChar "\"%char "/"%char filePath in
  if JsString.startsWith p "pages/" then "route/page"
  else if JsString.startsWith p "components/" then "ui/component"
  else if JsString.startsWith p "utils/" then "utility"
  else if JsString.startsWith p "worker/" then "worker/backend"
  else if String.eqb p "App.tsx" || String.eqb p "AppShell.tsx"
          || String.eqb p "index.tsx" then "app/entry"
  else "module".

(** *** The syntax extractor *)

Record Exports : Type := {
  named : list string;
  default : bool
}.

Module Parsed.
Record t : Type := {
  importSpecifiers : list string;
  dynamicImportSpecifiers : list string;
  exports : Exports
}.
End Parsed.

Definition scriptKindOf (fileName : string) : ScriptKind :=
  if JsString.endsWith fileName ".tsx" then TSX
  else if JsString.endsWith fileName ".jsx" then JSX
  else if JsString.endsWith fileName ".js" || JsString.endsWith fileName ".mjs"
          || JsString.endsWith fileName ".cjs" then JS
  else TS.

Definition parseTsFile (w : World) (text fileName : string) : Parsed.t :=
  let facts := tsScan w (scriptKindOf fileName) fileName text in
  let imports := JsArray.setOfList (staticSpecifiers facts) in
  let dynamicImports := JsArray.setOfList (dynamicSpecifiers facts) in
  let exportsNamed := JsArray.setOfList (exportedNames facts) in
  {| Parsed.importSpecifiers := JsArray.sort imports;
     Parsed.dynamicImportSpecifiers := JsArray.sort dynamicImports;
     Parsed.exports := {| named := JsArray.sort exportsNamed;
                          default := hasExportAssignment facts |} |}.

(** *** The semantic tagger *)

(** [s.replace(/\.(tsx|ts|jsx|js|mjs|cjs)$/, '')] *)
Definition stripSourceExtension (s : string) : string :=
  match
    find (fun ext => JsString.endsWith s ext)
      [".tsx"; ".ts"; ".jsx"; ".js"; ".mjs"; ".cjs"]
  with
  | Some ext => JsString.dropLast (String.length ext) s
  | None => s
  end.

Definition inferRoutesFromPath (filePath : string) : list string :=
  let p := JsString.replaceAllChar "\"%char "/"%char filePath in
  if negb (JsString.startsWith p "pages/") then []
  else
    let base := stripSourceExtension (NodePath.basename p) in
    if String.eqb base "index" then ["/"] else ["/" +++ base].

(** The three regular expressions of the tagger, each as the function
    that matches it at the start of a string and returns the captured
    group together with what follows the match. *)
Module Regex.

Definition dquote : ascii := ascii_of_nat 34.
Definition squote : ascii := ascii_of_nat 39.
Definition backquote : ascii := ascii_of_nat 96.

(** The three quote characters: single, double, backquote. *)
Definition isQuote (c : ascii) : bool :=
  Ascii.eqb c squote || Ascii.eqb c dquote || Ascii.eqb c backquote.

Definition inRange (lo hi : nat) (c : ascii) : bool :=
  (lo <=? nat_of_ascii c) && (nat_of_ascii c <=? hi).

Definition isUpper := inRange 65 90.
Definition isLower := inRange 97 122.
Definition isDigit := inRange 48 57.

(** [\w] *)
Definition isWord (c : ascii) : bool :=
  isUpper c || isLower c || isDigit c || Ascii.eqb c "_"%char.

(** The class of the [/api/] alternative: letters, digits and the
    punctuation listed below (the single quote is one of them). *)
Definition isApiChar (c : ascii) : bool :=
  isLower c || isUpper c || isDigit c
  || JsString.hasChar c "._~!$&'()*+,;=:@/-".

(** The class of the URL alternative: anything but a quote character
    or white space. *)
Definition isUrlChar (c : ascii) : bool := negb (isQuote c || isSpace c).

(** The class of a storage key: anything but a quote character. *)
Definition isKeyChar (c : ascii) : bool := negb (isQuote c).

(** [[A-Z0-9_]] *)
Definition isEnvChar (c : ascii) : bool :=
  isUpper c || isDigit c || Ascii.eqb c "_"%char.

Definition stripPrefix (p s : string) : option string :=
  if String.prefix p s then Some (JsString.drop (String.length p) s) else None.

(** A greedy run of [cls] followed by the back-reference [q]: the
    longest run after which [q] stands (backtracking shortens the run
    until it does).  Returns the run and what follows [q]. *)
Fixpoint closeRun (cls : ascii -> bool) (q : ascii) (s : string)
  : option (string * string) :=
  match s with
  | EmptyString => None
  | String c s' =>
      let here := if Ascii.eqb c q then Some (EmptyString, s') else None in
      if cls c then
        match closeRun cls q s' with
        | Some (run, rest) => Some (String c run, rest)
        | None => here
        end
      else here
  end.

(** [cls+] followed by [\1] *)
Definition closeRun1 (cls : ascii -> bool) (q : ascii) (s : string)
  : option (string * string) :=
  match closeRun cls q s with
  | Some (run, rest) => if JsString.truthy run then Some (run, rest) else None
  | None => None
  end.

Fixpoint span (cls : ascii -> bool) (s : string) : string * string :=
  match s with
  | EmptyString => (EmptyString, EmptyString)
  | String c s' =>
      if cls c then let '(run, rest) := span cls s' in (String c run, rest)
      else (EmptyString, s)
  end.

Definition firstSome {A : Type} (a b : option A) : option A :=
  match a with Some _ => a | None => b end.

(** [apiRe]: a quote character (group 1); then group 2, which is either
    [http://] or [https://] and one or more URL characters, or [/api/]
    and one or more characters of the [/api/] class; then the quote
    character of group 1 again.  The function returns group 2. *)
Definition apiRe (prev : option ascii) (s : string) : option (string * string) :=
  match s with
  | EmptyString => None
  | String q s1 =>
      if isQuote q then
        let url scheme :=
          match stripPrefix scheme s1 with
          | Some s2 =>
              match closeRun1 isUrlChar q s2 with
              | Some (run, rest) => Some (scheme +++ run, rest)
              | None => None
              end
          | None => None
          end in
        let api :=
          match stripPrefix "/api/" s1 with
          | Some s2 =>
              match closeRun1 isApiChar q s2 with
              | Some (run, rest) => Some ("/api/" +++ run, rest)
              | None => None
              end
          | None => None
          end in
        firstSome (firstSome (url "https://") (url "http://")) api
      else None
  end.

(** [storageRe]: [localStorage.], one of [getItem], [setItem],
    [removeItem], an opening parenthesis, white space, a quote character
    (group 1), one or more key characters (group 2), the quote character
    of group 1 again.  The function returns group 2. *)
Definition storageRe (prev : option ascii) (s : string) : option (string * string) :=
  match stripPrefix "localStorage." s with
  | None => None
  | Some s1 =>
      match
        firstSome (firstSome (stripPrefix "getItem" s1) (stripPrefix "setItem" s1))
          (stripPrefix "removeItem" s1)
      with
      | None => None
      | Some s2 =>
          match stripPrefix "(" s2 with
          | None => None
          | Some s3 =>
              match snd (span isSpace s3) with
              | EmptyString => None
              | String q s4 =>
                  if isQuote q then closeRun1 isKeyChar q s4 else None
              end
          end
      end
  end.

(** [envRe]: at a word boundary, [process.env] or [import.meta.env],
    a dot, one or more of the capitals, digits and underscore
    (group 1). *)
Definition envRe (prev : option ascii) (s : string) : option (string * string) :=
  let boundary :=
    match prev with
    | Some c => negb (isWord c)
    | None => true
    end in
  if negb boundary then None
  else
    match
      firstSome (stripPrefix "process.env." s) (stripPrefix "import.meta.env." s)
    with
    | None => None
    | Some s1 =>
        let '(run, rest) := span isEnvChar s1 in
        if JsString.truthy run then Some (run, rest) else None
    end.

(** [text.matchAll(re)] with the [g] flag: the captured groups of the
    successive matches, left to right, each search starting where the
    previous match ended.  [skip] counts the characters still covered
    by the previous match; [prev] is the character before [s]. *)
Fixpoint scan (re : option ascii -> string -> option (string * string))
  (skip : nat) (prev : option ascii) (s : string) : list string :=
  match s with
  | EmptyString => []
  | String c s' =>
      match skip with
      | S k => scan re k (Some c) s'
      | O =>
          match re prev s with
          | Some (group, rest) =>
              group :: scan re (String.length s - String.length rest - 1) (Some c) s'
          | None => scan re 0 (Some c) s'
          end
      end
  end.

Definition matchAll (re : option ascii -> string -> option (string * string))
  (text : string) : list string :=
  scan re 0 None text.

End Regex.

(** One of the three extraction loops: each match adds its captured
    group to the set (when [keep] accepts it), and the loop breaks as soon
    as the set holds [cap] elements. *)
Fixpoint collectCapped (cap : nat) (keep : string -> bool)
  (matches : list string) (found : list string) : list string :=
  match matches with
  | [] => found
  | v :: later =>
      if negb (JsString.truthy v) then collectCapped cap keep later found
      else
        let found' := if keep v then JsArray.setAdd v found else found in
        if cap <=? List.length found' then found'
        else collectCapped cap keep later found'
  end.

(** The test on a captured endpoint. *)
Definition isEndpoint (v : string) : bool :=
  JsString.startsWith v "http://" || JsString.startsWith v "https://"
  || JsString.startsWith v "/api/".

Definition extractApiEndpoints (text : string) : list string :=
  collectCapped 25 isEndpoint (Regex.matchAll Regex.apiRe text) [].

Definition extractStorageKeys (text : string) : list string :=
  collectCapped 25 (fun _ => true) (Regex.matchAll Regex.storageRe text) [].

Definition extractEnvVars (text : string) : list string :=
  collectCapped 40 (fun _ => true) (Regex.matchAll Regex.envRe text) [].

Record Semantic : Type := {
  feature : string;
  routes : list string;
  tags : list string;
  apiEndpoints : list string;
  storageKeys : list string;
  envVars : list string
}.

Definition addKeywordTags (haystack : string) (tags : list string) : list string :=
  fold_left
    (fun tags kw => if JsString.includes haystack kw then JsArray.setAdd kw tags else tags)
    TAG_KEYWORDS tags.

Definition addDependencyTags (externalDeps : list string) (tags : list string)
  : list string :=
  fold_left
    (fun tags dep =>
       let d := JsString.toLowerCase dep in
       let tags :=
         if JsString.includes d "reactflow" || JsString.includes d "xyflow"
         then JsArray.setAdd "flow" tags else tags in
       let tags := if JsString.includes d "qrcode" then JsArray.setAdd "qrcode" tags else tags in
       if JsString.includes d "jszip" then JsArray.setAdd "zip" tags else tags)
    externalDeps tags.

Definition extractSemanticFromText (text filePath : string) (externalDeps : list string)
  : Semantic :=
  let routes := inferRoutesFromPath filePath in
  let tags := fold_left (fun tags _ => JsArray.setAdd "route" tags) routes [] in
  let tags := addKeywordTags (JsString.toLowerCase filePath) tags in
  let tags := addKeywordTags (JsString.toLowerCase text) tags in
  let tags := addDependencyTags externalDeps tags in
  {| feature := featureFromPath filePath;
     routes := routes;
     tags := JsArray.sort tags;
     apiEndpoints := JsArray.sort (extractApiEndpoints text);
     storageKeys := JsArray.sort (extractStorageKeys text);
     envVars := JsArray.sort (extractEnvVars text) |}.

(** *** The snapshot *)

(** One record of [files].  A record read back from a previous snapshot
    may lack the members that its readers guard; a record written by this
    run has them all. *)
Module FileEntry.
Record t : Type := {
  path : string;
  kind : string;
  bytes : nat;
  sha256 : option string;
  importSpecifiers : option (list string);
  dynamicImportSpecifiers : option (list string);
  exports : option Exports;
  semantic : option Semantic
}.
End FileEntry.

Record DepEntry : Type := {
  local : list string;
  localUnresolved : list string;
  external : list string
}.

Record Graph : Type := {
  deps : JsObj.t DepEntry;
  reverseDeps : JsObj.t (list string)
}.

Record Project : Type := {
  root : string;
  name : string;
  language : string;
  aliasPaths : list AliasRule
}.

Record Counts : Type := {
  trackedFiles : nat;
  sourceFiles : nat
}.

Module Index.
Record t : Type := {
  schemaVersion : Z;
  generatedAt : string;
  project : Project;
  counts : Counts;
  files : JsObj.t FileEntry.t;
  graph : Graph
}.
End Index.

(** [Buffer.byteLength(text, 'utf8')] *)
Fixpoint utf8ByteLength (text : string) : nat :=
  match text with
  | EmptyString => 0
  | String c text' =>
      (if nat_of_ascii c <? 128 then 1 else 2) + utf8ByteLength text'
  end.

(** [x ?? []] *)
Definition orEmpty {A : Type} (x : option (list A)) : list A :=
  match x with
  | Some l => l
  | None => []
  end.

(** *** The incremental cache *)

Definition previousFiles (previousIndex : option Index.t) : JsObj.t FileEntry.t :=
  match previousIndex with
  | Some ix => Index.files ix
  | None => []
  end.

Definition canReuse (previousIndex : option Index.t) (prev : option FileEntry.t)
  (digest : string) : bool :=
  match prev with
  | None => false
  | Some p =>
      match FileEntry.sha256 p with
      | Some h => String.eqb h digest
      | None => false
      end
      && match previousIndex with
         | Some ix => Z.eqb (Index.schemaVersion ix) SCHEMA_VERSION
         | None => false
         end
      && match FileEntry.semantic p with
         | Some _ => true
         | None => false
         end
  end.

(** The package identities of the specifiers that are not syntactically
    local, as a sorted set (the tagger's [externalDeps]). *)
Definition externalDepsOf (rawSpecs : list string) (aliasPaths : list AliasRule)
  : list string :=
  let external :=
    fold_left
      (fun external spec =>
         if looksLocal spec aliasPaths then external
         else external ++ [externalPackageName spec])
      rawSpecs [] in
  JsArray.sort (JsArray.setOfList external).

Definition freshEntry (w : World) (aliasPaths : list AliasRule)
  (relPath text digest : string) : FileEntry.t :=
  let parsed := parseTsFile w text relPath in
  let rawSpecs :=
    Parsed.importSpecifiers parsed ++ Parsed.dynamicImportSpecifiers parsed in
  let externalDeps := externalDepsOf rawSpecs aliasPaths in
  {| FileEntry.path := relPath;
     FileEntry.kind := JsString.drop 1 (NodePath.extname relPath);
     FileEntry.bytes := utf8ByteLength text;
     FileEntry.sha256 := Some digest;
     FileEntry.importSpecifiers := Some (Parsed.importSpecifiers parsed);
     FileEntry.dynamicImportSpecifiers := Some (Parsed.dynamicImportSpecifiers parsed);
     FileEntry.exports := Some (Parsed.exports parsed);
     FileEntry.semantic := Some (extractSemanticFromText text relPath externalDeps) |}.

(** The record stored under [relPath] for a file whose text is [text]:
    the previous record when it can be reused, a fresh one otherwise. *)
Definition recordFor (w : World) (previousIndex : option Index.t)
  (aliasPaths : list AliasRule) (relPath text : string) : FileEntry.t :=
  let digest := sha256Hex w text in
  let prev := JsObj.get relPath (previousFiles previousIndex) in
  match prev with
  | Some p => if canReuse previousIndex prev digest then p
              else freshEntry w aliasPaths relPath text digest
  | None => freshEntry w aliasPaths relPath text digest
  end.

(** One iteration of the loop over the source files. *)
Definition analyzeFile (w : World) (previousIndex : option Index.t)
  (aliasPaths : list AliasRule) (relPath : string) : Outcome FileEntry.t :=
  let absPath := NodePath.join2 (cwd w) relPath in
  text <- fsReadFile w absPath ;;
  Returned (recordFor w previousIndex aliasPaths relPath text).

Fixpoint buildFiles (w : World) (previousIndex : option Index.t)
  (aliasPaths : list AliasRule) (sourceFiles : list string)
  (nextFiles : JsObj.t FileEntry.t) : Outcome (JsObj.t FileEntry.t) :=
  match sourceFiles with
  | [] => Returned nextFiles
  | relPath :: later =>
      entry <- analyzeFile w previousIndex aliasPaths relPath ;;
      buildFiles w previousIndex aliasPaths later (JsObj.set relPath entry nextFiles)
  end.

(** *** The import resolver and the graph builder *)

(** The class of one dependency edge. *)
Inductive Edge : Type :=
| LOCAL (resolved : string)
| LOCAL_UNRESOLVED (spec : string)
| EXTERNAL (package : string).

(** The body of the loop over the raw specifiers of one file. *)
Definition classify (w : World) (projectRootAbs relPath spec : string)
  (aliasPaths : list AliasRule) : Edge :=
  match resolveLocalImport w projectRootAbs relPath spec aliasPaths with
  | Some resolved =>
      if JsString.truthy resolved then LOCAL resolved
      else if looksLocal spec aliasPaths then LOCAL_UNRESOLVED spec
      else EXTERNAL (externalPackageName spec)
  | None =>
      if looksLocal spec aliasPaths then LOCAL_UNRESOLVED spec
      else EXTERNAL (externalPackageName spec)
  end.

Definition pushEdge (acc : DepEntry) (e : Edge) : DepEntry :=
  match e with
  | LOCAL resolved =>
      {| local := local acc ++ [resolved];
         localUnresolved := localUnresolved acc;
         external := external acc |}
  | LOCAL_UNRESOLVED spec =>
      {| local := local acc;
         localUnresolved := localUnresolved acc ++ [spec];
         external := external acc |}
  | EXTERNAL package =>
      {| local := local acc;
         localUnresolved := localUnresolved acc;
         external := external acc ++ [package] |}
  end.

(** [deps[relPath]] for a file whose raw specifiers are [raw]. *)
Definition depsOf (w : World) (projectRootAbs relPath : string)
  (aliasPaths : list AliasRule) (raw : list string) : DepEntry :=
  let acc :=
    fold_left
      (fun acc spec => pushEdge acc (classify w projectRootAbs relPath spec aliasPaths))
      raw {| local := []; localUnresolved := []; external := [] |} in
  {| local := JsArray.sort (local acc);
     localUnresolved := JsArray.sort (localUnresolved acc);
     external := JsArray.sort (external acc) |}.

(** [if (!reverseDeps[to]) reverseDeps[to] = []; reverseDeps[to].push(relPath)] *)
Definition pushReverse (relPath : string) (reverseDeps : JsObj.t (list string))
  (to : string) : JsObj.t (list string) :=
  match JsObj.get to reverseDeps with
  | Some importers => JsObj.set to (importers ++ [relPath]) reverseDeps
  | None => JsObj.set to [relPath] reverseDeps
  end.

Definition rawSpecifiers (file : FileEntry.t) : list string :=
  orEmpty (FileEntry.importSpecifiers file)
  ++ orEmpty (FileEntry.dynamicImportSpecifiers file).

Fixpoint graphLoop (w : World) (projectRootAbs : string)
  (aliasPaths : list AliasRule) (nextFiles : JsObj.t FileEntry.t)
  (paths : list string) (g : Graph) : Outcome Graph :=
  match paths with
  | [] => Returned g
  | relPath :: later =>
      match JsObj.get relPath nextFiles with
      | None => Thrown
      | Some file =>
          let entry := depsOf w projectRootAbs relPath aliasPaths (rawSpecifiers file) in
          graphLoop w projectRootAbs aliasPaths nextFiles later
            {| deps := JsObj.set relPath entry (deps g);
               reverseDeps := fold_left (pushReverse relPath) (local entry) (reverseDeps g) |}
      end
  end.

Definition buildGraph (w : World) (projectRootAbs : string)
  (aliasPaths : list AliasRule) (nextFiles : JsObj.t FileEntry.t)
  : Outcome Graph :=
  let allPaths := JsObj.keys nextFiles in
  let reverseDeps0 := fold_left (fun rd p => JsObj.set p [] rd) allPaths [] in
  g <- graphLoop w projectRootAbs aliasPaths nextFiles allPaths
         {| deps := []; reverseDeps := reverseDeps0 |} ;;
  Returned {| deps := deps g;
              reverseDeps := map (fun kv => (fst kv, JsArray.sort (snd kv))) (reverseDeps g) |}.

(** *** The digest [index.md] *)

Module Render.

Definition ofZ (n : Z) : string :=
  match n with
  | Z0 => "0"
  | Zpos p => JsString.ofNat (Pos.to_nat p)
  | Zneg p => "-" +++ JsString.ofNat (Pos.to_nat p)
  end.

(** [String(v)], and the text of an array element inside [join]. *)
Fixpoint toString (v : json) : string :=
  match v with
  | JNull => "null"
  | JBool true => "true"
  | JBool false => "false"
  | JNum n => ofZ n
  | JStr s => s
  | JArr items =>
      (fix joinItems (l : list json) : string :=
         match l with
         | [] => ""
         | x :: l' =>
             match x with JNull => "" | _ => toString x end
             +++ match l' with [] => "" | _ => "," +++ joinItems l' end
         end) items
  | JObj _ => "[object Object]"
  end.

(** [items.join(sep)] *)
Definition joinJson (sep : string) (items : list json) : string :=
  JsString.join sep
    (map (fun x => match x with JNull => "" | _ => toString x end) items).

Definition backtick : string := String Regex.backquote "".

(** The sign between a pattern and its targets in the alias lines: the
    three characters U+00E2, U+2020, U+2019 that the source holds there,
    as their UTF-8 bytes. *)
Definition arrow : string :=
  string_of_list_ascii
    (map ascii_of_nat [195; 162; 226; 128; 160; 226; 128; 153]).

Definition code (s : string) : string := backtick +++ s +++ backtick.

Definition countLine (kv : string * nat) : string :=
  "- " +++ code (fst kv) +++ ": " +++ JsString.ofNat (snd kv).

Definition dirCounts (allPaths : list string) : JsObj.t nat :=
  fold_left (fun m p => JsArray.bump (toPosixPath (NodePath.dirname p)) m) allPaths [].

Definition topReferenced (allPaths : list string)
  (reverseDeps : JsObj.t (list string)) : list (string * nat) :=
  firstn 25
    (JsArray.sortDesc snd
       (map (fun p => (p, List.length (orEmpty (JsObj.get p reverseDeps)))) allPaths)).

Definition tagsOf (file : option FileEntry.t) : list string :=
  match file with
  | Some f => match FileEntry.semantic f with
              | Some s => tags s
              | None => []
              end
  | None => []
  end.

Definition tagCounts (allPaths : list string) (nextFiles : JsObj.t FileEntry.t)
  : JsObj.t nat :=
  fold_left
    (fun m p => fold_left (fun m t => JsArray.bump t m) (tagsOf (JsObj.get p nextFiles)) m)
    allPaths [].

Definition lines (generatedAt : string) (sourceFileCount : nat)
  (aliasPaths : list AliasRule) (allPaths : list string)
  (nextFiles : JsObj.t FileEntry.t) (reverseDeps : JsObj.t (list string))
  : list string :=
  let topTags := firstn 20 (JsArray.sortDesc snd (tagCounts allPaths nextFiles)) in
  let dirRows := firstn 30 (JsArray.sortDesc snd (dirCounts allPaths)) in
  ["# AI Metadata Index"; "";
   "- Generated: " +++ generatedAt;
   "- Source files indexed: " +++ JsString.ofNat sourceFileCount;
   "- Schema version: " +++ ofZ SCHEMA_VERSION;
   "";
   "## Top tags"]
  ++ match topTags with
     | [] => ["- (none)"]
     | _ => map countLine topTags
     end
  ++ [""; "## Alias paths"]
  ++ match aliasPaths with
     | [] => ["- (none detected)"]
     | _ =>
         map (fun a => "- " +++ code (pattern a) +++ " " +++ arrow +++ " "
                       +++ code (joinJson ", " (targets a)))
           aliasPaths
     end
  ++ [""; "## Directory overview"]
  ++ map countLine dirRows
  ++ [""; "## Most referenced files"]
  ++ map (fun pn => "- " +++ code (fst pn) +++ " (referenced by "
                    +++ JsString.ofNat (snd pn) +++ ")")
       (topReferenced allPaths reverseDeps)
  ++ [""; "## How to use";
      "- Open `ai-metadata/index.md` for a human-readable overview.";
      "- Use `ai-metadata/index.json` for dependency graph + semantic tags/routes.";
      ""].

Definition text (ls : list string) : string :=
  JsString.join (String newline "") ls +++ String newline "".

End Render.

(** *** The run *)

(** What one run writes: the snapshot (the value serialized into
    [index.json]) and the text of [index.md]. *)
Record IndexOutput : Type := {
  index : Index.t;
  indexMd : string
}.

Definition isSourceFile (p : string) : bool :=
  JsArray.mem (NodePath.extname p) SOURCE_EXTENSIONS.

(** The run once the alias rules are loaded. *)
Definition indexWith (w : World) (aliasPaths : list AliasRule)
  (previousIndex : option Index.t) (now : string) : Outcome IndexOutput :=
  let projectRootAbs := cwd w in
  tracked <- gitLsFiles w ;;
  let sourceFiles := filter isSourceFile tracked in
  nextFiles <- buildFiles w previousIndex aliasPaths sourceFiles [] ;;
  g <- buildGraph w projectRootAbs aliasPaths nextFiles ;;
  let allPaths := JsObj.keys nextFiles in
  let generatedAt := now in
  let index :=
    {| Index.schemaVersion := SCHEMA_VERSION;
       Index.generatedAt := generatedAt;
       Index.project := {| root := "."; name := NodePath.basename projectRootAbs;
                           language := "typescript"; aliasPaths := aliasPaths |};
       Index.counts := {| trackedFiles := List.length tracked;
                          sourceFiles := List.length sourceFiles |};
       Index.files := nextFiles;
       Index.graph := g |} in
  Returned
    {| index := index;
       indexMd :=
         Render.text
           (Render.lines generatedAt (List.length sourceFiles) aliasPaths allPaths
              nextFiles (reverseDeps g)) |}.

(** [generateIndex()], the previous snapshot (what [readJsonIfExists]
    finds in [index.json]) and the clock being arguments. *)
Definition generateIndex (w : World) (previousIndex : option Index.t) (now : string)
  : Outcome IndexOutput :=
  aliasPaths <- readTsconfigPaths w (cwd w) ;;
  indexWith w aliasPaths previousIndex now.

(* ------------------------------------------------------------------ *)
(** ** describe-files.mjs *)

Module Describe.

Definition DESC_SCHEMA_VERSION : Z := 2.

(** One record of [descriptions.json].  [carriedFrom] is absent, or
    present with [null] or a time stamp; [others] holds the members that
    the pass does not read (a record written by the pass has none). *)
Module Entry.
Record t : Type := {
  path : string;
  sha256 : option string;
  feature : string;
  description : option string;
  needsReview : bool;
  carriedFrom : option (option string);
  others : JsObj.t json
}.
End Entry.

Module Snapshot.
Record t : Type := {
  schemaVersion : Z;
  generatedAt : option string;
  files : JsObj.t Entry.t
}.
End Snapshot.

(** [Array.isArray(list) ? list.slice(0, n) : []] *)
Definition truncate (l : option (list string)) (n : nat) : list string :=
  match l with
  | Some items => firstn n items
  | None => []
  end.

Definition featureFromPath (filePath : string) : string :=
  let p := JsString.replaceAllChar "\"%char "/"%char filePath in
  if JsString.startsWith p "pages/" then "route/page"
  else if JsString.startsWith p "components/" then "ui/component"
  else if JsString.startsWith p "utils/" then "utility"
  else if JsString.startsWith p "worker/" then "worker/backend"
  else if String.eqb p "App.tsx" || String.eqb p "AppShell.tsx" then "app/shell"
  else "module".

Definition semanticList (file : FileEntry.t) (field : Semantic -> list string)
  : list string :=
  match FileEntry.semantic file with
  | Some s => field s
  | None => []
  end.

Definition nonEmpty {A : Type} (l : list A) : bool :=
  match l with [] => false | _ => true end.

Definition defaultDescription (filePath : string) (file : FileEntry.t)
  (deps : option DepEntry) : string :=
  let feature := featureFromPath filePath in
  let baseName := stripSourceExtension (NodePath.basename filePath) in
  let routes := semanticList file routes in
  let tags := semanticList file tags in
  let apiEndpoints := semanticList file apiEndpoints in
  let storageKeys := semanticList file storageKeys in
  let envVars := semanticList file envVars in
  let named := truncate (option_map named (FileEntry.exports file)) 6 in
  let hasDefault :=
    match FileEntry.exports file with Some e => default e | None => false end in
  let external := JsArray.setOfList (truncate (option_map external deps) 6) in
  let local := truncate (option_map local deps) 4 in
  let exportHint :=
    if nonEmpty named || hasDefault then
      "Exports: "
      +++ JsString.join ", "
            (filter JsString.truthy ((if hasDefault then ["default"] else []) ++ named))
      +++ "."
    else "Exports: (none detected)." in
  let depHintParts :=
    (if nonEmpty external then ["Ext deps: " +++ JsString.join ", " external] else [])
    ++ (if nonEmpty local then ["Local deps: " +++ JsString.join ", " local] else []) in
  let depHint :=
    if nonEmpty depHintParts then JsString.join " | " depHintParts
    else "Deps: (none detected)." in
  let part (label : string) (l : list string) (n : nat) : list string :=
    if nonEmpty l then [label +++ JsString.join ", " (firstn n l)] else [] in
  let semanticParts :=
    part "Routes: " routes 3 ++ part "Tags: " tags 8 ++ part "API: " apiEndpoints 2
    ++ part "Storage: " storageKeys 2 ++ part "Env: " envVars 4 in
  let tail :=
    " (" +++ feature +++ "). " +++ exportHint +++ " " +++ depHint
    +++ (if nonEmpty semanticParts then " " +++ JsString.join " | " semanticParts
         else "") in
  if String.eqb feature "route/page" then
    let route := if String.eqb baseName "index" then "/" else "/" +++ baseName in
    "Page for route " +++ Render.code route +++ tail
  else if String.eqb feature "ui/component" then
    "UI component " +++ Render.code baseName +++ tail
  else if String.eqb feature "utility" then
    "Utility module " +++ Render.code baseName +++ tail
  else if String.eqb feature "worker/backend" then
    "Worker module " +++ Render.code baseName +++ tail
  else if String.eqb feature "app/shell" then
    "App entry/shell " +++ Render.code baseName +++ tail
  else "Module " +++ Render.code baseName +++ tail.

(** The default of [prev] when [descriptions.json] cannot be read. *)
Definition emptySnapshot : Snapshot.t :=
  {| Snapshot.schemaVersion := DESC_SCHEMA_VERSION;
     Snapshot.generatedAt := None;
     Snapshot.files := [] |}.

Definition canCarry (prev : Snapshot.t) (previous : option Entry.t)
  (sha256 : option string) : bool :=
  Z.eqb (Snapshot.schemaVersion prev) DESC_SCHEMA_VERSION
  && match previous with
     | Some e =>
         truthyOpt (Entry.sha256 e)
         && truthyOpt sha256
         && match Entry.sha256 e, sha256 with
            | Some a, Some b => String.eqb a b
            | _, _ => false
            end
         && match Entry.description e with
            | Some _ => true
            | None => false
            end
     | None => false
     end.

(** [{ ...previous, carriedFrom: prev.generatedAt ?? null }] *)
Definition carry (previous : Entry.t) (prev : Snapshot.t) : Entry.t :=
  {| Entry.path := Entry.path previous;
     Entry.sha256 := Entry.sha256 previous;
     Entry.feature := Entry.feature previous;
     Entry.description := Entry.description previous;
     Entry.needsReview := Entry.needsReview previous;
     Entry.carriedFrom := Some (Snapshot.generatedAt prev);
     Entry.others := Entry.others previous |}.

Definition fresh (filePath : string) (file : FileEntry.t) (deps : option DepEntry)
  : Entry.t :=
  {| Entry.path := filePath;
     Entry.sha256 := FileEntry.sha256 file;
     Entry.feature := featureFromPath filePath;
     Entry.description := Some (defaultDescription filePath file deps);
     Entry.needsReview := true;
     Entry.carriedFrom := None;
     Entry.others := [] |}.

(** The state of the loop: the records written so far and the two
    counters. *)
Record Progress : Type := {
  nextFiles : JsObj.t Entry.t;
  updated : nat;
  carried : nat
}.

Definition step (deps : JsObj.t DepEntry) (prev : Snapshot.t) (st : Progress)
  (kv : string * FileEntry.t) : Progress :=
  let '(filePath, file) := kv in
  let sha256 := FileEntry.sha256 file in
  let previous := JsObj.get filePath (Snapshot.files prev) in
  match previous with
  | Some e =>
      if canCarry prev previous sha256 then
        {| nextFiles := JsObj.set filePath (carry e prev) (nextFiles st);
           updated := updated st;
           carried := carried st + 1 |}
      else
        {| nextFiles := JsObj.set filePath (fresh filePath file (JsObj.get filePath deps))
                          (nextFiles st);
           updated := updated st + 1;
           carried := carried st |}
  | None =>
      {| nextFiles := JsObj.set filePath (fresh filePath file (JsObj.get filePath deps))
                        (nextFiles st);
         updated := updated st + 1;
         carried := carried st |}
  end.

Section Sorting.
Variable A : Type.
Variable le : A -> A -> bool.

Fixpoint insertBy (x : A) (l : list A) : list A :=
  match l with
  | [] => [x]
  | y :: l' => if le x y then x :: l else y :: insertBy x l'
  end.

(** [l.sort(compare)], stable, for a comparator given as its
    not-after test. *)
Definition sortBy (l : list A) : list A := fold_right insertBy [] l.
End Sorting.

(** The mark of the review column: the three characters U+00E2,
    U+0153, U+2026 that the source holds there, as their UTF-8 bytes. *)
Definition checkMark : string :=
  string_of_list_ascii (map ascii_of_nat [195; 162; 197; 147; 226; 128; 166]).

Definition row (e : Entry.t) : string :=
  let desc :=
    JsString.replaceAllChar newline " "%char
      (match Entry.description e with Some d => d | None => "" end) in
  "| " +++ Render.code (Entry.path e) +++ " | " +++ Render.code (Entry.feature e)
  +++ " | " +++ (if Entry.needsReview e then checkMark else "") +++ " | " +++ desc +++ " |".

(** The lines of [descriptions.md].  [localeLe a b] says that
    [a.localeCompare(b)] is not positive. *)
Definition lines (localeLe : string -> string -> bool) (generatedAt : string)
  (st : Progress) : list string :=
  let rows :=
    sortBy (fun a b => localeLe (Entry.path a) (Entry.path b))
      (map snd (nextFiles st)) in
  ["# AI File Descriptions"; "";
   "- Generated: " +++ generatedAt;
   "- Files: " +++ JsString.ofNat (List.length rows);
   "- Updated (new/changed): " +++ JsString.ofNat (updated st);
   "- Carried (unchanged): " +++ JsString.ofNat (carried st);
   "";
   "| file | feature | needsReview | description |";
   "|---|---:|---:|---|"]
  ++ map row rows
  ++ [""].

Record Output : Type := {
  descriptions : Snapshot.t;
  descriptionsMd : string
}.

(** [main()], the snapshot [index.json], the previous
    [descriptions.json] (if readable) and the clock being arguments. *)
Definition main (localeLe : string -> string -> bool) (index : Index.t)
  (previousDescriptions : option Snapshot.t) (now : string) : Output :=
  let prev :=
    match previousDescriptions with
    | Some p => p
    | None => emptySnapshot
    end in
  let files := Index.files index in
  let deps := deps (Index.graph index) in
  let st :=
    fold_left (step deps prev) files
      {| nextFiles := []; updated := 0; carried := 0 |} in
  {| descriptions :=
       {| Snapshot.schemaVersion := DESC_SCHEMA_VERSION;
          Snapshot.generatedAt := Some now;
          Snapshot.files := nextFiles st |};
     descriptionsMd := Render.text (lines localeLe now st) |}.

End Describe.

(* ------------------------------------------------------------------ *)
(** ** sync-repo.mjs: the index generator, then the description pass *)

Record Snapshots : Type := {
  indexJson : option Index.t;
  descriptionsJson : option Describe.Snapshot.t
}.

Record SyncOutput : Type := {
  indexOut : IndexOutput;
  describeOut : Describe.Output
}.

(** One run of the pipeline.  [before] holds what the previous run left
    in the metadata directory; [nowIndex] and [nowDescribe] are the clock
    readings of the two steps. *)
Definition syncRepo (w : World) (localeLe : string -> string -> bool)
  (before : Snapshots) (nowIndex nowDescribe : string) : Outcome SyncOutput :=
  out <- generateIndex w (indexJson before) nowIndex ;;
  Returned
    {| indexOut := out;
       describeOut :=
         Describe.main localeLe (index out) (descriptionsJson before) nowDescribe |}.

(** What a run leaves behind for the next one. *)
Definition snapshotsAfter (out : SyncOutput) : Snapshots :=
  {| indexJson := Some (index (indexOut out));
     descriptionsJson := Some (Describe.descriptions (describeOut out)) |}.

(* ------------------------------------------------------------------ *)
(** ** bin/install.mjs: the installer

    The installer reads and writes [AGENTS.md], whose text is not
    confined to code units below 256.  In this module a text is the
    sequence of its UTF-8 bytes (of a well-formed text); the markers, the
    line feed and the dollar patterns that the script looks for are ASCII,
    so that searching and cutting act on the bytes as they do on the code
    units. *)

Module Install.

Definition SKILL_NAME : string := "ai-metadata-sync".
Definition AGENTS_START : string := "<!-- ai-metadata-sync:start -->".
Definition AGENTS_END : string := "<!-- ai-metadata-sync:end -->".

(** *** The command line *)

Record Args : Type := {
  force : bool;
  dryRun : bool;
  codexHome : option string;
  generate : bool;
  init : bool;
  agents : bool;
  help : bool
}.

Definition noArgs : Args :=
  {| force := false; dryRun := false; codexHome := None; generate := false;
     init := false; agents := false; help := false |}.

(** The loop of [parseArgs] over the arguments from index 2 on.  The
    argument after [--codex-home] is its value and is stepped over; when
    there is none the value is [null]. *)
Fixpoint parseLoop (rest : list string) (args : Args) : Args :=
  match rest with
  | [] => args
  | a :: rest' =>
      if String.eqb a "--force" then
        parseLoop rest'
          {| force := true; dryRun := dryRun args; codexHome := codexHome args;
             generate := generate args; init := init args; agents := agents args;
             help := help args |}
      else if String.eqb a "--dry-run" then
        parseLoop rest'
          {| force := force args; dryRun := true; codexHome := codexHome args;
             generate := generate args; init := init args; agents := agents args;
             help := help args |}
      else if String.eqb a "--generate" then
        parseLoop rest'
          {| force := force args; dryRun := dryRun args; codexHome := codexHome args;
             generate := true; init := init args; agents := agents args;
             help := help args |}
      else if String.eqb a "--init" then
        parseLoop rest'
          {| force := force args; dryRun := dryRun args; codexHome := codexHome args;
             generate := true; init := true; agents := true; help := help args |}
      else if String.eqb a "--agents" then
        parseLoop rest'
          {| force := force args; dryRun := dryRun args; codexHome := codexHome args;
             generate := generate args; init := init args; agents := true;
             help := help args |}
      else if String.eqb a "--codex-home" then
        match rest' with
        | value :: rest'' =>
            parseLoop rest''
              {| force := force args; dryRun := dryRun args; codexHome := Some value;
                 generate := generate args; init := init args; agents := agents args;
                 help := help args |}
        | [] =>
            {| force := force args; dryRun := dryRun args; codexHome := None;
               generate := generate args; init := init args; agents := agents args;
               help := help args |}
        end
      else if String.eqb a "-h" || String.eqb a "--help" then
        parseLoop rest'
          {| force := force args; dryRun := dryRun args; codexHome := codexHome args;
             generate := generate args; init := init args; agents := agents args;
             help := true |}
      else parseLoop rest' args
  end.

Definition parseArgs (argv : list string) : Args :=
  parseLoop (skipn 2 argv) noArgs.

(** *** The block in AGENTS.md *)

Definition lf : string := String newline "".

(** The block between the two markers, markers included. *)
Definition body : string :=
  JsString.join lf
    [ AGENTS_START;
      "# Agent Instructions (Repo Local)";
      "";
      "本仓库启用 `ai-metadata/` 作为面向 AI 的本地索引。涉及定位/评估影响/修改代码时，先读索引再读源码。";
      "";
      "## Index-first";
      "- 优先读取 `ai-metadata/index.md`（概览）与 `ai-metadata/index.json`（依赖图、反向依赖、语义 tags/routes）。";
      "- 只有在索引把范围收敛到少量候选文件后，才打开源码文件做进一步分析与修改。";
      "";
      "## 变更后同步（必做）";
      "- 任何源码改动后，同步更新索引与描述：";
      "  - `node " +++ String Regex.dquote "${CODEX_HOME:-$HOME/.codex}/Skills/"
        +++ SKILL_NAME +++ "/scripts/sync-repo.mjs" +++ String Regex.dquote "`";
      "";
      AGENTS_END;
      "" ].

Definition byte (n : nat) (c : ascii) : bool := nat_of_ascii c =? n.

(** White space of one byte: tab, line feed, vertical tab, form feed,
    carriage return, space. *)
Definition isSpace1 (c : ascii) : bool :=
  let n := nat_of_ascii c in ((9 <=? n) && (n <=? 13)) || (n =? 32).

(** White space of two bytes: U+00A0. *)
Definition isSpace2 (b1 b2 : ascii) : bool := byte 194 b1 && byte 160 b2.

(** White space of three bytes: U+1680, U+2000 to U+200A, U+2028,
    U+2029, U+202F, U+205F, U+3000, U+FEFF. *)
Definition isSpace3 (b1 b2 b3 : ascii) : bool :=
  let n3 := nat_of_ascii b3 in
  (byte 225 b1 && byte 154 b2 && byte 128 b3)
  || (byte 226 b1 && byte 128 b2
      && (((128 <=? n3) && (n3 <=? 138)) || (n3 =? 168) || (n3 =? 169) || (n3 =? 175)))
  || (byte 226 b1 && byte 129 b2 && byte 159 b3)
  || (byte 227 b1 && byte 128 b2 && byte 128 b3)
  || (byte 239 b1 && byte 187 b2 && byte 191 b3).

(** The bytes of a text, last byte first, without its trailing white
    space. *)
Fixpoint dropSpaces (r : list ascii) : list ascii :=
  match r with
  | [] => []
  | b3 :: r1 =>
      if isSpace1 b3 then dropSpaces r1
      else
        match r1 with
        | [] => r
        | b2 :: r2 =>
            if isSpace2 b2 b3 then dropSpaces r2
            else
              match r2 with
              | [] => r
              | b1 :: r3 => if isSpace3 b1 b2 b3 then dropSpaces r3 else r
              end
        end
  end.

(** [s.trimEnd()] *)
Definition trimEnd (s : string) : string :=
  string_of_list_ascii (rev (dropSpaces (rev (list_ascii_of_string s)))).

(** The first occurrence of [needle] in [s]: the text before it and the
    text after it. *)
Fixpoint cut (needle s : string) : option (string * string) :=
  if String.prefix needle s then
    Some (EmptyString, JsString.drop (String.length needle) s)
  else
    match s with
    | EmptyString => None
    | String c s' =>
        match cut needle s' with
        | Some (before, after) => Some (String c before, after)
        | None => None
        end
    end.

(** The replacement text of [String.prototype.replace] for a pattern
    without capture groups: two dollars stand for one, a dollar and an
    ampersand for the match, a dollar and a backquote for the text before
    the match, a dollar and a single quote for the text after it; any
    other dollar stands for itself. *)
Fixpoint getSubstitution (matched before after template : string) : string :=
  match template with
  | EmptyString => EmptyString
  | String c t =>
      if Ascii.eqb c "$"%char then
        match t with
        | EmptyString => String c EmptyString
        | String d t' =>
            if Ascii.eqb d "$"%char then
              String "$"%char (getSubstitution matched before after t')
            else if Ascii.eqb d "&"%char then
              matched +++ getSubstitution matched before after t'
            else if Ascii.eqb d Regex.backquote then
              before +++ getSubstitution matched before after t'
            else if Ascii.eqb d Regex.squote then
              after +++ getSubstitution matched before after t'
            else String c (getSubstitution matched before after t)
        end
      else String c (getSubstitution matched before after t)
  end.

(** [existing.replace(re, template)] for the pattern of the block: the
    start marker, as few characters of any kind as possible, the end
    marker, and a line feed if one follows.  The match starts at the first
    start marker and ends at the first end marker after it; when no end
    marker follows the first start marker nothing matches, and the text
    is returned as it is. *)
Definition replaceBlock (existing template : string) : string :=
  match cut AGENTS_START existing with
  | None => existing
  | Some (before, rest) =>
      match cut AGENTS_END rest with
      | None => existing
      | Some (inner, rest') =>
          let '(lineFeed, after) :=
            match rest' with
            | String c after =>
                if Ascii.eqb c newline then (lf, after) else (EmptyString, rest')
            | EmptyString => (EmptyString, EmptyString)
            end in
          let matched := AGENTS_START +++ inner +++ AGENTS_END +++ lineFeed in
          before +++ getSubstitution matched before after template +++ after
      end
  end.

(** [nextText] *)
Definition agentsNextText (existing : string) : string :=
  let hasMarkers :=
    JsString.includes existing AGENTS_START && JsString.includes existing AGENTS_END in
  if hasMarkers then replaceBlock existing (trimEnd body +++ lf)
  else
    (if JsString.truthy (trimEnd existing) then trimEnd existing +++ lf +++ lf
     else "")
    +++ body.

(** *** The run of the installer *)

(** [path.join(...args)] *)
Definition pathJoin (args : list string) : string :=
  let joined := JsString.join "/" (filter JsString.truthy args) in
  if String.eqb joined "" then "." else NodePath.normalize joined.

Definition hexDigit (n : nat) : string :=
  JsString.take 1 (JsString.drop n "0123456789abcdef").

(** One character inside [JSON.stringify(s)]. *)
Definition jsonEscape (c : ascii) : string :=
  let n := nat_of_ascii c in
  if n =? 8 then "\b"
  else if n =? 9 then "\t"
  else if n =? 10 then "\n"
  else if n =? 12 then "\f"
  else if n =? 13 then "\r"
  else if n =? 34 then String "\"%char (String Regex.dquote "")
  else if n =? 92 then "\\"
  else if n <? 32 then "\u00" +++ hexDigit (n / 16) +++ hexDigit (n mod 16)
  else String c "".

(** [JSON.stringify(s)] for a string *)
Definition jsonQuote (s : string) : string :=
  String Regex.dquote
    (String.concat "" (map jsonEscape (list_ascii_of_string s))
     +++ String Regex.dquote "").

(** [`${n}`] for a non-negative integer *)
Definition ofN (n : N) : string := NilEmpty.string_of_uint (N.to_uint n).

(** What the installer does to its surroundings. *)
Inductive Action : Type :=
| Print (text : string)
| Rename (oldPath newPath : string)
| Remove (path : string)
| MakeDir (path : string)
| Copy (source destination : string)
| WriteFile (path text : string)
| Spawn (script : string).

(** How a run ends: normally, by an exception, or by [process.exit]. *)
Inductive Ending : Type :=
| Completed
| Threw
| Exited (status : Z).

Definition Run : Type := (list Action * Ending)%type.

(** The surroundings of a run. *)
Record Env : Type := {
  processArgv : list string;
  (** [process.env.CODEX_HOME] *)
  envCodexHome : option string;
  osHomedir : string;
  processCwd : string;
  (** the directory of the script *)
  scriptDirname : string;
  (** [Date.now()] *)
  dateNow : N;
  (** whether [fs.access(p)] succeeds *)
  accessible : string -> bool;
  (** [fs.readFile(p, 'utf8')] *)
  readText : string -> Outcome string;
  (** whether a call of the file system throws *)
  throws : Action -> bool;
  (** the exit status of the spawned script, [None] when it was killed *)
  spawnStatus : string -> option Z
}.

(** Sequencing: the second part runs when the first completes. *)
Definition andThen (first second : Run) : Run :=
  match first with
  | (done, Completed) => (done ++ fst second, snd second)
  | _ => first
  end.

Definition nothing : Run := ([], Completed).

Definition print (text : string) : Run := ([Print text], Completed).

(** A call of the file system. *)
Definition perform (env : Env) (a : Action) : Run :=
  if throws env a then ([], Threw) else ([a], Completed).

Definition helpText : string :=
  JsString.join lf
    [ "Install the Codex skill: ai-metadata-sync (and optionally generate ai-metadata/)";
      "";
      "Usage:";
      "  codex-skill-ai-metadata-sync [--codex-home <dir>] [--force] [--dry-run] [--generate] [--agents] [--init]";
      "";
      "Defaults:";
      "  --codex-home defaults to $CODEX_HOME or ~/.codex";
      "";
      "Options:";
      "  --generate  Run bundled sync script to generate/update ai-metadata/ in the current directory";
      "  --agents    Create/update AGENTS.md with ai-metadata-sync instructions";
      "  --init      Convenience for --generate --agents (still installs the skill)";
      "" ]
  +++ lf.

Definition defaultCodexHome (env : Env) : string :=
  match envCodexHome env with
  | Some home => if JsString.truthy home then home
                 else pathJoin [osHomedir env; ".codex"]
  | None => pathJoin [osHomedir env; ".codex"]
  end.

Definition sourceDirOf (env : Env) : string :=
  pathJoin [NodePath.resolve (processCwd env) [scriptDirname env; ".."]; "skill"].

Definition destDirOf (env : Env) (args : Args) : string :=
  let home :=
    match codexHome args with
    | Some dir => if JsString.truthy dir then dir else defaultCodexHome env
    | None => defaultCodexHome env
    end in
  pathJoin [NodePath.resolve (processCwd env) [home]; "Skills"; SKILL_NAME].

Definition agentsPathOf (env : Env) : string :=
  pathJoin [processCwd env; "AGENTS.md"].

(** The step that makes room for the skill. *)
Definition makeRoom (env : Env) (args : Args) (destDir : string) : Run :=
  let already := accessible env destDir in
  if already && negb (force args) then
    let backupDir := destDir +++ ".bak-" +++ ofN (dateNow env) in
    if dryRun args then
      print ("[dry-run] Would move existing skill to: " +++ backupDir +++ lf)
    else
      andThen (perform env (Rename destDir backupDir))
        (print ("Existing skill moved to: " +++ backupDir +++ lf))
  else if already && force args then
    if dryRun args then
      print ("[dry-run] Would remove existing skill: " +++ destDir +++ lf)
    else perform env (Remove destDir)
  else nothing.

Definition copySkill (env : Env) (args : Args) (sourceDir destDir : string) : Run :=
  if negb (dryRun args) then
    andThen (perform env (MakeDir (NodePath.dirname destDir)))
      (perform env (Copy sourceDir destDir))
  else nothing.

Definition updateAgents (env : Env) (args : Args) : Run :=
  if agents args then
    let agentsPath := agentsPathOf env in
    let existing :=
      match readText env agentsPath with
      | Returned text => text
      | Thrown => ""
      end in
    let nextText := agentsNextText existing in
    if dryRun args then print ("[dry-run] Would write: " +++ agentsPath +++ lf)
    else
      andThen (perform env (WriteFile agentsPath nextText))
        (print ("Updated: " +++ agentsPath +++ lf))
  else nothing.

Definition runSync (env : Env) (args : Args) (destDir : string) : Run :=
  if generate args then
    let syncScript := pathJoin [destDir; "scripts"; "sync-repo.mjs"] in
    let cmd := "node " +++ jsonQuote syncScript in
    if dryRun args then print ("[dry-run] Would run: " +++ cmd +++ lf)
    else
      match spawnStatus env syncScript with
      | Some status =>
          if Z.eqb status 0 then ([Spawn syncScript], Completed)
          else ([Spawn syncScript], Exited status)
      | None => ([Spawn syncScript], Exited 1)
      end
  else nothing.

(** [main()] *)
Definition main (env : Env) : Run :=
  let args := parseArgs (processArgv env) in
  if help args then print helpText
  else
    let sourceDir := sourceDirOf env in
    let destDir := destDirOf env args in
    if negb (accessible env sourceDir) then ([], Threw)
    else
      andThen (makeRoom env args destDir)
        (andThen (copySkill env args sourceDir destDir)
           (andThen
              (print
                 ((if dryRun args then "[dry-run] Would install skill to"
                   else "Installed skill to")
                  +++ ": " +++ destDir +++ lf))
              (andThen (updateAgents env args)
                 (andThen (runSync env args destDir)
                    (print
                       ("Next: restart Codex CLI (or start a new session) and use `$ai-metadata-sync`."
                        +++ lf)))))).

End Install.

(* ------------------------------------------------------------------ *)
(** ** The design document's wording, for comparison with the code *)

(** The non-wildcard prefix of [rule] matches [spec]. *)
Definition prefixMatches (spec : string) (rule : AliasRule) : bool :=
  JsString.endsWith (pattern rule) "/*"
  && JsString.startsWith spec (JsString.dropLast 2 (pattern rule) +++ "/").

(** What [rule] makes of [spec] through its first target: the captured
    suffix for the passthrough target, the target prefix and the suffix
    for a wildcard target. *)
Definition rewriteWith (spec : string) (rule : AliasRule) : option string :=
  let suffix :=
    JsString.drop (String.length (JsString.dropLast 2 (pattern rule)) + 1) spec in
  match targets rule with
  | JStr firstTarget :: _ =>
      if String.eqb firstTarget "./*" then Some suffix
      else if JsString.endsWith firstTarget "/*" then
        Some (JsString.dropLast 2 firstTarget +++ "/" +++ suffix)
      else None
  | _ => None
  end.

(** "First rule whose non-wildcard prefix matches wins; only its first
    candidate target is used." *)
Definition applyAliasAsDocumented (spec : string) (aliasPaths : list AliasRule)
  : option string :=
  match find (prefixMatches spec) aliasPaths with
  | Some rule => rewriteWith spec rule
  | None => None
  end.

(** A rule applies to a specifier when its pattern is a prefix followed
    by a wildcard, the specifier continues that prefix, and its first
    target is a string that ends in a wildcard. *)
Definition Applies (spec : string) (rule : AliasRule) : Prop :=
  exists prefix suffix targetPrefix others,
    pattern rule = prefix +++ "/*"
    /\ spec = prefix +++ "/" +++ suffix
    /\ targets rule = JStr (targetPrefix +++ "/*") :: others.

(** The boolean form of [Applies]. *)
Definition appliesb (spec : string) (rule : AliasRule) : bool :=
  prefixMatches spec rule
  && match rewriteWith spec rule with Some _ => true | None => false end.

(** The table under [compilerOptions.paths] of a configuration, when
    there is an object there. *)
Definition pathTable (config : option json) : option (list (string * json)) :=
  match Json.member "paths" (Json.member "compilerOptions" config) with
  | Some (JObj _ as p) | Some (JArr _ as p) => Some (Json.entries p)
  | _ => None
  end.

(** No table of paths is to be had: the file cannot be read or is
    empty, the parser throws, or what it delivers holds no object under
    [compilerOptions.paths]. *)
Definition NoPathTable (w : World) (projectRootAbs : string) : Prop :=
  let tsconfigPath := NodePath.join2 projectRootAbs "tsconfig.json" in
  tsSysReadFile w tsconfigPath = Thrown
  \/ tsSysReadFile w tsconfigPath = Returned None
  \/ tsSysReadFile w tsconfigPath = Returned (Some "")
  \/ exists text,
       tsSysReadFile w tsconfigPath = Returned (Some text)
       /\ (tsParseConfigFileTextToJson w tsconfigPath text = Thrown
           \/ exists config,
                tsParseConfigFileTextToJson w tsconfigPath text = Returned config
                /\ pathTable config = None).

(** The rules of a table of paths: one for each entry whose value is an
    array, in the order of the table. *)
Definition tableRules (table : list (string * json)) : list AliasRule :=
  flat_map
    (fun kv =>
       match snd kv with
       | JArr items => [{| pattern := fst kv; targets := items |}]
       | _ => []
       end)
    table.

(** The brackets and braces of a JSON text that are still open at its
    end, those inside strings left aside.  A well-formed text leaves none
    open. *)
Fixpoint openBrackets (inString : bool) (depth : nat) (s : string) : nat :=
  match s with
  | EmptyString => depth
  | String c s' =>
      if Ascii.eqb c Regex.dquote then openBrackets (negb inString) depth s'
      else if inString then openBrackets inString depth s'
      else if Ascii.eqb c "{"%char || Ascii.eqb c "["%char then
        openBrackets inString (S depth) s'
      else if Ascii.eqb c "}"%char || Ascii.eqb c "]"%char then
        openBrackets inString (Nat.pred depth) s'
      else openBrackets inString depth s'
  end.

Definition unclosedBrackets (text : string) : nat := openBrackets false 0 text.

(** "Its semantic facts are structurally present", read on a record of
    [descriptions.json]. *)
Definition semanticFactsPresent (e : Describe.Entry.t) : bool :=
  match JsObj.get "semantic" (Describe.Entry.others e) with
  | Some (JObj _) | Some (JArr _) => true
  | _ => false
  end.

(** The shared carry rule as the design document words it, read on the
    description pass: equal hashes, equal schema versions, semantic facts
    present. *)
Definition canCarryAsDocumented (prev : Describe.Snapshot.t)
  (previous : Describe.Entry.t) (sha256 : option string) : bool :=
  match Describe.Entry.sha256 previous, sha256 with
  | Some a, Some b => String.eqb a b
  | _, _ => false
  end
  && Z.eqb (Describe.Snapshot.schemaVersion prev) Describe.DESC_SCHEMA_VERSION
  && semanticFactsPresent previous.

(** Ascending order by code unit. *)
Definition ascending : list string -> Prop :=
  StronglySorted (fun a b => String.leb a b = true).

(** The captured groups that an extraction loop looks at: the non-empty
    ones that its test keeps. *)
Definition kept (keep : string -> bool) (matches : list string) : list string :=
  filter (fun v => JsString.truthy v && keep v) matches.

(** A segment of a resolved path: not empty, not a dot or two, and
    without a slash. *)
Definition cleanSegment (s : string) : bool :=
  negb (String.eqb s "") && negb (String.eqb s ".") && negb (String.eqb s "..")
  && negb (JsString.hasChar NodePath.slash s).

(** The probes of the design document for a candidate: the candidate
    itself when it has an extension; otherwise each recognized extension
    appended to the candidate, then each appended to the candidate
    followed by [/index] (below the file system root, whose path is the
    slash itself, that is [/index]). *)
Definition probesAsDocumented (candidateAbs : string) : list string :=
  if String.eqb (NodePath.extname candidateAbs) "" then
    map (fun ext => candidateAbs +++ ext) RESOLVE_EXTENSIONS
    ++ map (fun ext =>
              (if String.eqb candidateAbs "/" then "" else candidateAbs)
              +++ "/index" +++ ext)
         RESOLVE_EXTENSIONS
  else [candidateAbs].

(** [Q] is a member of [deps[P].local]. *)
Definition inLocalDeps (g : Graph) (P Q : string) : Prop :=
  exists entry, JsObj.get P (deps g) = Some entry /\ In Q (local entry).

(** [P] is a member of [reverseDeps[Q]]. *)
Definition inReverseDeps (g : Graph) (P Q : string) : Prop :=
  exists importers, JsObj.get Q (reverseDeps g) = Some importers /\ In P importers.

(** Reverse-edge symmetry. *)
Definition symmetric (g : Graph) : Prop :=
  forall P Q, inLocalDeps g P Q <-> inReverseDeps g P Q.

(** The invariant of the loop over the paths: symmetry, and forward
    entries only for the paths already visited. *)
Definition graphInvariant (visited : list string) (g : Graph) : Prop :=
  symmetric g /\ (forall P, JsObj.get P (deps g) <> None -> In P visited).

(** What the description pass makes of a record of the previous run
    when nothing changed: a record with a non-empty hash is carried, and
    receives the previous run's time stamp as provenance; any other record
    is written afresh, the same as before. *)
Definition carriedOver (prev : Describe.Snapshot.t) (e : Describe.Entry.t)
  : Describe.Entry.t :=
  if truthyOpt (Describe.Entry.sha256 e) then Describe.carry e prev else e.

(** The record that one iteration of the description pass stores. *)
Definition describedEntry (deps : JsObj.t DepEntry) (prev : Describe.Snapshot.t)
  (filePath : string) (file : FileEntry.t) : Describe.Entry.t :=
  match JsObj.get filePath (Describe.Snapshot.files prev) with
  | Some e =>
      if Describe.canCarry prev (Some e) (FileEntry.sha256 file)
      then Describe.carry e prev
      else Describe.fresh filePath file (JsObj.get filePath deps)
  | None => Describe.fresh filePath file (JsObj.get filePath deps)
  end.

(** The resolved paths, the unresolved specifiers and the package
    identities among a list of classified edges, in their order. *)
Definition localsOf (edges : list Edge) : list string :=
  flat_map (fun e => match e with LOCAL r => [r] | _ => [] end) edges.

Definition unresolvedOf (edges : list Edge) : list string :=
  flat_map (fun e => match e with LOCAL_UNRESOLVED s => [s] | _ => [] end) edges.

Definition externalsOf (edges : list Edge) : list string :=
  flat_map (fun e => match e with EXTERNAL p => [p] | _ => [] end) edges.

(** A snapshot with another generation time. *)
Definition withGeneratedAt (t : string) (ix : Index.t) : Index.t :=
  {| Index.schemaVersion := Index.schemaVersion ix;
     Index.generatedAt := t;
     Index.project := Index.project ix;
     Index.counts := Index.counts ix;
     Index.files := Index.files ix;
     Index.graph := Index.graph ix |}.

(** The digest [index.md] as a function of the snapshot. *)
Definition digestOf (ix : Index.t) : string :=
  Render.text
    (Render.lines (Index.generatedAt ix) (sourceFiles (Index.counts ix))
       (aliasPaths (Index.project ix)) (JsObj.keys (Index.files ix))
       (Index.files ix) (reverseDeps (Index.graph ix))).

(* ------------------------------------------------------------------ *)
(** ** Notions used by the further properties *)

(** Every character of [s] belongs to the class [cls]. *)
Fixpoint allChars (cls : ascii -> bool) (s : string) : bool :=
  match s with
  | EmptyString => true
  | String c s' => cls c && allChars cls s'
  end.

(** [v] stands in [text] between two occurrences of one quote
    character. *)
Definition quotedIn (text v : string) : Prop :=
  exists q,
    Regex.isQuote q = true
    /\ JsString.includes text (String q (v +++ String q "")) = true.

(** A dependency whose lower-cased name contains [needle]. *)
Definition someDepIncludes (externalDeps : list string) (needle : string) : Prop :=
  exists dep,
    In dep externalDeps
    /\ JsString.includes (JsString.toLowerCase dep) needle = true.

(** What calls for the tag [t] on a file: a route for [route]; for a
    keyword, its occurrence in the lower-cased path or text; for [flow],
    [qrcode] and [zip], a dependency named after the library. *)
Definition tagCalledFor (text filePath : string) (externalDeps : list string)
  (t : string) : Prop :=
  (t = "route" /\ inferRoutesFromPath filePath <> [])
  \/ (In t TAG_KEYWORDS
      /\ (JsString.includes (JsString.toLowerCase filePath) t = true
          \/ JsString.includes (JsString.toLowerCase text) t = true))
  \/ (t = "flow"
      /\ (someDepIncludes externalDeps "reactflow"
          \/ someDepIncludes externalDeps "xyflow"))
  \/ (t = "qrcode" /\ someDepIncludes externalDeps "qrcode")
  \/ (t = "zip" /\ someDepIncludes externalDeps "jszip").

(** The cache of the description pass: the previous snapshot, or the
    empty one. *)
Definition previousOrEmpty (previousDescriptions : option Describe.Snapshot.t)
  : Describe.Snapshot.t :=
  match previousDescriptions with
  | Some p => p
  | None => Describe.emptySnapshot
  end.

(** The state of the description pass when its loop ends. *)
Definition describeProgress (index : Index.t) (prev : Describe.Snapshot.t)
  : Describe.Progress :=
  fold_left (Describe.step (deps (Index.graph index)) prev) (Index.files index)
    {| Describe.nextFiles := []; Describe.updated := 0; Describe.carried := 0 |}.

(** The files whose description the pass carries over. *)
Definition carriable (prev : Describe.Snapshot.t) (kv : string * FileEntry.t) : bool :=
  Describe.canCarry prev (JsObj.get (fst kv) (Describe.Snapshot.files prev))
    (FileEntry.sha256 (snd kv)).

(** Descending order by count. *)
Definition descendingBy {A : Type} (count : A -> nat) : list A -> Prop :=
  StronglySorted (fun a b => count b <= count a).

(** The number of occurrences of [k] in [l]. *)
Definition occurrences (k : string) (l : list string) : nat :=
  List.length (filter (String.eqb k) l).

(** The number of files that import [p], as the digest counts it. *)
Definition referencedBy (reverseDeps : JsObj.t (list string)) (p : string) : nat :=
  List.length (orEmpty (JsObj.get p reverseDeps)).

(** The command-line arguments that the installer reads as options: all
    of them but the values that follow [--codex-home]. *)
Fixpoint optionWords (rest : list string) : list string :=
  match rest with
  | [] => []
  | a :: rest' =>
      if String.eqb a "--codex-home" then
        a :: match rest' with
             | _ :: rest'' => optionWords rest''
             | [] => []
             end
      else a :: optionWords rest'
  end.

(** The values given to [--codex-home], in their order ([None] for the
    option standing last, without a value). *)
Fixpoint codexHomeValues (rest : list string) : list (option string) :=
  match rest with
  | [] => []
  | a :: rest' =>
      if String.eqb a "--codex-home" then
        match rest' with
        | value :: rest'' => Some value :: codexHomeValues rest''
        | [] => [None]
        end
      else codexHomeValues rest'
  end.

Definition isPrint (a : Install.Action) : bool :=
  match a with
  | Install.Print _ => true
  | _ => false
  end.

(** The text of [AGENTS.md] that the installer starts from. *)
Definition agentsBefore (env : Install.Env) : string :=
  match Install.readText env (Install.agentsPathOf env) with
  | Returned text => text
  | Thrown => ""
  end.

(** What the options must be for the installer to perform an action. *)
Definition licensed (env : Install.Env) (a : Install.Action) : Prop :=
  let args := Install.parseArgs (Install.processArgv env) in
  let destDir := Install.destDirOf env args in
  match a with
  | Install.Print _ => True
  | Install.Rename oldPath newPath =>
      Install.dryRun args = false /\ Install.force args = false
      /\ Install.accessible env destDir = true
      /\ oldPath = destDir
      /\ newPath = destDir +++ ".bak-" +++ Install.ofN (Install.dateNow env)
  | Install.Remove path =>
      Install.dryRun args = false /\ Install.force args = true /\ path = destDir
  | Install.MakeDir path =>
      Install.dryRun args = false /\ path = NodePath.dirname destDir
  | Install.Copy source destination =>
      Install.dryRun args = false /\ source = Install.sourceDirOf env
      /\ destination = destDir
  | Install.WriteFile path text =>
      Install.dryRun args = false /\ Install.agents args = true
      /\ path = Install.agentsPathOf env
      /\ text = Install.agentsNextText (agentsBefore env)
  | Install.Spawn script =>
      Install.dryRun args = false /\ Install.generate args = true
      /\ script = Install.pathJoin [destDir; "scripts"; "sync-repo.mjs"]
  end.

(** The text of the block between its two markers. *)
Definition bodyInner : string :=
  JsString.take
    (String.length Install.body - String.length Install.AGENTS_START
     - String.length Install.AGENTS_END - 1)
    (JsString.drop (String.length Install.AGENTS_START) Install.body).












(* ------------------------------------------------------------------ *)
(** ** Sample inputs *)

(** A configuration in which a rule without a wildcard target stands
    before a rule with one. *)
Definition shadowedRules : list AliasRule :=
  [ {| pattern := "@app/*"; targets := [JStr "./src/app.ts"] |};
    {| pattern := "@app/ui/*"; targets := [JStr "./src/ui/*"] |} ].

Definition nl : string := String newline "".

Definition homeText : string :=
  "import { formatDate } from '../utils/fmt';" +++ nl
  +++ "import debounce from 'lodash/debounce';" +++ nl
  +++ "import missing from './missing';" +++ nl
  +++ "const lodash = require('lodash');" +++ nl
  +++ "export default function Home() { return formatDate(0); }" +++ nl.

Definition fmtText : string :=
  "export function formatDate(d) { return String(d); }" +++ nl.

(** A repository of two tracked source files and no configuration:
    [pages/home.tsx] imports [../utils/fmt], [lodash/debounce] and
    [./missing], and requires [lodash]; [utils/fmt.ts] exports
    [formatDate]. *)
Definition sampleWorld : World :=
  {| cwd := "/repo";
     gitLsFilesStdout :=
       Returned ("README.md" +++ nl +++ "pages/home.tsx" +++ nl +++ "utils/fmt.ts" +++ nl);
     fsReadFile := fun p =>
       if String.eqb p "/repo/pages/home.tsx" then Returned homeText
       else if String.eqb p "/repo/utils/fmt.ts" then Returned fmtText
       else Thrown;
     fsAccess := fun p =>
       JsArray.mem p ["/repo/README.md"; "/repo/pages/home.tsx"; "/repo/utils/fmt.ts"];
     tsSysReadFile := fun _ => Returned None;
     tsParseConfigFileTextToJson := fun _ _ => Returned None;
     tsScan := fun _ fileName _ =>
       if String.eqb fileName "pages/home.tsx" then
         {| staticSpecifiers := ["../utils/fmt"; "lodash/debounce"; "./missing"];
            dynamicSpecifiers := ["lodash"];
            exportedNames := ["Home"];
            hasExportAssignment := false |}
       else
         {| staticSpecifiers := [];
            dynamicSpecifiers := [];
            exportedNames := ["formatDate"];
            hasExportAssignment := false |};
     sha256Hex := fun text => "digest-" +++ JsString.ofNat (utf8ByteLength text) |}.




(** A configuration file that breaks off before its last two braces,
    and the configuration that a parser which closes them reads from
    it. *)
Definition quoted (s : string) : string :=
  String Regex.dquote s +++ String Regex.dquote "".

Definition truncatedConfig : string :=
  "{" +++ quoted "compilerOptions" +++ ":{" +++ quoted "paths" +++ ":{"
  +++ quoted "@app/*" +++ ":[" +++ quoted "./src/*" +++ "],"
  +++ quoted "@lib/*" +++ ":[" +++ quoted "./lib/*" +++ "]}".

Definition recoveredConfig : json :=
  JObj [("compilerOptions",
         JObj [("paths",
                JObj [("@app/*", JArr [JStr "./src/*"]);
                      ("@lib/*", JArr [JStr "./lib/*"])])])].

(** The sample repository with that file as its [tsconfig.json] and a
    parser that recovers from the missing braces. *)
Definition recoveringWorld : World :=
  {| cwd := cwd sampleWorld;
     gitLsFilesStdout := gitLsFilesStdout sampleWorld;
     fsReadFile := fsReadFile sampleWorld;
     fsAccess := fsAccess sampleWorld;
     tsSysReadFile := fun p =>
       if String.eqb p "/repo/tsconfig.json" then Returned (Some truncatedConfig)
       else Returned None;
     tsParseConfigFileTextToJson := fun _ text =>
       if String.eqb text truncatedConfig then Returned (Some recoveredConfig)
       else Returned None;
     tsScan := tsScan sampleWorld;
     sha256Hex := sha256Hex sampleWorld |}.

(** The first run of the index generator in the sample repository. *)
Definition sampleRun : Outcome IndexOutput :=
  generateIndex sampleWorld None "2026-01-01T00:00:00.000Z".

(** A description record as the description pass writes it, and a
    snapshot that holds it. *)
Definition cachedDescription : Describe.Entry.t :=
  {| Describe.Entry.path := "utils/fmt.ts";
     Describe.Entry.sha256 := Some "digest-52";
     Describe.Entry.feature := "utility";
     Describe.Entry.description :=
       Some "Utility module `fmt` (utility). Exports: formatDate. Deps: (none detected).";
     Describe.Entry.needsReview := true;
     Describe.Entry.carriedFrom := None;
     Describe.Entry.others := [] |}.

Definition cachedDescriptions : Describe.Snapshot.t :=
  {| Describe.Snapshot.schemaVersion := Describe.DESC_SCHEMA_VERSION;
     Describe.Snapshot.generatedAt := Some "2026-01-01T00:00:01.000Z";
     Describe.Snapshot.files := [("utils/fmt.ts", cachedDescription)] |}.

(** The first run of the pipeline in the sample repository, on an empty
    metadata directory. *)
Definition sampleSync : Outcome SyncOutput :=
  syncRepo sampleWorld String.leb
    {| indexJson := None; descriptionsJson := None |}
    "2026-01-01T00:00:00.000Z" "2026-01-01T00:00:01.000Z".

(** A snapshot written under the schema version before the current one,
    holding a record of [utils/fmt.ts] with the hash of its present
    text. *)
Definition olderSnapshot : Index.t :=
  {| Index.schemaVersion := 1;
     Index.generatedAt := "2025-06-01T00:00:00.000Z";
     Index.project := {| root := "."; name := "repo"; language := "typescript";
                         aliasPaths := [] |};
     Index.counts := {| trackedFiles := 1; sourceFiles := 1 |};
     Index.files :=
       [("utils/fmt.ts",
         {| FileEntry.path := "utils/fmt.ts"; FileEntry.kind := "ts";
            FileEntry.bytes := 52; FileEntry.sha256 := Some "digest-52";
            FileEntry.importSpecifiers := Some [];
            FileEntry.dynamicImportSpecifiers := Some [];
            FileEntry.exports := Some {| named := ["formatDate"]; default := false |};
            FileEntry.semantic := None |})];
     Index.graph := {| deps := []; reverseDeps := [] |} |}.

(** An installation into a home directory that holds the skill already,
    asked to update [AGENTS.md] and to generate the metadata. *)
Definition sampleInstall : Install.Env :=
  {| Install.processArgv := ["node"; "/pkg/bin/install.mjs"; "--init"];
     Install.envCodexHome := None;
     Install.osHomedir := "/home/dev";
     Install.processCwd := "/repo";
     Install.scriptDirname := "/pkg/bin";
     Install.dateNow := 1767225600000%N;
     Install.accessible := fun p =>
       JsArray.mem p ["/pkg/skill"; "/home/dev/.codex/Skills/ai-metadata-sync"];
     Install.readText := fun _ => Thrown;
     Install.throws := fun _ => false;
     Install.spawnStatus := fun _ => Some 0%Z |}.

(** The same, as a dry run. *)
Definition sampleDryRun : Install.Env :=
  {| Install.processArgv := ["node"; "/pkg/bin/install.mjs"; "--init"; "--dry-run"];
     Install.envCodexHome := Install.envCodexHome sampleInstall;
     Install.osHomedir := Install.osHomedir sampleInstall;
     Install.processCwd := Install.processCwd sampleInstall;
     Install.scriptDirname := Install.scriptDirname sampleInstall;
     Install.dateNow := Install.dateNow sampleInstall;
     Install.accessible := Install.accessible sampleInstall;
     Install.readText := Install.readText sampleInstall;
     Install.throws := Install.throws sampleInstall;
     Install.spawnStatus := Install.spawnStatus sampleInstall |}.
(* ------------------------------------------------------------------ *)
(** * Properties *)

Unset Implicit Arguments.

(** ** Facts about the string methods *)

Module JsStringFacts.
Import JsString.

Lemma append_nil_r (s : string) : s +++ "" = s.
Proof. induction s; simpl; congruence. Qed.

Lemma append_assoc (a b c : string) : (a +++ b) +++ c = a +++ b +++ c.
Proof. induction a; simpl; congruence. Qed.

Lemma length_append (a b : string) :
  String.length (a +++ b) = String.length a + String.length b.
Proof. induction a; simpl; congruence. Qed.

Lemma prefix_app (p r : string) : String.prefix p (p +++ r) = true.
Proof.
  induction p as [|c p IH]; simpl.
  - now destruct r.
  - destruct (ascii_dec c c); [exact IH | congruence].
Qed.

Lemma prefix_split (p s : string) :
  String.prefix p s = true -> s = p +++ drop (String.length p) s.
Proof.
  revert s; induction p as [|c p IH]; intros s H; simpl.
  - reflexivity.
  - destruct s as [|d s]; simpl in H; [discriminate|].
    destruct (ascii_dec c d); [subst|discriminate].
    simpl. f_equal. now apply IH.
Qed.

Lemma drop_app (p r : string) : drop (String.length p) (p +++ r) = r.
Proof. induction p; simpl; auto. Qed.

Lemma take_app (p r : string) : take (String.length p) (p +++ r) = p.
Proof. induction p; simpl; [now destruct r | congruence]. Qed.

Lemma startsWith_iff (s p : string) :
  startsWith s p = true <-> exists r, s = p +++ r.
Proof.
  unfold startsWith; split.
  - intro H. eexists. now apply prefix_split.
  - intros [r ->]. apply prefix_app.
Qed.

Lemma dropLast_app (p suf : string) :
  dropLast (String.length suf) (p +++ suf) = p.
Proof.
  unfold dropLast. rewrite length_append.
  replace (String.length p + String.length suf - String.length suf)
    with (String.length p) by lia.
  apply take_app.
Qed.

Lemma take_drop (n : nat) (s : string) : take n s +++ drop n s = s.
Proof.
  revert s; induction n; intros [|c s]; simpl; auto. now rewrite IHn.
Qed.

Lemma endsWith_iff (s suf : string) :
  endsWith s suf = true <-> exists p, s = p +++ suf.
Proof.
  unfold endsWith; split.
  - intro H. apply andb_true_iff in H as [_ H].
    apply String.eqb_eq in H.
    exists (take (String.length s - String.length suf) s).
    rewrite <- H at 2. symmetry. apply take_drop.
  - intros [p ->]. rewrite length_append.
    apply andb_true_iff; split; [apply Nat.leb_le; lia|].
    replace (String.length p + String.length suf - String.length suf)
      with (String.length p) by lia.
    rewrite drop_app. apply String.eqb_refl.
Qed.

Lemma endsWith_dropLast (s suf : string) :
  endsWith s suf = true -> s = dropLast (String.length suf) s +++ suf.
Proof.
  intro H. apply endsWith_iff in H as [p ->]. now rewrite dropLast_app.
Qed.

Lemma split_nonempty (sep : ascii) (s : string) : split sep s <> [].
Proof.
  destruct s as [|c s]; simpl; [discriminate|].
  destruct (Ascii.eqb c sep); [discriminate|].
  destruct (split sep s); discriminate.
Qed.

(** Joining the pieces with the separator gives the string back. *)
Lemma join_split (sep : ascii) (s : string) :
  join (String sep "") (split sep s) = s.
Proof.
  unfold join. induction s as [|c s IH]; simpl; [reflexivity|].
  destruct (Ascii.eqb c sep) eqn:E.
  - apply Ascii.eqb_eq in E; subst c.
    pose proof (split_nonempty sep s) as Hne.
    destruct (split sep s) as [|h t]; [congruence|].
    simpl in *. now rewrite IH.
  - pose proof (split_nonempty sep s) as Hne.
    destruct (split sep s) as [|h t]; [congruence|].
    simpl in *. destruct t; simpl in *; now rewrite <- IH.
Qed.

(** No piece contains the separator. *)
Lemma split_no_sep (sep : ascii) (s p : string) :
  In p (split sep s) -> hasChar sep p = false.
Proof.
  revert p; induction s as [|c s IH]; simpl; intros p H.
  - destruct H as [<-|[]]. reflexivity.
  - destruct (Ascii.eqb c sep) eqn:E.
    + destruct H as [<-|H]; [reflexivity | now apply IH].
    + pose proof (split_nonempty sep s) as Hne.
      destruct (split sep s) as [|h t]; [congruence|].
      destruct H as [<-|H].
      * simpl. rewrite E. apply IH. now left.
      * apply IH. now right.
Qed.

End JsStringFacts.

(** ** Facts about objects used as maps *)

Module JsObjFacts.
Import JsObj.
Section Obj.
Variable V : Type.
Implicit Types (o : JsObj.t V) (v : V) (k : string).

Lemma get_set_eq k v o : get k (set k v o) = Some v.
Proof.
  induction o as [|[k' v'] o IH]; simpl.
  - now rewrite String.eqb_refl.
  - destruct (String.eqb k k') eqn:E; simpl.
    + now rewrite String.eqb_refl.
    + now rewrite E.
Qed.

Lemma get_set_ne k k' v o : k <> k' -> get k' (set k v o) = get k' o.
Proof.
  intro Hne. induction o as [|[k2 v2] o IH]; simpl.
  - destruct (String.eqb k' k) eqn:E; [|reflexivity].
    apply String.eqb_eq in E. congruence.
  - destruct (String.eqb k k2) eqn:E; simpl.
    + apply String.eqb_eq in E; subst k2.
      destruct (String.eqb k' k) eqn:E'; [|reflexivity].
      apply String.eqb_eq in E'. congruence.
    + now rewrite IH.
Qed.

Lemma get_set k k' v o :
  get k' (set k v o) = if String.eqb k' k then Some v else get k' o.
Proof.
  destruct (String.eqb k' k) eqn:E.
  - apply String.eqb_eq in E; subst. apply get_set_eq.
  - apply String.eqb_neq in E. apply get_set_ne. congruence.
Qed.

Lemma get_Some_In_keys k o v : get k o = Some v -> In k (keys o).
Proof.
  induction o as [|[k' v'] o IH]; simpl; [discriminate|].
  destruct (String.eqb k k') eqn:E.
  - apply String.eqb_eq in E. auto.
  - auto.
Qed.

Lemma In_keys_get k o : In k (keys o) -> exists v, get k o = Some v.
Proof.
  induction o as [|[k' v'] o IH]; simpl; [tauto|].
  intros [->|H].
  - rewrite String.eqb_refl. eauto.
  - destruct (String.eqb k k'); eauto.
Qed.

Lemma get_None_keys k o : get k o = None <-> ~ In k (keys o).
Proof.
  split.
  - intros H Hin. apply In_keys_get in Hin as [v Hv]. congruence.
  - intro H. destruct (get k o) eqn:E; [|reflexivity].
    apply get_Some_In_keys in E. tauto.
Qed.

Lemma keys_set_In k v o :
  get k o <> None -> keys (set k v o) = keys o.
Proof.
  induction o as [|[k' v'] o IH]; simpl; [congruence|].
  destruct (String.eqb k k') eqn:E; simpl; intro H.
  - apply String.eqb_eq in E. now subst.
  - f_equal. auto.
Qed.

Lemma keys_set_fresh k v o :
  get k o = None -> keys (set k v o) = keys o ++ [k].
Proof.
  induction o as [|[k' v'] o IH]; simpl; [reflexivity|].
  destruct (String.eqb k k') eqn:E; simpl; intro H; [discriminate|].
  f_equal. auto.
Qed.

Lemma In_keys_set k k' v o :
  In k' (keys (set k v o)) <-> k' = k \/ In k' (keys o).
Proof.
  destruct (get k o) eqn:E.
  - rewrite keys_set_In by congruence.
    apply get_Some_In_keys in E. split; [tauto|]. intros [->|]; auto.
  - rewrite keys_set_fresh by assumption. rewrite in_app_iff. simpl.
    intuition.
Qed.

Lemma NoDup_keys_set k v o : NoDup (keys o) -> NoDup (keys (set k v o)).
Proof.
  intro H. destruct (get k o) eqn:E.
  - now rewrite keys_set_In by congruence.
  - rewrite keys_set_fresh by assumption.
    apply get_None_keys in E.
    apply NoDup_rev in H. rewrite <- (rev_involutive (keys o ++ [k])).
    apply NoDup_rev. rewrite rev_app_distr. simpl. constructor; auto.
    now rewrite <- in_rev.
Qed.

(** The value stored under a key, when the keys are distinct. *)
Lemma get_In k v o : NoDup (keys o) -> In (k, v) o -> get k o = Some v.
Proof.
  induction o as [|[k' v'] o IH]; simpl; [tauto|].
  intros Hnd [Heq|Hin].
  - inversion Heq; subst. now rewrite String.eqb_refl.
  - inversion Hnd; subst.
    destruct (String.eqb k k') eqn:E.
    + apply String.eqb_eq in E; subst.
      exfalso. apply H1. change k' with (fst (k', v)). now apply in_map.
    + auto.
Qed.

Lemma get_Some_In k v o : get k o = Some v -> In (k, v) o.
Proof.
  induction o as [|[k' v'] o IH]; simpl; [discriminate|].
  destruct (String.eqb k k') eqn:E.
  - apply String.eqb_eq in E. intro H; inversion H; subst. auto.
  - auto.
Qed.
End Obj.
End JsObjFacts.

(** ** Node's [path] on sample inputs *)

Module NodePathSamples.
Import NodePath.

Example normalize_1 : normalize "pages/../utils/./fmt" = "utils/fmt".
Proof. reflexivity. Qed.
Example normalize_2 : normalize "../a//b/" = "../a/b/".
Proof. reflexivity. Qed.
Example join2_1 : join2 "pages" "../utils/fmt" = "utils/fmt".
Proof. reflexivity. Qed.
Example join2_2 : join2 "." "./a" = "a".
Proof. reflexivity. Qed.
Example resolve_1 : resolve "/repo" ["/repo"; "utils/fmt"] = "/repo/utils/fmt".
Proof. reflexivity. Qed.
Example resolve_2 : resolve "/repo" ["/repo"; "/etc/x"] = "/etc/x".
Proof. reflexivity. Qed.
Example dirname_1 : dirname "pages/home.tsx" = "pages".
Proof. reflexivity. Qed.
Example dirname_2 : dirname "App.tsx" = ".".
Proof. reflexivity. Qed.
Example dirname_3 : dirname "/a" = "/".
Proof. reflexivity. Qed.
Example basename_1 : basename "pages/home.tsx" = "home.tsx".
Proof. reflexivity. Qed.
Example extname_1 : extname "/repo/pages/home.tsx" = ".tsx".
Proof. reflexivity. Qed.
Example extname_2 : extname "/repo/.bashrc" = "".
Proof. reflexivity. Qed.
Example extname_3 : extname "/repo/a.b/c" = "".
Proof. reflexivity. Qed.
Example extname_4 : extname "/repo/jquery.min" = ".min".
Proof. reflexivity. Qed.
Example relative_1 :
  relative "/repo" "/repo" "/repo/utils/fmt.ts" = "utils/fmt.ts".
Proof. reflexivity. Qed.
Example relative_2 : relative "/repo/a" "/repo/a" "/repo/b/c.ts" = "../b/c.ts".
Proof. reflexivity. Qed.
Example relative_3 : relative "/repo" "/repo" "/repo" = "".
Proof. reflexivity. Qed.

End NodePathSamples.

(* ------------------------------------------------------------------ *)
(** ** The alias resolver *)

Section AliasFacts.
Import JsString JsStringFacts.

Lemma append_cancel_r (a b s : string) : a +++ s = b +++ s -> a = b.
Proof.
  intro H.
  rewrite <- (dropLast_app a s), <- (dropLast_app b s). now rewrite H.
Qed.

Lemma append_cancel_l (p a b : string) : p +++ a = p +++ b -> a = b.
Proof.
  intro H. rewrite <- (drop_app p a), <- (drop_app p b). now rewrite H.
Qed.

Lemma rewriteWith_applies spec rule prefix suffix targetPrefix others :
  pattern rule = prefix +++ "/*" ->
  spec = prefix +++ "/" +++ suffix ->
  targets rule = JStr (targetPrefix +++ "/*") :: others ->
  prefixMatches spec rule = true
  /\ rewriteWith spec rule
     = Some (if String.eqb targetPrefix "." then suffix
             else targetPrefix +++ "/" +++ suffix).
Proof.
  intros Hp Hs Ht. unfold prefixMatches, rewriteWith. rewrite Hp, Ht.
  change 2 with (String.length "/*"). rewrite !dropLast_app.
  split.
  - apply andb_true_iff; split.
    + apply endsWith_iff. now exists prefix.
    + apply startsWith_iff. exists suffix. subst spec.
      now rewrite append_assoc.
  - replace (String.length prefix + 1) with (String.length (prefix +++ "/"))
      by (rewrite length_append; reflexivity).
    subst spec. rewrite <- append_assoc, drop_app.
    destruct (String.eqb targetPrefix ".") eqn:E.
    + apply String.eqb_eq in E; subst targetPrefix. reflexivity.
    + assert (String.eqb (targetPrefix +++ "/*") "./*" = false) as ->.
      { apply String.eqb_neq. intro H. apply String.eqb_neq in E. apply E.
        now apply (append_cancel_r targetPrefix "." "/*"). }
      assert (endsWith (targetPrefix +++ "/*") "/*" = true) as ->
        by (apply endsWith_iff; now exists targetPrefix).
      reflexivity.
Qed.

Lemma appliesb_iff spec rule : appliesb spec rule = true <-> Applies spec rule.
Proof.
  split.
  - unfold appliesb. intro H. apply andb_true_iff in H as [Hm Hr].
    unfold prefixMatches in Hm. apply andb_true_iff in Hm as [He Hs].
    apply endsWith_dropLast in He. apply startsWith_iff in Hs as [suffix Hs].
    rewrite append_assoc in Hs.
    unfold rewriteWith in Hr.
    destruct (targets rule) as [|[| | |t| |] others] eqn:Ht; try discriminate.
    exists (dropLast 2 (pattern rule)), suffix.
    destruct (String.eqb t "./*") eqn:E.
    + apply String.eqb_eq in E; subst t. exists ".", others. auto.
    + destruct (endsWith t "/*") eqn:E2; [|discriminate].
      apply endsWith_dropLast in E2.
      exists (dropLast (String.length "/*") t), others.
      rewrite <- E2. auto.
  - intros (prefix & suffix & tp & others & Hp & Hs & Ht).
    destruct (rewriteWith_applies _ _ _ _ _ _ Hp Hs Ht) as [Hm Hr].
    unfold appliesb. now rewrite Hm, Hr.
Qed.

Lemma applySimpleAlias_cons spec rule later :
  applySimpleAlias spec (rule :: later)
  = if appliesb spec rule then rewriteWith spec rule
    else applySimpleAlias spec later.
Proof.
  unfold appliesb, prefixMatches, rewriteWith. simpl.
  destruct (endsWith (pattern rule) "/*"); simpl; [|reflexivity].
  destruct (startsWith spec (dropLast 2 (pattern rule) +++ "/")); simpl;
    [|reflexivity].
  destruct (targets rule) as [|[| | |t| |] others]; try reflexivity.
  destruct (String.eqb t "./*"); [reflexivity|].
  destruct (endsWith t "/*"); reflexivity.
Qed.

Lemma applySimpleAlias_None spec rules :
  applySimpleAlias spec rules = None
  <-> Forall (fun r => ~ Applies spec r) rules.
Proof.
  induction rules as [|rule later IH].
  - simpl. split; auto.
  - rewrite applySimpleAlias_cons.
    destruct (appliesb spec rule) eqn:E.
    + split.
      * intro H. unfold appliesb in E. rewrite H in E.
        now rewrite andb_false_r in E.
      * intro H. inversion H; subst. apply appliesb_iff in E. tauto.
    + rewrite IH. split.
      * intro H. constructor; [|assumption].
        rewrite <- appliesb_iff. congruence.
      * intro H. now inversion H.
Qed.

End AliasFacts.

(** C3, as stated, fails: on [@app/ui/x] the first rule whose prefix
    matches is the first one, whose first target rewrites nothing, and yet
    the code answers with the rewrite of the second rule. *)
Lemma applySimpleAlias_not_first_prefix_match :
  find (prefixMatches "@app/ui/x") shadowedRules
    = Some {| pattern := "@app/*"; targets := [JStr "./src/app.ts"] |}
  /\ applyAliasAsDocumented "@app/ui/x" shadowedRules = None
  /\ applySimpleAlias "@app/ui/x" shadowedRules = Some "./src/ui/x"
  /\ applySimpleAlias "@app/ui/x" shadowedRules
     <> applyAliasAsDocumented "@app/ui/x" shadowedRules.
Proof. repeat split; try reflexivity. discriminate. Qed.

(** C3, amended: [applySimpleAlias] answers with the first rule that
    applies, that is, whose pattern is a prefix and a wildcard, whose
    prefix followed by a slash starts the specifier, and whose first
    target is a string ending in a wildcard; rules before it that do not
    apply are passed over.  Only that first target is used: the
    passthrough target gives the captured suffix, any other wildcard
    target gives its prefix, a slash and the captured suffix.  Without
    such a rule there is no rewrite. *)
Theorem applySimpleAlias_first_applicable (spec : string) (rules : list AliasRule) :
  (forall out,
      applySimpleAlias spec rules = Some out <->
      exists before rule after prefix suffix targetPrefix others,
        rules = before ++ rule :: after
        /\ Forall (fun r => ~ Applies spec r) before
        /\ pattern rule = prefix +++ "/*"
        /\ spec = prefix +++ "/" +++ suffix
        /\ targets rule = JStr (targetPrefix +++ "/*") :: others
        /\ out = (if String.eqb targetPrefix "." then suffix
                  else targetPrefix +++ "/" +++ suffix))
  /\ (applySimpleAlias spec rules = None
      <-> Forall (fun r => ~ Applies spec r) rules).
Proof.
  split; [|apply applySimpleAlias_None].
  induction rules as [|rule later IH]; intro out.
  - simpl. split; [discriminate|].
    intros (before & r & after & _ & _ & _ & _ & H & _).
    destruct before; discriminate.
  - rewrite applySimpleAlias_cons.
    destruct (appliesb spec rule) eqn:E.
    + pose proof E as HA. apply appliesb_iff in HA.
      destruct HA as (prefix & suffix & tp & others & Hp & Hs & Ht).
      destruct (rewriteWith_applies _ _ _ _ _ _ Hp Hs Ht) as [_ Hr].
      split.
      * intro H. exists [], rule, later, prefix, suffix, tp, others.
        split; [reflexivity|]. split; [constructor|].
        repeat (split; [assumption|]). congruence.
      * intros (before & r & after & prefix' & suffix' & tp' & others'
                & Hl & Hb & Hp' & Hs' & Ht' & Ho).
        destruct before as [|b before].
        -- simpl in Hl. inversion Hl; subst r after.
           destruct (rewriteWith_applies _ _ _ _ _ _ Hp' Hs' Ht') as [_ Hr'].
           congruence.
        -- simpl in Hl. inversion Hl; subst b later.
           inversion Hb; subst. exfalso. apply H1.
           now apply appliesb_iff.
    + rewrite IH. split.
      * intros (before & r & after & prefix & suffix & tp & others
                & Hl & Hb & Hrest).
        exists (rule :: before), r, after, prefix, suffix, tp, others.
        split; [simpl; congruence|]. split; [|assumption].
        constructor; [|assumption].
        rewrite <- appliesb_iff. congruence.
      * intros (before & r & after & prefix & suffix & tp & others
                & Hl & Hb & Hp & Hs & Ht & Ho).
        destruct before as [|b before].
        -- simpl in Hl. inversion Hl; subst r after.
           assert (appliesb spec rule = true)
             by (apply appliesb_iff; now exists prefix, suffix, tp, others).
           congruence.
        -- simpl in Hl. inversion Hl; subst b later.
           inversion Hb; subst.
           exists before, r, after, prefix, suffix, tp, others.
           repeat split; assumption || reflexivity.
Qed.

(** The rewrite of the design document's example, obtained from the
    theorem. *)
Lemma applySimpleAlias_first_applicable_witness :
  applySimpleAlias "@app/widgets/button"
    [ {| pattern := "@app/*"; targets := [JStr "./src/*"; JStr "./lib/*"] |} ]
  = Some "./src/widgets/button".
Proof.
  apply (proj1 (applySimpleAlias_first_applicable "@app/widgets/button" _)).
  exists [], {| pattern := "@app/*"; targets := [JStr "./src/*"; JStr "./lib/*"] |},
    [], "@app", "widgets/button", "./src", [JStr "./lib/*"].
  split; [reflexivity|]. split; [constructor|]. repeat split.
Defined.

(* ------------------------------------------------------------------ *)
(** ** The alias configuration *)

Lemma readTsconfigPaths_empty (w : World) (root : string) :
  NoPathTable w root -> readTsconfigPaths w root = Returned [].
Proof.
  unfold readTsconfigPaths, readTsconfigPathsBody, NoPathTable, pathTable.
  set (p := NodePath.join2 root "tsconfig.json").
  intros [H|[H|[H|(text & H & Hp)]]]; rewrite H; simpl; try reflexivity.
  destruct (JsString.truthy text); simpl; [|reflexivity].
  destruct Hp as [Hp|(config & Hp & Hm)]; rewrite Hp; simpl; [reflexivity|].
  destruct (Json.member "paths" (Json.member "compilerOptions" config))
    as [[| | | | |]|]; simpl; try reflexivity; discriminate.
Qed.

Lemma readTsconfigPaths_table (w : World) (root text : string)
  (config : option json) (table : list (string * json)) :
  tsSysReadFile w (NodePath.join2 root "tsconfig.json") = Returned (Some text) ->
  text <> "" ->
  tsParseConfigFileTextToJson w (NodePath.join2 root "tsconfig.json") text
  = Returned config ->
  pathTable config = Some table ->
  readTsconfigPaths w root = Returned (tableRules table).
Proof.
  unfold readTsconfigPaths, readTsconfigPathsBody, pathTable, tableRules.
  set (p := NodePath.join2 root "tsconfig.json").
  intros Hread Htext Hparse Htable. rewrite Hread. simpl.
  assert (Ht : JsString.truthy text = true).
  { unfold JsString.truthy. destruct (String.eqb_spec text ""); [contradiction|reflexivity]. }
  rewrite Ht, Hparse. simpl.
  destruct (Json.member "paths" (Json.member "compilerOptions" config))
    as [[| | | | |]|]; simpl; try discriminate;
    now inversion Htable.
Qed.

Lemma table_or_none (w : World) (root : string) :
  NoPathTable w root
  \/ exists text config table,
       tsSysReadFile w (NodePath.join2 root "tsconfig.json") = Returned (Some text)
       /\ text <> ""
       /\ tsParseConfigFileTextToJson w (NodePath.join2 root "tsconfig.json") text
          = Returned config
       /\ pathTable config = Some table.
Proof.
  unfold NoPathTable.
  set (p := NodePath.join2 root "tsconfig.json").
  destruct (tsSysReadFile w p) as [[text|]|] eqn:Hread; [|left; right; left; reflexivity|left; left; reflexivity].
  destruct (String.eqb_spec text "") as [->|Hne]; [left; right; right; left; reflexivity|].
  destruct (tsParseConfigFileTextToJson w p text) as [config|] eqn:Hparse.
  - destruct (pathTable config) as [table|] eqn:Htable.
    + right. exists text, config, table. repeat split; assumption.
    + left. right. right. right. exists text. split; [reflexivity|].
      right. exists config. split; assumption.
  - left. right. right. right. exists text. split; [reflexivity|]. now left.
Qed.

(** C9, as stated, fails: the sample file breaks off with two braces
    still open, the parser delivers what it has read of it, and the rule
    set holds the two rules of the file. *)
Lemma malformed_config_yields_rules :
  unclosedBrackets truncatedConfig = 2
  /\ tsSysReadFile recoveringWorld "/repo/tsconfig.json"
     = Returned (Some truncatedConfig)
  /\ readTsconfigPaths recoveringWorld "/repo"
     = Returned [ {| pattern := "@app/*"; targets := [JStr "./src/*"] |};
                  {| pattern := "@lib/*"; targets := [JStr "./lib/*"] |} ]
  /\ readTsconfigPaths recoveringWorld "/repo" <> Returned [].
Proof. repeat split; try reflexivity. discriminate. Qed.

(** C9, amended: loading the alias configuration never throws, and the
    run goes on with the rules it returns.  The rule set is empty when no
    table of paths is to be had: the file cannot be read or is empty, the
    parser throws, or what it delivers holds no object under
    [compilerOptions.paths].  In every other case the rules are those of
    the table that the parser delivers, whether or not the text of the
    file is well formed: the parser's report of errors is not read. *)
Theorem readTsconfigPaths_never_throws (w : World) (projectRootAbs : string) :
  (exists rules, readTsconfigPaths w projectRootAbs = Returned rules)
  /\ (NoPathTable w projectRootAbs ->
      readTsconfigPaths w projectRootAbs = Returned [])
  /\ (forall text config table,
        tsSysReadFile w (NodePath.join2 projectRootAbs "tsconfig.json")
        = Returned (Some text) ->
        text <> "" ->
        tsParseConfigFileTextToJson w
          (NodePath.join2 projectRootAbs "tsconfig.json") text
        = Returned config ->
        pathTable config = Some table ->
        readTsconfigPaths w projectRootAbs = Returned (tableRules table))
  /\ (NoPathTable w projectRootAbs
      \/ exists text config table,
           tsSysReadFile w (NodePath.join2 projectRootAbs "tsconfig.json")
           = Returned (Some text)
           /\ text <> ""
           /\ tsParseConfigFileTextToJson w
                (NodePath.join2 projectRootAbs "tsconfig.json") text
              = Returned config
           /\ pathTable config = Some table)
  /\ (forall previousIndex now, exists rules,
        readTsconfigPaths w (cwd w) = Returned rules
        /\ generateIndex w previousIndex now
           = indexWith w rules previousIndex now)
  /\ (NoPathTable w (cwd w) ->
      forall previousIndex now,
        generateIndex w previousIndex now = indexWith w [] previousIndex now).
Proof.
  assert (Hret : forall root, exists rules,
                   readTsconfigPaths w root = Returned rules).
  { intro root.
    destruct (table_or_none w root) as [H|(text & config & table & H1 & H2 & H3 & H4)].
    - exists []. now apply readTsconfigPaths_empty.
    - exists (tableRules table). now apply (readTsconfigPaths_table w root text config). }
  split; [apply Hret|].
  split; [apply readTsconfigPaths_empty|].
  split; [intros text config table; apply readTsconfigPaths_table|].
  split; [apply table_or_none|].
  split.
  - intros previousIndex now. destruct (Hret (cwd w)) as [rules Hrules].
    exists rules. split; [exact Hrules|].
    unfold generateIndex. now rewrite Hrules.
  - intros H previousIndex now. unfold generateIndex.
    now rewrite (readTsconfigPaths_empty _ _ H).
Qed.

(** In the sample repository there is no configuration file: the rule
    set is empty and the run goes on with it. *)
Lemma readTsconfigPaths_never_throws_witness :
  readTsconfigPaths sampleWorld "/repo" = Returned []
  /\ generateIndex sampleWorld None "2026-01-01T00:00:00.000Z"
     = indexWith sampleWorld [] None "2026-01-01T00:00:00.000Z".
Proof.
  assert (H : NoPathTable sampleWorld "/repo") by (right; left; reflexivity).
  pose proof (readTsconfigPaths_never_throws sampleWorld "/repo")
    as (_ & Hempty & _ & _ & _ & Hrun).
  split.
  - exact (Hempty H).
  - exact (Hrun H None "2026-01-01T00:00:00.000Z").
Defined.

(* ------------------------------------------------------------------ *)
(** ** Package identities *)

Lemma externalPackageName_segments (spec : string) :
  externalPackageName spec
  = JsString.join "/"
      (firstn (if JsString.startsWith spec "@" then 2 else 1)
         (JsString.split NodePath.slash spec)).
Proof.
  unfold externalPackageName.
  pose proof (JsStringFacts.join_split NodePath.slash spec) as Hj.
  pose proof (JsStringFacts.split_nonempty NodePath.slash spec) as Hne.
  destruct (JsString.split NodePath.slash spec) as [|p0 [|p1 rest]];
    [congruence| |].
  - simpl in Hj. subst p0. now destruct (JsString.startsWith spec "@").
  - destruct (JsString.startsWith spec "@"); reflexivity.
Qed.

(** C7: the package identity recorded for a specifier classified
    EXTERNAL is, for a scoped specifier (one that starts with an at sign),
    its first two slash-separated segments, and for any other specifier
    its first segment. *)
Theorem external_identity_reduced (w : World)
  (projectRootAbs relPath spec : string) (aliasPaths : list AliasRule)
  (package : string) :
  classify w projectRootAbs relPath spec aliasPaths = EXTERNAL package ->
  package
  = JsString.join "/"
      (firstn (if JsString.startsWith spec "@" then 2 else 1)
         (JsString.split NodePath.slash spec)).
Proof.
  unfold classify. intro H.
  rewrite <- externalPackageName_segments.
  destruct (resolveLocalImport w projectRootAbs relPath spec aliasPaths) as [r|].
  - destruct (JsString.truthy r); [discriminate|].
    destruct (looksLocal spec aliasPaths); [discriminate|]. congruence.
  - destruct (looksLocal spec aliasPaths); [discriminate|]. congruence.
Qed.

(** The two examples of the design document, in the sample
    repository. *)
Lemma external_identity_reduced_witness :
  (classify sampleWorld "/repo" "pages/home.tsx" "@scope/pkg/sub/path" []
   = EXTERNAL "@scope/pkg"
   /\ "@scope/pkg"
      = JsString.join "/"
          (firstn 2 (JsString.split NodePath.slash "@scope/pkg/sub/path")))
  /\ (classify sampleWorld "/repo" "pages/home.tsx" "lodash/debounce" []
      = EXTERNAL "lodash"
      /\ "lodash"
         = JsString.join "/"
             (firstn 1 (JsString.split NodePath.slash "lodash/debounce"))).
Proof.
  split; (split; [reflexivity|]).
  - exact (external_identity_reduced sampleWorld "/repo" "pages/home.tsx"
             "@scope/pkg/sub/path" [] "@scope/pkg" eq_refl).
  - exact (external_identity_reduced sampleWorld "/repo" "pages/home.tsx"
             "lodash/debounce" [] "lodash" eq_refl).
Defined.

(* ------------------------------------------------------------------ *)
(** ** The two feature classifications *)

(** C10, as stated, fails: the two functions differ on [App.tsx]. *)
Lemma featureFromPath_differ_on_App :
  Describe.featureFromPath "App.tsx" <> featureFromPath "App.tsx".
Proof. discriminate. Qed.

(** On the three entry file names the index generator answers
    [app/entry]; the description pass answers [app/shell] for two of them
    and [module] for the third. *)
Lemma featureFromPath_entry_names :
  map featureFromPath ["App.tsx"; "AppShell.tsx"; "index.tsx"]
    = ["app/entry"; "app/entry"; "app/entry"]
  /\ map Describe.featureFromPath ["App.tsx"; "AppShell.tsx"; "index.tsx"]
     = ["app/shell"; "app/shell"; "module"].
Proof. split; reflexivity. Qed.

(** C10, amended: on every path that the index generator does not
    classify as [app/entry], the description pass returns the same
    classification as the index generator; on [App.tsx] and [AppShell.tsx]
    the description pass answers [app/shell] where the index generator
    answers [app/entry]. *)
Theorem featureFromPath_agree_off_entry :
  (forall filePath : string,
      featureFromPath filePath <> "app/entry" ->
      Describe.featureFromPath filePath = featureFromPath filePath)
  /\ (forall filePath : string,
         filePath = "App.tsx" \/ filePath = "AppShell.tsx" ->
         featureFromPath filePath = "app/entry"
         /\ Describe.featureFromPath filePath = "app/shell").
Proof.
  split.
  - intro filePath. unfold featureFromPath, Describe.featureFromPath.
    set (p := JsString.replaceAllChar "\"%char "/"%char filePath).
    destruct (JsString.startsWith p "pages/"); [reflexivity|].
    destruct (JsString.startsWith p "components/"); [reflexivity|].
    destruct (JsString.startsWith p "utils/"); [reflexivity|].
    destruct (JsString.startsWith p "worker/"); [reflexivity|].
    destruct (String.eqb p "App.tsx"); simpl; [congruence|].
    destruct (String.eqb p "AppShell.tsx"); simpl; [congruence|].
    destruct (String.eqb p "index.tsx"); simpl; [congruence|reflexivity].
  - intros filePath [->| ->]; split; reflexivity.
Qed.

Lemma featureFromPath_agree_off_entry_witness :
  Describe.featureFromPath "pages/home.tsx" = featureFromPath "pages/home.tsx"
  /\ Describe.featureFromPath "AppShell.tsx" = "app/shell".
Proof.
  split.
  - apply (proj1 featureFromPath_agree_off_entry "pages/home.tsx"). discriminate.
  - apply (proj2 featureFromPath_agree_off_entry "AppShell.tsx"). now right.
Defined.

(* ------------------------------------------------------------------ *)
(** ** Sorting and sets of strings *)

Module JsArrayFacts.
Import JsArray.

Lemma ascii_compare_lt_trans (a b c : ascii) :
  Ascii.compare a b = Lt -> Ascii.compare b c = Lt -> Ascii.compare a c = Lt.
Proof.
  unfold Ascii.compare. rewrite !N.compare_lt_iff. apply N.lt_trans.
Qed.

Lemma string_compare_lt_trans (s1 s2 s3 : string) :
  String.compare s1 s2 = Lt -> String.compare s2 s3 = Lt ->
  String.compare s1 s3 = Lt.
Proof.
  revert s2 s3; induction s1 as [|a s1 IH]; intros [|b s2] [|c s3];
    simpl; try discriminate; auto.
  destruct (Ascii.compare a b) eqn:Eab; try discriminate;
    destruct (Ascii.compare b c) eqn:Ebc; try discriminate; intros H1 H2.
  - apply Ascii.compare_eq_iff in Eab, Ebc. subst.
    assert (Ascii.compare c c = Eq) as ->
      by (unfold Ascii.compare; apply N.compare_refl).
    eauto.
  - apply Ascii.compare_eq_iff in Eab. subst. now rewrite Ebc.
  - apply Ascii.compare_eq_iff in Ebc. subst. now rewrite Eab.
  - now rewrite (ascii_compare_lt_trans _ _ _ Eab Ebc).
Qed.

Lemma string_compare_refl (s : string) : String.compare s s = Eq.
Proof.
  induction s as [|a s IH]; simpl; [reflexivity|].
  assert (Ascii.compare a a = Eq) as ->
    by (unfold Ascii.compare; apply N.compare_refl).
  exact IH.
Qed.

Lemma leb_trans (s1 s2 s3 : string) :
  String.leb s1 s2 = true -> String.leb s2 s3 = true -> String.leb s1 s3 = true.
Proof.
  unfold String.leb.
  destruct (String.compare s1 s2) eqn:E12; try discriminate;
    destruct (String.compare s2 s3) eqn:E23; try discriminate; intros _ _.
  - apply String.compare_eq_iff in E12, E23. subst.
    now rewrite string_compare_refl.
  - apply String.compare_eq_iff in E12. subst. now rewrite E23.
  - apply String.compare_eq_iff in E23. subst. now rewrite E12.
  - now rewrite (string_compare_lt_trans _ _ _ E12 E23).
Qed.

Lemma insertSorted_perm (x : string) (l : list string) :
  Permutation (insertSorted x l) (x :: l).
Proof.
  induction l as [|y l IH]; simpl; [constructor; constructor|].
  destruct (String.leb x y); [reflexivity|].
  rewrite IH. apply perm_swap.
Qed.

Lemma sort_perm (l : list string) : Permutation (sort l) l.
Proof.
  induction l as [|x l IH]; simpl; [constructor|].
  rewrite insertSorted_perm. now constructor.
Qed.

Lemma sort_In (x : string) (l : list string) : In x (sort l) <-> In x l.
Proof.
  split; apply Permutation_in; [|symmetry]; apply sort_perm.
Qed.

Lemma sort_length (l : list string) : List.length (sort l) = List.length l.
Proof. apply Permutation_length, sort_perm. Qed.

Lemma insertSorted_ascending (x : string) (l : list string) :
  ascending l -> ascending (insertSorted x l).
Proof.
  unfold ascending. induction l as [|y l IH]; simpl; intro H.
  - repeat constructor.
  - inversion H as [|? ? Hl Hy]; subst.
    destruct (String.leb x y) eqn:E.
    + constructor; [assumption|]. constructor; [assumption|].
      eapply Forall_impl; [|exact Hy]. intros z Hz. eapply leb_trans; eauto.
    + constructor; [auto|].
      eapply Permutation_Forall; [symmetry; apply insertSorted_perm|].
      constructor; [|assumption].
      destruct (String.leb_total x y) as [H0|H0]; congruence.
Qed.

Lemma sort_ascending (l : list string) : ascending (sort l).
Proof.
  induction l as [|x l IH]; simpl; [constructor|].
  now apply insertSorted_ascending.
Qed.

Lemma mem_In (x : string) (l : list string) : mem x l = true <-> In x l.
Proof.
  unfold mem. rewrite existsb_exists. split.
  - intros (y & Hy & E). apply String.eqb_eq in E. now subst.
  - intro H. exists x. split; [assumption|apply String.eqb_refl].
Qed.

Lemma setAdd_In (x y : string) (s : list string) :
  In y (setAdd x s) <-> y = x \/ In y s.
Proof.
  unfold setAdd. destruct (mem x s) eqn:E.
  - apply mem_In in E. split; [tauto|]. intros [->|]; auto.
  - rewrite in_app_iff. simpl. intuition.
Qed.

Lemma setAdd_NoDup (x : string) (s : list string) : NoDup s -> NoDup (setAdd x s).
Proof.
  unfold setAdd. intro H. destruct (mem x s) eqn:E; [assumption|].
  assert (~ In x s) by (rewrite <- mem_In; congruence).
  apply NoDup_rev in H. rewrite <- (rev_involutive (s ++ [x])).
  apply NoDup_rev. rewrite rev_app_distr. simpl. constructor; auto.
  now rewrite <- in_rev.
Qed.

Lemma setAdd_length (x : string) (s : list string) :
  List.length (setAdd x s) <= S (List.length s).
Proof.
  unfold setAdd. destruct (mem x s); [lia|]. rewrite length_app. simpl. lia.
Qed.

(** Adding to a set extends it at the end. *)
Lemma setAdd_extends (x : string) (s : list string) :
  exists t, setAdd x s = s ++ t.
Proof.
  unfold setAdd. destruct (mem x s); [exists []|exists [x]]; auto.
  now rewrite app_nil_r.
Qed.

Lemma addAll_extends (l s : list string) :
  exists t, fold_left (fun s x => setAdd x s) l s = s ++ t.
Proof.
  revert s; induction l as [|x l IH]; intro s; simpl.
  - exists []. now rewrite app_nil_r.
  - destruct (IH (setAdd x s)) as [t Ht]. destruct (setAdd_extends x s) as [u Hu].
    exists (u ++ t). rewrite Ht, Hu. now rewrite app_assoc.
Qed.

Lemma addAll_NoDup (l s : list string) :
  NoDup s -> NoDup (fold_left (fun s x => setAdd x s) l s).
Proof.
  revert s; induction l as [|x l IH]; intros s H; simpl; [assumption|].
  apply IH. now apply setAdd_NoDup.
Qed.

Lemma addAll_In (y : string) (l s : list string) :
  In y (fold_left (fun s x => setAdd x s) l s) <-> In y l \/ In y s.
Proof.
  revert s; induction l as [|x l IH]; intro s; simpl; [tauto|].
  rewrite IH, setAdd_In. intuition.
Qed.

Lemma setOfList_NoDup (l : list string) : NoDup (setOfList l).
Proof. apply addAll_NoDup. constructor. Qed.

Lemma setOfList_In (y : string) (l : list string) :
  In y (setOfList l) <-> In y l.
Proof. unfold setOfList. rewrite addAll_In. simpl. tauto. Qed.

End JsArrayFacts.

(* ------------------------------------------------------------------ *)
(** ** The extraction caps *)

Lemma collectCapped_firstn (cap : nat) (keep : string -> bool)
  (matches found : list string) :
  List.length found < cap ->
  collectCapped cap keep matches found
  = firstn cap (fold_left (fun s x => JsArray.setAdd x s) (kept keep matches) found).
Proof.
  revert found; induction matches as [|v later IH]; intros found Hlt; simpl.
  - rewrite firstn_all2; [reflexivity|lia].
  - destruct (JsString.truthy v); simpl; [|now apply IH].
    destruct (keep v); simpl.
    + destruct (cap <=? List.length (JsArray.setAdd v found)) eqn:E.
      * apply Nat.leb_le in E.
        pose proof (JsArrayFacts.setAdd_length v found) as Hl.
        destruct (JsArrayFacts.addAll_extends (kept keep later)
                    (JsArray.setAdd v found)) as [t ->].
        replace cap with (List.length (JsArray.setAdd v found) + 0) by lia.
        rewrite firstn_app_2. simpl. now rewrite app_nil_r.
      * apply Nat.leb_gt in E. now apply IH.
    + destruct (cap <=? List.length found) eqn:E.
      * apply Nat.leb_le in E. lia.
      * now apply IH.
Qed.

(** An extraction loop returns the first [cap] distinct kept groups, in
    the order of their first occurrence. *)
Lemma collectCapped_first_distinct (cap : nat) (keep : string -> bool)
  (matches : list string) :
  0 < cap ->
  collectCapped cap keep matches []
  = firstn cap (JsArray.setOfList (kept keep matches)).
Proof. intro H. now apply collectCapped_firstn. Qed.

(* ------------------------------------------------------------------ *)
(** ** Resolved paths *)

Module NodePathFacts.
Import JsString JsStringFacts NodePath.

Lemma split_app (sep : ascii) (a b : string) :
  split sep (a +++ String sep b) = split sep a ++ split sep b.
Proof.
  induction a as [|c a IH]; simpl.
  - now rewrite Ascii.eqb_refl.
  - destruct (Ascii.eqb c sep); [now rewrite IH|].
    rewrite IH. pose proof (split_nonempty sep a) as Hne.
    destruct (split sep a); [congruence|reflexivity].
Qed.

Lemma split_sep (sep : ascii) (s : string) :
  split sep (String sep s) = "" :: split sep s.
Proof. simpl. now rewrite Ascii.eqb_refl. Qed.

Lemma split_slashfree (sep : ascii) (s : string) :
  hasChar sep s = false -> split sep s = [s].
Proof.
  induction s as [|c s IH]; simpl; [reflexivity|].
  rewrite Ascii.eqb_sym. destruct (Ascii.eqb sep c); simpl; [discriminate|].
  intro H. now rewrite IH.
Qed.

Lemma cleanSegment_slashfree (s : string) :
  cleanSegment s = true -> hasChar slash s = false.
Proof.
  unfold cleanSegment. intro H. apply andb_true_iff in H as [_ H].
  now apply negb_true_iff in H.
Qed.

Lemma split_join (segs : list string) :
  Forall (fun s => cleanSegment s = true) segs -> segs <> [] ->
  split slash (join "/" segs) = segs.
Proof.
  unfold join. induction segs as [|x [|y l] IH]; intros Hc Hne.
  - congruence.
  - inversion Hc; subst. simpl. apply split_slashfree.
    now apply cleanSegment_slashfree.
  - inversion Hc; subst.
    change (String.concat "/" (x :: y :: l))
      with (x +++ String slash (String.concat "/" (y :: l))).
    rewrite split_app, IH by (assumption || discriminate).
    rewrite split_slashfree by now apply cleanSegment_slashfree.
    reflexivity.
Qed.

Lemma join_snoc (segs : list string) (x : string) :
  segs <> [] -> join "/" (segs ++ [x]) = join "/" segs +++ "/" +++ x.
Proof.
  unfold join. induction segs as [|a [|b l] IH]; intro Hne.
  - congruence.
  - reflexivity.
  - change (String.concat "/" ((a :: b :: l) ++ [x]))
      with (a +++ "/" +++ String.concat "/" ((b :: l) ++ [x])).
    rewrite IH by discriminate.
    change (String.concat "/" (a :: b :: l))
      with (a +++ "/" +++ String.concat "/" (b :: l)).
    now rewrite !append_assoc.
Qed.

Lemma normalizeAcc_clean (segs res : list string) :
  Forall (fun s => cleanSegment s = true) segs ->
  normalizeAcc false res segs = rev res ++ segs.
Proof.
  revert res; induction segs as [|seg rest IH]; intros res Hc; simpl.
  - now rewrite app_nil_r.
  - inversion Hc as [|? ? Hseg Hrest]; subst.
    unfold cleanSegment in Hseg.
    apply andb_true_iff in Hseg as [Hseg _].
    apply andb_true_iff in Hseg as [Hseg H2].
    apply andb_true_iff in Hseg as [H0 H1].
    apply negb_true_iff in H0, H1, H2. rewrite H0, H1, H2. simpl.
    rewrite IH by assumption. simpl. now rewrite <- app_assoc.
Qed.

Lemma normalizeAcc_output_clean (segs res : list string) :
  Forall (fun s => hasChar slash s = false) segs ->
  Forall (fun s => cleanSegment s = true) res ->
  Forall (fun s => cleanSegment s = true) (normalizeAcc false res segs).
Proof.
  revert res; induction segs as [|seg rest IH]; intros res Hs Hr; simpl.
  - now apply Forall_rev.
  - inversion Hs; subst.
    destruct (String.eqb seg "") eqn:E0; simpl; [auto|].
    destruct (String.eqb seg ".") eqn:E1; simpl; [auto|].
    destruct (String.eqb seg "..") eqn:E2.
    + destruct res as [|last res']; [auto|].
      inversion Hr; subst.
      destruct (String.eqb last ".."); auto.
    + apply IH; [assumption|]. constructor; [|assumption].
      unfold cleanSegment. now rewrite E0, E1, E2, H1.
Qed.

Lemma resolveScan_absolute (cwd : string) (l : list string) (acc : string) :
  startsWith cwd "/" = true -> snd (resolveScan (l ++ [cwd]) acc) = true.
Proof.
  intro H. revert acc; induction l as [|p l IH]; intro acc; simpl.
  - rewrite H. destruct (String.eqb cwd "") eqn:E; [|reflexivity].
    apply String.eqb_eq in E. subst. discriminate.
  - destruct (String.eqb p ""); [apply IH|].
    destruct (startsWith p "/"); [reflexivity|apply IH].
Qed.

(** In a process whose working directory is absolute, a resolved path
    is a slash followed by clean segments joined by slashes. *)
Lemma resolve_form (cwd : string) (args : list string) :
  startsWith cwd "/" = true ->
  exists segs,
    Forall (fun s => cleanSegment s = true) segs
    /\ resolve cwd args = "/" +++ join "/" segs.
Proof.
  intro H. unfold resolve.
  pose proof (resolveScan_absolute cwd (rev args) "" H) as Ha.
  destruct (resolveScan (rev args ++ [cwd]) "") as [rp abs].
  simpl in Ha; subst abs. simpl. unfold normalizeString.
  eexists. split; [|reflexivity].
  apply normalizeAcc_output_clean; [|constructor].
  apply Forall_forall. intros s Hs. now apply split_no_sep in Hs.
Qed.

Lemma join_clean_nonempty (segs : list string) :
  Forall (fun s => cleanSegment s = true) segs -> segs <> [] ->
  join "/" segs <> "".
Proof.
  unfold join. intros Hc Hne. destruct segs as [|x l]; [congruence|].
  inversion Hc; subst. destruct x; [discriminate|].
  destruct l; discriminate.
Qed.

(** Joining a clean name to a resolved path. *)
Lemma join2_resolved (segs : list string) (name : string) :
  Forall (fun s => cleanSegment s = true) segs ->
  cleanSegment name = true ->
  join2 ("/" +++ join "/" segs) name
  = (if String.eqb ("/" +++ join "/" segs) "/" then "" else "/" +++ join "/" segs)
    +++ "/" +++ name.
Proof.
  intros Hc Hn.
  assert (Hname : name <> "") by (intro; subst; discriminate).
  assert (Hsplit :
    split slash (("/" +++ join "/" segs) +++ "/" +++ name)
    = "" :: (match segs with [] => [""] | _ => segs end) ++ [name]).
  { change (("/" +++ join "/" segs) +++ "/" +++ name)
      with (String slash (join "/" segs +++ String slash name)).
    rewrite split_sep. f_equal.
    rewrite split_app.
    rewrite (split_slashfree slash name) by now apply cleanSegment_slashfree.
    f_equal. destruct segs; [reflexivity|].
    apply split_join; [assumption|discriminate]. }
  unfold join2.
  change (String.eqb ("/" +++ join "/" segs) "") with false. cbv iota.
  destruct (String.eqb name "") eqn:En;
    [apply String.eqb_eq in En; congruence|].
  set (joined := ("/" +++ join "/" segs) +++ "/" +++ name) in *.
  assert (Hj : String.eqb joined "" = false) by reflexivity.
  rewrite Hj. unfold normalize. rewrite Hj.
  assert (Habs : startsWith joined "/" = true).
  { apply startsWith_iff. eexists. unfold joined.
    rewrite append_assoc. reflexivity. }
  rewrite Habs. simpl negb.
  assert (Htrail : endsWith joined "/" = false).
  { destruct (endsWith joined "/") eqn:E; [|reflexivity].
    apply endsWith_iff in E as [p Hp].
    rewrite Hp in Hsplit.
    change (p +++ "/") with (p +++ String slash "") in Hsplit.
    rewrite split_app in Hsplit. simpl (split slash "") in Hsplit.
    rewrite app_comm_cons in Hsplit.
    apply app_inj_tail in Hsplit as [_ Hsplit]. congruence. }
  rewrite Htrail. unfold normalizeString. rewrite Hsplit.
  assert (Hnorm :
    normalizeAcc false []
      ("" :: (match segs with [] => [""] | _ => segs end) ++ [name])
    = segs ++ [name]).
  { simpl. destruct segs as [|x l].
    - change (normalizeAcc false [] ([""] ++ [name]))
        with (normalizeAcc false [] [name]).
      rewrite normalizeAcc_clean by (constructor; [assumption|constructor]).
      reflexivity.
    - rewrite normalizeAcc_clean; [reflexivity|].
      apply Forall_app; split; [assumption|]. constructor; [assumption|constructor]. }
  rewrite Hnorm.
  destruct segs as [|x l].
  - simpl. destruct name; [congruence|]. reflexivity.
  - rewrite join_snoc by discriminate.
    assert (Hne : join "/" (x :: l) <> "")
      by (apply join_clean_nonempty; [assumption|discriminate]).
    destruct (join "/" (x :: l)) as [|c J] eqn:EJ; [congruence|].
    reflexivity.
Qed.

End NodePathFacts.

(* ------------------------------------------------------------------ *)
(** ** The import resolver *)

Section ResolverFacts.
Import JsString JsStringFacts NodePathFacts.

Lemma tryPaths_as_documented (cwd : string) (args : list string) :
  startsWith cwd "/" = true ->
  tryPaths (NodePath.resolve cwd args)
  = probesAsDocumented (NodePath.resolve cwd args).
Proof.
  intro H. destruct (resolve_form cwd args H) as (segs & Hc & ->).
  unfold tryPaths, probesAsDocumented, truthy.
  destruct (String.eqb (NodePath.extname ("/" +++ join "/" segs)) "");
    [|reflexivity].
  simpl negb. cbv iota. f_equal.
  apply map_ext_in. intros ext Hin.
  rewrite join2_resolved; [reflexivity|assumption|].
  simpl in Hin.
  repeat (destruct Hin as [<-|Hin]; [reflexivity|]). destruct Hin.
Qed.

Lemma firstExisting_found (w : World) (paths before after : list string)
  (p : string) :
  paths = before ++ p :: after ->
  Forall (fun q => pathExists w q = false) before ->
  pathExists w p = true ->
  firstExisting w paths = Some p.
Proof.
  intros -> Hb Hp. induction before as [|q before IH]; simpl.
  - now rewrite Hp.
  - inversion Hb; subst. rewrite H1. auto.
Qed.

Lemma firstExisting_none (w : World) (paths : list string) :
  Forall (fun q => pathExists w q = false) paths ->
  firstExisting w paths = None.
Proof.
  induction 1 as [|q paths Hq _ IH]; simpl; [reflexivity|].
  now rewrite Hq.
Qed.

Lemma candidate_looksLocal (importerRel spec rel : string)
  (aliasPaths : list AliasRule) :
  candidateRel importerRel spec aliasPaths = Some rel ->
  looksLocal spec aliasPaths = true.
Proof.
  unfold candidateRel, looksLocal.
  destruct (startsWith spec "./" || startsWith spec "../"); [reflexivity|].
  destruct (startsWith spec "/"); [reflexivity|]. simpl.
  destruct (truthyOpt (applySimpleAlias spec aliasPaths)); [reflexivity|].
  discriminate.
Qed.

End ResolverFacts.

(** C2: for a specifier that has a LOCAL candidate, the resolver probes
    the candidate as it is when it has an extension; otherwise it probes,
    in the order of the list of recognized extensions, the candidate with
    each extension appended, then the candidate followed by [/index] with
    each extension appended.  It returns (relative to the root) the first
    probed path that exists.  When none exists it returns nothing and the
    specifier is classified LOCAL_UNRESOLVED; a specifier with a candidate
    is never classified EXTERNAL. *)
Theorem resolution_cascade (w : World)
  (projectRootAbs importerRel spec : string) (aliasPaths : list AliasRule)
  (rel : string) :
  JsString.startsWith (cwd w) "/" = true ->
  candidateRel importerRel spec aliasPaths = Some rel ->
  JsString.truthy rel = true ->
  let candidateAbs := NodePath.resolve (cwd w) [projectRootAbs; rel] in
  let probes := probesAsDocumented candidateAbs in
  tryPaths candidateAbs = probes
  /\ (forall before p after,
         probes = before ++ p :: after ->
         Forall (fun q => pathExists w q = false) before ->
         pathExists w p = true ->
         resolveLocalImport w projectRootAbs importerRel spec aliasPaths
         = Some (toPosixPath (NodePath.relative (cwd w) projectRootAbs p)))
  /\ (Forall (fun q => pathExists w q = false) probes ->
      resolveLocalImport w projectRootAbs importerRel spec aliasPaths = None
      /\ classify w projectRootAbs importerRel spec aliasPaths
         = LOCAL_UNRESOLVED spec)
  /\ (forall package,
         classify w projectRootAbs importerRel spec aliasPaths
         <> EXTERNAL package).
Proof.
  intros Hcwd Hcand Htruthy candidateAbs probes.
  assert (Hprobes : tryPaths candidateAbs = probes)
    by (apply tryPaths_as_documented; assumption).
  assert (Hres :
    resolveLocalImport w projectRootAbs importerRel spec aliasPaths
    = match firstExisting w probes with
      | Some absPath =>
          Some (toPosixPath (NodePath.relative (cwd w) projectRootAbs absPath))
      | None => None
      end).
  { unfold resolveLocalImport. rewrite Hcand, Htruthy. simpl negb. cbv iota.
    fold candidateAbs. now rewrite Hprobes. }
  pose proof (candidate_looksLocal _ _ _ _ Hcand) as Hlocal.
  split; [exact Hprobes|]. split; [|split].
  - intros before p after Hsplit Hb Hp.
    rewrite Hres, (firstExisting_found w _ _ _ _ Hsplit Hb Hp). reflexivity.
  - intro Hnone. rewrite Hres, (firstExisting_none w _ Hnone).
    split; [reflexivity|].
    unfold classify. rewrite Hres, (firstExisting_none w _ Hnone).
    now rewrite Hlocal.
  - intros package. unfold classify.
    destruct (resolveLocalImport w projectRootAbs importerRel spec aliasPaths)
      as [r|].
    + destruct (JsString.truthy r); [discriminate|].
      rewrite Hlocal. discriminate.
    + rewrite Hlocal. discriminate.
Qed.

(** In the sample repository [../utils/fmt], imported from
    [pages/home.tsx], has the candidate [utils/fmt], which resolves to
    [utils/fmt.ts], the first probe. *)
Lemma resolution_cascade_witness :
  tryPaths "/repo/utils/fmt"
  = ["/repo/utils/fmt.ts"; "/repo/utils/fmt.tsx"; "/repo/utils/fmt.js";
     "/repo/utils/fmt.jsx"; "/repo/utils/fmt.mjs"; "/repo/utils/fmt.cjs";
     "/repo/utils/fmt.json"; "/repo/utils/fmt.css";
     "/repo/utils/fmt/index.ts"; "/repo/utils/fmt/index.tsx";
     "/repo/utils/fmt/index.js"; "/repo/utils/fmt/index.jsx";
     "/repo/utils/fmt/index.mjs"; "/repo/utils/fmt/index.cjs";
     "/repo/utils/fmt/index.json"; "/repo/utils/fmt/index.css"]
  /\ resolveLocalImport sampleWorld "/repo" "pages/home.tsx" "../utils/fmt" []
     = Some "utils/fmt.ts".
Proof.
  pose proof (resolution_cascade sampleWorld "/repo" "pages/home.tsx"
                "../utils/fmt" [] "utils/fmt"
                eq_refl eq_refl eq_refl) as (Hprobes & Hfound & _).
  split; [exact Hprobes|].
  exact (Hfound [] "/repo/utils/fmt.ts" _ eq_refl (Forall_nil _) eq_refl).
Defined.

(* ------------------------------------------------------------------ *)
(** ** The graph builder *)

Section GraphFacts.
Import JsObj JsObjFacts.

Variable w : World.
Variable projectRootAbs : string.
Variable aliasPaths : list AliasRule.
Variable nextFiles : JsObj.t FileEntry.t.

Lemma get_pushReverse (relPath to Q : string) (rd : JsObj.t (list string)) :
  get Q (pushReverse relPath rd to)
  = if String.eqb Q to then Some (orEmpty (get to rd) ++ [relPath])
    else get Q rd.
Proof.
  unfold pushReverse. destruct (get to rd) eqn:E; rewrite get_set; reflexivity.
Qed.

Lemma pushReverse_members (relPath to P Q : string) (rd : JsObj.t (list string)) :
  (exists l, get Q (pushReverse relPath rd to) = Some l /\ In P l)
  <-> (exists l, get Q rd = Some l /\ In P l) \/ (P = relPath /\ Q = to).
Proof.
  rewrite get_pushReverse. destruct (String.eqb Q to) eqn:E.
  - apply String.eqb_eq in E. subst Q. split.
    + intros (l & Hl & Hin). inversion Hl; subst l.
      apply in_app_iff in Hin as [Hin|[->|[]]]; [|now right].
      left. destruct (get to rd) as [l0|]; [eauto|destruct Hin].
    + intros [(l & Hl & Hin)|[-> _]].
      * rewrite Hl. eexists. split; [reflexivity|].
        apply in_app_iff. now left.
      * eexists. split; [reflexivity|]. apply in_app_iff. right. now left.
  - apply String.eqb_neq in E. split; [auto|].
    intros [H|[_ H]]; [assumption|congruence].
Qed.

Lemma pushAll_members (relPath : string) (L : list string) (P Q : string)
  (rd : JsObj.t (list string)) :
  (exists l, get Q (fold_left (pushReverse relPath) L rd) = Some l /\ In P l)
  <-> (exists l, get Q rd = Some l /\ In P l) \/ (P = relPath /\ In Q L).
Proof.
  revert rd; induction L as [|to L IH]; intro rd; simpl.
  - tauto.
  - rewrite IH, pushReverse_members. intuition.
Qed.

Lemma pushAll_keeps (relPath : string) (L : list string) (Q : string)
  (rd : JsObj.t (list string)) :
  get Q rd <> None -> get Q (fold_left (pushReverse relPath) L rd) <> None.
Proof.
  revert rd; induction L as [|to L IH]; intros rd H; simpl; [assumption|].
  apply IH. rewrite get_pushReverse.
  destruct (String.eqb Q to); [discriminate|assumption].
Qed.

Lemma graphLoop_invariant (paths : list string) :
  forall (visited : list string) (g g' : Graph),
    graphLoop w projectRootAbs aliasPaths nextFiles paths g = Returned g' ->
    NoDup paths ->
    (forall p, In p paths -> ~ In p visited) ->
    graphInvariant visited g ->
    graphInvariant (rev paths ++ visited) g'
    /\ (forall Q, get Q (reverseDeps g) <> None -> get Q (reverseDeps g') <> None).
Proof.
  induction paths as [|relPath later IH]; intros visited g g' Hrun Hnd Hfresh Hinv.
  - simpl in Hrun. inversion Hrun; subst. auto.
  - simpl in Hrun.
    destruct (get relPath nextFiles) as [file|]; [|discriminate].
    set (entry := depsOf w projectRootAbs relPath aliasPaths (rawSpecifiers file)) in *.
    inversion Hnd as [|? ? Hnotin Hnd']; subst.
    destruct Hinv as [Hsym Hkeys].
    assert (Hnew : ~ In relPath visited) by (apply Hfresh; now left).
    apply IH with (visited := relPath :: visited) in Hrun; [| assumption | |].
    + destruct Hrun as [Hinv' Hkeep]. split.
      * simpl. now rewrite <- app_assoc.
      * intros Q HQ. apply Hkeep. simpl. now apply pushAll_keeps.
    + intros p Hp [->|Hv]; [contradiction|]. apply (Hfresh p); [now right|assumption].
    + split.
      * intros P Q. unfold inLocalDeps, inReverseDeps. simpl.
        rewrite pushAll_members.
        destruct (String.eqb P relPath) eqn:E.
        -- apply String.eqb_eq in E. subst P. rewrite get_set_eq. split.
           ++ intros (e & He & Hin). inversion He; subst e. now right.
           ++ intros [Hold|[_ Hin]]; [|eauto].
              exfalso. apply Hnew, Hkeys.
              apply (proj2 (Hsym relPath Q)) in Hold.
              destruct Hold as (e & He & _). congruence.
        -- apply String.eqb_neq in E.
           rewrite get_set_ne by congruence.
           split.
           ++ intro H. left. now apply (proj1 (Hsym P Q)).
           ++ intros [H|[H _]]; [|congruence]. now apply (proj2 (Hsym P Q)).
      * intros P. simpl. rewrite get_set.
        destruct (String.eqb P relPath) eqn:E.
        -- apply String.eqb_eq in E. now left.
        -- intro H. right. now apply Hkeys.
Qed.

Lemma initial_reverseDeps (paths : list string) (rd : JsObj.t (list string)) :
  forall Q,
    get Q (fold_left (fun rd p => set p [] rd) paths rd)
    = if JsArray.mem Q paths then Some [] else get Q rd.
Proof.
  revert rd; induction paths as [|p paths IH]; intros rd Q; simpl; [reflexivity|].
  rewrite IH, get_set.
  destruct (JsArray.mem Q paths) eqn:E; [now rewrite orb_true_r|].
  rewrite orb_false_r. reflexivity.
Qed.

Lemma get_map_sort (Q : string) (rd : JsObj.t (list string)) :
  get Q (map (fun kv => (fst kv, JsArray.sort (snd kv))) rd)
  = option_map JsArray.sort (get Q rd).
Proof.
  induction rd as [|[k v] rd IH]; simpl; [reflexivity|].
  destruct (String.eqb Q k); [reflexivity|assumption].
Qed.

(** The graph built over files with distinct keys is symmetric, and
    every file has a reverse entry. *)
Lemma buildGraph_symmetric (g : Graph) :
  NoDup (keys nextFiles) ->
  buildGraph w projectRootAbs aliasPaths nextFiles = Returned g ->
  symmetric g
  /\ (forall p, In p (keys nextFiles) -> get p (reverseDeps g) <> None).
Proof.
  intros Hnd Hrun. unfold buildGraph in Hrun.
  set (rd0 := fold_left (fun rd p => set p [] rd) (keys nextFiles) []) in *.
  destruct (graphLoop w projectRootAbs aliasPaths nextFiles (keys nextFiles)
              {| deps := []; reverseDeps := rd0 |}) as [g0|] eqn:E;
    [|discriminate].
  simpl in Hrun. inversion Hrun; subst g. clear Hrun.
  apply graphLoop_invariant with (visited := []) in E; [|assumption|auto|].
  - destruct E as [[Hsym _] Hkeep]. split.
    + intros P Q. unfold inLocalDeps, inReverseDeps. simpl.
      rewrite get_map_sort. specialize (Hsym P Q).
      unfold inLocalDeps, inReverseDeps in Hsym. rewrite Hsym. split.
      * intros (l & Hl & Hin). rewrite Hl. eexists. split; [reflexivity|].
        now apply JsArrayFacts.sort_In.
      * intros (l & Hl & Hin).
        destruct (get Q (reverseDeps g0)) as [l0|]; [|discriminate].
        inversion Hl; subst l. exists l0. split; [reflexivity|].
        now apply JsArrayFacts.sort_In.
    + intros p Hp. simpl. rewrite get_map_sort.
      assert (get p (reverseDeps g0) <> None) as Hne.
      { apply Hkeep. simpl. unfold rd0. rewrite initial_reverseDeps.
        apply JsArrayFacts.mem_In in Hp. now rewrite Hp. }
      destruct (get p (reverseDeps g0)); [discriminate|congruence].
  - split.
    + intros P Q. unfold inLocalDeps, inReverseDeps. simpl. split.
      * intros (e & He & _). discriminate.
      * intros (l & Hl & Hin). unfold rd0 in Hl.
        rewrite initial_reverseDeps in Hl.
        destruct (JsArray.mem Q (keys nextFiles)); [|discriminate].
        inversion Hl; subst l. destruct Hin.
    + intros P H. simpl in H. congruence.
Qed.

End GraphFacts.

Section BuildFilesFacts.
Import JsObj JsObjFacts.

Lemma buildFiles_keys (w : World) (previousIndex : option Index.t)
  (aliasPaths : list AliasRule) (sourceFiles : list string) :
  forall (acc result : JsObj.t FileEntry.t),
    buildFiles w previousIndex aliasPaths sourceFiles acc = Returned result ->
    (NoDup (keys acc) -> NoDup (keys result))
    /\ (forall p, In p sourceFiles \/ In p (keys acc) -> In p (keys result)).
Proof.
  induction sourceFiles as [|relPath later IH]; intros acc result Hrun; simpl in Hrun.
  - inversion Hrun; subst. split; [auto|]. intros p [[]|H]; assumption.
  - destruct (analyzeFile w previousIndex aliasPaths relPath) as [entry|];
      [|discriminate].
    simpl in Hrun. apply IH in Hrun as [Hnd Hin]. split.
    + intro H. apply Hnd. now apply NoDup_keys_set.
    + intros p Hp. apply Hin. rewrite In_keys_set.
      destruct Hp as [[->|Hp]|Hp]; auto.
Qed.

End BuildFilesFacts.

(** C1: the graph of a run is symmetric, a path [Q] being in
    [deps[P].local] exactly when [P] is in [reverseDeps[Q]], and every
    tracked source file has an entry in [reverseDeps]. *)
Theorem reverse_edge_symmetry (w : World) (previousIndex : option Index.t)
  (now : string) (out : IndexOutput) :
  generateIndex w previousIndex now = Returned out ->
  (forall P Q,
      inLocalDeps (Index.graph (index out)) P Q
      <-> inReverseDeps (Index.graph (index out)) P Q)
  /\ (forall tracked p,
         gitLsFiles w = Returned tracked ->
         In p tracked -> isSourceFile p = true ->
         exists importers,
           JsObj.get p (reverseDeps (Index.graph (index out))) = Some importers).
Proof.
  unfold generateIndex, indexWith. intro Hrun.
  destruct (readTsconfigPaths w (cwd w)) as [aliases|]; [|discriminate].
  destruct (gitLsFiles w) as [tracked|] eqn:Hgit; [|discriminate].
  simpl in Hrun.
  destruct (buildFiles w previousIndex aliases (filter isSourceFile tracked) [])
    as [nextFiles|] eqn:Hfiles; [|discriminate].
  simpl in Hrun.
  destruct (buildGraph w (cwd w) aliases nextFiles) as [g|] eqn:Hgraph;
    [|discriminate].
  simpl in Hrun. inversion Hrun; subst out. simpl. clear Hrun.
  apply buildFiles_keys in Hfiles as [Hnd Hkeys].
  apply buildGraph_symmetric in Hgraph as [Hsym Hentries];
    [|apply Hnd; constructor].
  split; [exact Hsym|].
  intros tracked' p Ht Hin Hsrc. inversion Ht; subst tracked'.
  assert (Hne : JsObj.get p (reverseDeps g) <> None).
  { apply Hentries, Hkeys. left. apply filter_In. auto. }
  destruct (JsObj.get p (reverseDeps g)) as [l|]; [eauto|congruence].
Qed.

(** The sample run returns, and its graph is symmetric. *)
Lemma reverse_edge_symmetry_witness :
  match sampleRun with
  | Returned out =>
      (inLocalDeps (Index.graph (index out)) "pages/home.tsx" "utils/fmt.ts"
       <-> inReverseDeps (Index.graph (index out)) "pages/home.tsx" "utils/fmt.ts")
      /\ JsObj.get "pages/home.tsx" (reverseDeps (Index.graph (index out)))
         = Some []
  | Thrown => False
  end.
Proof.
  destruct sampleRun as [out|] eqn:E.
  - split.
    + exact (proj1 (reverse_edge_symmetry sampleWorld None _ out E)
               "pages/home.tsx" "utils/fmt.ts").
    + vm_compute in E. inversion E. reflexivity.
  - vm_compute in E. discriminate E.
Defined.

(** C4 at a failing input: [pages/home.tsx] imports [lodash/debounce]
    and requires [lodash]; both reduce to the package [lodash], which the
    graph lists twice, while the set handed to the tagger lists it once.
    The three lists are sorted, and they merge the static and the dynamic
    specifiers. *)
Lemma deps_external_listed_twice :
  match sampleRun with
  | Returned out =>
      JsObj.get "pages/home.tsx" (deps (Index.graph (index out)))
      = Some {| local := ["utils/fmt.ts"];
                localUnresolved := ["./missing"];
                external := ["lodash"; "lodash"] |}
  | Thrown => False
  end
  /\ externalDepsOf ["../utils/fmt"; "./missing"; "lodash/debounce"; "lodash"] []
     = ["lodash"].
Proof. split; vm_compute; reflexivity. Qed.

(* ------------------------------------------------------------------ *)
(** ** The incremental cache *)

Section CacheFacts.

Lemma canReuse_iff (previousIndex : option Index.t) (prev : FileEntry.t)
  (digest : string) :
  canReuse previousIndex (Some prev) digest = true
  <-> FileEntry.sha256 prev = Some digest
      /\ (exists ix, previousIndex = Some ix
                     /\ Index.schemaVersion ix = SCHEMA_VERSION)
      /\ FileEntry.semantic prev <> None.
Proof.
  unfold canReuse. rewrite !andb_true_iff. split.
  - intros [[Ha Hb] Hc]. repeat split.
    + destruct (FileEntry.sha256 prev); [|discriminate].
      apply String.eqb_eq in Ha. congruence.
    + destruct previousIndex as [ix|]; [|discriminate].
      exists ix. split; [reflexivity|]. now apply Z.eqb_eq.
    + destruct (FileEntry.semantic prev); [discriminate|discriminate].
  - intros (Ha & (ix & -> & Hb) & Hc). rewrite Ha, Hb.
    rewrite String.eqb_refl. repeat split.
    destruct (FileEntry.semantic prev); [reflexivity|congruence].
Qed.

Lemma canCarry_iff (prev : Describe.Snapshot.t) (previous : Describe.Entry.t)
  (sha256 : option string) :
  Describe.canCarry prev (Some previous) sha256 = true
  <-> (exists h, h <> "" /\ Describe.Entry.sha256 previous = Some h
                 /\ sha256 = Some h)
      /\ Describe.Snapshot.schemaVersion prev = Describe.DESC_SCHEMA_VERSION
      /\ Describe.Entry.description previous <> None.
Proof.
  unfold Describe.canCarry, truthyOpt, JsString.truthy.
  rewrite !andb_true_iff. split.
  - intros [Hb [[[Ht1 Ht2] Ha] Hc]]. repeat split.
    + destruct (Describe.Entry.sha256 previous) as [a|]; [|discriminate].
      destruct sha256 as [b|]; [|discriminate].
      apply String.eqb_eq in Ha. subst b. exists a. repeat split.
      intro. subst a. discriminate.
    + now apply Z.eqb_eq.
    + destruct (Describe.Entry.description previous); [discriminate|discriminate].
  - intros ((h & Hne & Hp & ->) & Hb & Hc). rewrite Hp, Hb.
    rewrite String.eqb_refl.
    assert (String.eqb h "" = false) as -> by now apply String.eqb_neq.
    repeat split.
    destruct (Describe.Entry.description previous); [reflexivity|congruence].
Qed.

End CacheFacts.

(** C5, as stated, fails on the description pass: a description record
    with the file's hash, of the current schema version and with its
    description text is carried, although it holds no semantic facts. *)
Lemma description_carried_without_semantic_facts :
  canCarryAsDocumented cachedDescriptions cachedDescription (Some "digest-52")
  = false
  /\ Describe.canCarry cachedDescriptions (Some cachedDescription) (Some "digest-52")
     = true.
Proof. split; reflexivity. Qed.

(** C5, amended.  In the index generator the previous record of a file
    is stored again, unchanged, exactly when (a) its stored hash is the hash
    of the file's text, (b) the previous snapshot has the current schema
    version and (c) its semantic facts are present; otherwise a fresh
    record is computed.  In the description pass the previous description
    record is carried exactly when its stored hash is the file's hash and
    is not empty, the previous description snapshot has the current schema
    version and its description text is present; otherwise a fresh record
    is written.  A carried description record is the previous record with
    [carriedFrom] set to the generation time of the previous snapshot. *)
Theorem carry_rule :
  (forall (w : World) (previousIndex : option Index.t)
          (aliasPaths : list AliasRule) (relPath text : string)
          (prev : FileEntry.t),
      JsObj.get relPath (previousFiles previousIndex) = Some prev ->
      let digest := sha256Hex w text in
      let reusable :=
        FileEntry.sha256 prev = Some digest
        /\ (exists ix, previousIndex = Some ix
                       /\ Index.schemaVersion ix = SCHEMA_VERSION)
        /\ FileEntry.semantic prev <> None in
      (reusable -> recordFor w previousIndex aliasPaths relPath text = prev)
      /\ (~ reusable ->
          recordFor w previousIndex aliasPaths relPath text
          = freshEntry w aliasPaths relPath text digest))
  /\ (forall (deps : JsObj.t DepEntry) (prev : Describe.Snapshot.t)
             (st : Describe.Progress) (filePath : string) (file : FileEntry.t)
             (previous : Describe.Entry.t),
         JsObj.get filePath (Describe.Snapshot.files prev) = Some previous ->
         let carriable :=
           (exists h, h <> "" /\ Describe.Entry.sha256 previous = Some h
                      /\ FileEntry.sha256 file = Some h)
           /\ Describe.Snapshot.schemaVersion prev = Describe.DESC_SCHEMA_VERSION
           /\ Describe.Entry.description previous <> None in
         (carriable ->
          Describe.step deps prev st (filePath, file)
          = {| Describe.nextFiles :=
                 JsObj.set filePath (Describe.carry previous prev) (Describe.nextFiles st);
               Describe.updated := Describe.updated st;
               Describe.carried := Describe.carried st + 1 |})
         /\ (~ carriable ->
             Describe.step deps prev st (filePath, file)
             = {| Describe.nextFiles :=
                    JsObj.set filePath
                      (Describe.fresh filePath file (JsObj.get filePath deps))
                      (Describe.nextFiles st);
                  Describe.updated := Describe.updated st + 1;
                  Describe.carried := Describe.carried st |}))
  /\ (forall (previous : Describe.Entry.t) (prev : Describe.Snapshot.t),
         Describe.carry previous prev
         = {| Describe.Entry.path := Describe.Entry.path previous;
              Describe.Entry.sha256 := Describe.Entry.sha256 previous;
              Describe.Entry.feature := Describe.Entry.feature previous;
              Describe.Entry.description := Describe.Entry.description previous;
              Describe.Entry.needsReview := Describe.Entry.needsReview previous;
              Describe.Entry.carriedFrom := Some (Describe.Snapshot.generatedAt prev);
              Describe.Entry.others := Describe.Entry.others previous |}).
Proof.
  split; [|split].
  - intros w previousIndex aliasPaths relPath text prev Hprev digest reusable.
    unfold recordFor. rewrite Hprev. fold digest.
    pose proof (canReuse_iff previousIndex prev digest) as Hiff.
    fold reusable in Hiff.
    destruct (canReuse previousIndex (Some prev) digest).
    + split; [reflexivity|]. intro Hn. exfalso. apply Hn, Hiff. reflexivity.
    + split; [|reflexivity]. intro Hr. apply Hiff in Hr. discriminate.
  - intros deps prev st filePath file previous Hprev carriable.
    unfold Describe.step. rewrite Hprev.
    pose proof (canCarry_iff prev previous (FileEntry.sha256 file)) as Hiff.
    fold carriable in Hiff.
    destruct (Describe.canCarry prev (Some previous) (FileEntry.sha256 file)).
    + split; [reflexivity|]. intro Hn. exfalso. apply Hn, Hiff. reflexivity.
    + split; [|reflexivity]. intro Hr. apply Hiff in Hr. discriminate.
  - reflexivity.
Qed.

(** The cached description of [utils/fmt.ts] is carried for a file with
    the same hash. *)
Lemma carry_rule_witness :
  Describe.step [] cachedDescriptions
    {| Describe.nextFiles := []; Describe.updated := 0; Describe.carried := 0 |}
    ("utils/fmt.ts",
     {| FileEntry.path := "utils/fmt.ts"; FileEntry.kind := "ts";
        FileEntry.bytes := 52; FileEntry.sha256 := Some "digest-52";
        FileEntry.importSpecifiers := Some [];
        FileEntry.dynamicImportSpecifiers := Some [];
        FileEntry.exports := Some {| named := ["formatDate"]; default := false |};
        FileEntry.semantic := None |})
  = {| Describe.nextFiles :=
         [("utils/fmt.ts", Describe.carry cachedDescription cachedDescriptions)];
       Describe.updated := 0;
       Describe.carried := 1 |}.
Proof.
  refine (proj1 (proj1 (proj2 carry_rule) [] cachedDescriptions _ "utils/fmt.ts" _
                   cachedDescription eq_refl) _).
  split; [|split].
  - exists "digest-52". repeat split. discriminate.
  - reflexivity.
  - discriminate.
Defined.

(* ------------------------------------------------------------------ *)
(** ** Consecutive runs *)

Section IndexRuns.
Import JsObj JsObjFacts.

Variable w : World.
Variable aliases : list AliasRule.

Lemma recordFor_reusable (previousIndex : option Index.t) (p text : string) :
  FileEntry.sha256 (recordFor w previousIndex aliases p text)
  = Some (sha256Hex w text)
  /\ FileEntry.semantic (recordFor w previousIndex aliases p text) <> None.
Proof.
  unfold recordFor.
  destruct (get p (previousFiles previousIndex)) as [prev|];
    [|split; [reflexivity|discriminate]].
  destruct (canReuse previousIndex (Some prev) (sha256Hex w text)) eqn:E;
    [|split; [reflexivity|discriminate]].
  apply canReuse_iff in E. tauto.
Qed.

(** A record stored by one run is reused by the next. *)
Lemma recordFor_again (previousIndex : option Index.t) (ix : Index.t)
  (p text : string) :
  Index.schemaVersion ix = SCHEMA_VERSION ->
  get p (Index.files ix) = Some (recordFor w previousIndex aliases p text) ->
  recordFor w (Some ix) aliases p text = recordFor w previousIndex aliases p text.
Proof.
  intros Hv Hget.
  destruct (recordFor_reusable previousIndex p text) as [Hsha Hsem].
  set (r := recordFor w previousIndex aliases p text) in *.
  unfold recordFor at 1. simpl previousFiles. rewrite Hget.
  assert (canReuse (Some ix) (Some r) (sha256Hex w text) = true) as ->;
    [|reflexivity].
  apply canReuse_iff. eauto.
Qed.

Lemma buildFiles_records (previousIndex : option Index.t)
  (sourceFiles : list string) :
  forall acc result : JsObj.t FileEntry.t,
    buildFiles w previousIndex aliases sourceFiles acc = Returned result ->
    (forall p, In p sourceFiles ->
       exists text,
         fsReadFile w (NodePath.join2 (cwd w) p) = Returned text
         /\ get p result = Some (recordFor w previousIndex aliases p text))
    /\ (forall p, ~ In p sourceFiles -> get p result = get p acc).
Proof.
  induction sourceFiles as [|relPath later IH]; intros acc result Hrun;
    simpl in Hrun.
  - inversion Hrun; subst. split; [intros p []|reflexivity].
  - unfold analyzeFile in Hrun.
    destruct (fsReadFile w (NodePath.join2 (cwd w) relPath)) as [text|] eqn:Hread;
      [|discriminate].
    simpl in Hrun. apply IH in Hrun as [Hin Hout]. split.
    + intros p Hp. destruct (in_dec string_dec p later) as [Hl|Hl]; [auto|].
      destruct Hp as [->|Hp]; [|contradiction].
      exists text. split; [assumption|].
      rewrite Hout by assumption. apply get_set_eq.
    + intros p Hp. rewrite Hout by (intro; apply Hp; now right).
      apply get_set_ne. intro. apply Hp. now left.
Qed.

Lemma buildFiles_ext (a b : option Index.t) (sourceFiles : list string) :
  (forall p, In p sourceFiles -> analyzeFile w a aliases p = analyzeFile w b aliases p) ->
  forall acc, buildFiles w a aliases sourceFiles acc
              = buildFiles w b aliases sourceFiles acc.
Proof.
  induction sourceFiles as [|relPath later IH]; intros H acc; simpl;
    [reflexivity|].
  rewrite H by now left.
  destruct (analyzeFile w b aliases relPath); simpl; [|reflexivity].
  apply IH. intros p Hp. apply H. now right.
Qed.

(** The files of a run, read back as the previous snapshot, give the
    same files again. *)
Lemma buildFiles_again (previousIndex : option Index.t) (ix : Index.t)
  (sourceFiles : list string) :
  Index.schemaVersion ix = SCHEMA_VERSION ->
  buildFiles w previousIndex aliases sourceFiles [] = Returned (Index.files ix) ->
  buildFiles w (Some ix) aliases sourceFiles []
  = buildFiles w previousIndex aliases sourceFiles [].
Proof.
  intros Hv Hrun. apply buildFiles_ext. intros p Hp.
  apply buildFiles_records in Hrun as [Hin _].
  destruct (Hin p Hp) as (text & Hread & Hget).
  unfold analyzeFile. rewrite Hread. simpl. f_equal.
  now apply recordFor_again.
Qed.

End IndexRuns.

(** The index generator, run again on its own snapshot at time [t],
    gives what the run before would have given at time [t]. *)
Lemma generateIndex_again (w : World) (previousIndex : option Index.t)
  (t1 : string) (out1 : IndexOutput) :
  generateIndex w previousIndex t1 = Returned out1 ->
  forall t : string,
    generateIndex w (Some (index out1)) t = generateIndex w previousIndex t.
Proof.
  unfold generateIndex, indexWith. intros Hrun t.
  destruct (readTsconfigPaths w (cwd w)) as [aliases|]; [|discriminate].
  destruct (gitLsFiles w) as [tracked|]; [|discriminate].
  simpl in *.
  destruct (buildFiles w previousIndex aliases (filter isSourceFile tracked) [])
    as [nextFiles|] eqn:Hfiles; [|discriminate].
  simpl in Hrun.
  destruct (buildGraph w (cwd w) aliases nextFiles) as [g|]; [|discriminate].
  simpl in Hrun. inversion Hrun; subst out1. clear Hrun. simpl index.
  rewrite (buildFiles_again w aliases previousIndex);
    [now rewrite Hfiles|reflexivity|exact Hfiles].
Qed.

(** The time of a run shows in its time stamp and in the line of the
    digest that prints it, nowhere else; the digest is a function of the
    snapshot. *)
Lemma generateIndex_time (w : World) (previousIndex : option Index.t)
  (t1 t2 : string) (out1 : IndexOutput) :
  generateIndex w previousIndex t1 = Returned out1 ->
  generateIndex w previousIndex t2
  = Returned {| index := withGeneratedAt t2 (index out1);
                indexMd := digestOf (withGeneratedAt t2 (index out1)) |}
  /\ indexMd out1 = digestOf (index out1)
  /\ NoDup (JsObj.keys (Index.files (index out1))).
Proof.
  unfold generateIndex, indexWith. intros Hrun.
  destruct (readTsconfigPaths w (cwd w)) as [aliases|]; [|discriminate].
  destruct (gitLsFiles w) as [tracked|]; [|discriminate].
  simpl in *.
  destruct (buildFiles w previousIndex aliases (filter isSourceFile tracked) [])
    as [nextFiles|] eqn:Hfiles; [|discriminate].
  simpl in *.
  destruct (buildGraph w (cwd w) aliases nextFiles) as [g|]; [|discriminate].
  simpl in *. inversion Hrun; subst out1. clear Hrun.
  repeat split.
  apply buildFiles_keys in Hfiles as [Hnd _]. apply Hnd. constructor.
Qed.

Section DescribeRuns.
Import JsObj JsObjFacts.

Variable deps : JsObj.t DepEntry.

Lemma step_nextFiles (prev : Describe.Snapshot.t) (st : Describe.Progress)
  (p : string) (file : FileEntry.t) :
  Describe.nextFiles (Describe.step deps prev st (p, file))
  = set p (describedEntry deps prev p file) (Describe.nextFiles st).
Proof.
  unfold Describe.step, describedEntry.
  destruct (get p (Describe.Snapshot.files prev)) as [e|]; [|reflexivity].
  destruct (Describe.canCarry prev (Some e) (FileEntry.sha256 file)); reflexivity.
Qed.

Lemma set_fresh (V : Type) (k : string) (v : V) (o : JsObj.t V) :
  get k o = None -> set k v o = o ++ [(k, v)].
Proof.
  induction o as [|[k' v'] o IH]; simpl; [reflexivity|].
  destruct (String.eqb k k'); [discriminate|]. intro H. now rewrite IH.
Qed.

(** Over files with distinct keys the pass writes one record per file,
    in the order of the files. *)
Lemma describe_files (prev : Describe.Snapshot.t) (files : JsObj.t FileEntry.t) :
  forall st : Describe.Progress,
    NoDup (keys files) ->
    (forall p, In p (keys files) -> get p (Describe.nextFiles st) = None) ->
    Describe.nextFiles (fold_left (Describe.step deps prev) files st)
    = Describe.nextFiles st
      ++ map (fun kv => (fst kv, describedEntry deps prev (fst kv) (snd kv))) files.
Proof.
  induction files as [|[p file] files IH]; intros st Hnd Hfresh;
    cbn [fold_left map fst snd].
  - now rewrite app_nil_r.
  - inversion Hnd as [|? ? Hnotin Hnd']; subst.
    rewrite IH; [|assumption|].
    + rewrite step_nextFiles, set_fresh by (apply Hfresh; now left).
      now rewrite <- app_assoc.
    + intros q Hq. rewrite step_nextFiles, get_set_ne.
      * apply Hfresh. now right.
      * intro. subst q. contradiction.
Qed.

Lemma get_map_entry (A B : Type) (F : string * A -> B) (files : JsObj.t A)
  (p : string) (file : A) :
  NoDup (keys files) -> In (p, file) files ->
  get p (map (fun kv => (fst kv, F kv)) files) = Some (F (p, file)).
Proof.
  intros Hnd Hin. apply get_In.
  - unfold keys. rewrite map_map. simpl. exact Hnd.
  - apply (in_map (fun kv => (fst kv, F kv))) in Hin. exact Hin.
Qed.

(** With the previous run's records as the cache, and nothing changed,
    each record is the previous one carried over. *)
Lemma describedEntry_again (prev0 snapshot1 : Describe.Snapshot.t)
  (p : string) (file : FileEntry.t) :
  Describe.Snapshot.schemaVersion snapshot1 = Describe.DESC_SCHEMA_VERSION ->
  get p (Describe.Snapshot.files snapshot1)
  = Some (describedEntry deps prev0 p file) ->
  describedEntry deps snapshot1 p file
  = carriedOver snapshot1 (describedEntry deps prev0 p file).
Proof.
  intros Hv Hget. unfold describedEntry at 1. rewrite Hget.
  unfold carriedOver.
  unfold describedEntry.
  destruct (get p (Describe.Snapshot.files prev0)) as [e0|].
  - destruct (Describe.canCarry prev0 (Some e0) (FileEntry.sha256 file)) eqn:E.
    + apply canCarry_iff in E as ((h & Hne & Hp & Hf) & _ & Hd).
      assert (Describe.canCarry snapshot1 (Some (Describe.carry e0 prev0))
                (FileEntry.sha256 file) = true) as ->.
      { apply canCarry_iff. simpl. repeat split; eauto. }
      simpl. rewrite Hp. simpl.
      assert (JsString.truthy h = true) as ->; [|reflexivity].
      unfold JsString.truthy. apply negb_true_iff. now apply String.eqb_neq.
    + unfold Describe.canCarry. rewrite Hv, Z.eqb_refl. simpl.
      destruct (FileEntry.sha256 file) as [a|]; simpl; [|reflexivity].
      rewrite String.eqb_refl.
      destruct (JsString.truthy a); reflexivity.
  - unfold Describe.canCarry. rewrite Hv, Z.eqb_refl. simpl.
    destruct (FileEntry.sha256 file) as [a|]; simpl; [|reflexivity].
    rewrite String.eqb_refl.
    destruct (JsString.truthy a); reflexivity.
Qed.

End DescribeRuns.

(** The description pass, run again on its own records over the same
    files and dependencies, carries them over. *)
Lemma describe_again (localeLe : string -> string -> bool) (ix1 ix2 : Index.t)
  (previousDescriptions : option Describe.Snapshot.t) (t1 t2 : string) :
  Index.files ix2 = Index.files ix1 ->
  Index.graph ix2 = Index.graph ix1 ->
  NoDup (JsObj.keys (Index.files ix1)) ->
  let first := Describe.descriptions (Describe.main localeLe ix1 previousDescriptions t1) in
  Describe.Snapshot.files
    (Describe.descriptions (Describe.main localeLe ix2 (Some first) t2))
  = map (fun kv => (fst kv, carriedOver first (snd kv)))
      (Describe.Snapshot.files first).
Proof.
  intros Hf Hg Hnd first. unfold first, Describe.main. simpl.
  rewrite Hf, Hg.
  set (prev0 := match previousDescriptions with
                | Some p => p
                | None => Describe.emptySnapshot
                end).
  set (deps1 := deps (Index.graph ix1)).
  rewrite !describe_files by (assumption || reflexivity). simpl.
  rewrite map_map. simpl.
  apply map_ext_in. intros [p file] Hin. simpl. f_equal.
  apply describedEntry_again; [reflexivity|]. simpl.
  now apply (get_map_entry _ _
               (fun kv => describedEntry deps1 prev0 (fst kv) (snd kv))).
Qed.

(** C6, as stated, fails: in the sample repository the second run of
    the pipeline, made on the snapshots of the first with nothing changed
    and even at the same clock readings, writes other description files
    than the first: its records have gained [carriedFrom], and the digest
    counts two carried records where the first run counted two updated
    ones.  The index files are the same. *)
Lemma second_run_differs :
  match sampleSync with
  | Returned out1 =>
      match
        syncRepo sampleWorld String.leb (snapshotsAfter out1)
          "2026-01-01T00:00:00.000Z" "2026-01-01T00:00:01.000Z"
      with
      | Returned out2 =>
          indexOut out2 = indexOut out1
          /\ option_map Describe.Entry.carriedFrom
               (JsObj.get "utils/fmt.ts"
                  (Describe.Snapshot.files (Describe.descriptions (describeOut out1))))
             = Some None
          /\ option_map Describe.Entry.carriedFrom
               (JsObj.get "utils/fmt.ts"
                  (Describe.Snapshot.files (Describe.descriptions (describeOut out2))))
             = Some (Some (Some "2026-01-01T00:00:01.000Z"))
          /\ String.eqb (Describe.descriptionsMd (describeOut out2))
               (Describe.descriptionsMd (describeOut out1)) = false
          /\ describeOut out2 <> describeOut out1
      | Thrown => False
      end
  | Thrown => False
  end.
Proof.
  vm_compute. repeat split. intro H. inversion H.
Qed.

(** C6, amended.  When nothing changed (same tracked files, texts,
    configuration and answers of the file system), a second run of the
    pipeline on the snapshots of the first returns.  Its index step writes
    the snapshot of the first run with the new generation time and the
    digest of that snapshot: [index.json] and [index.md] are identical
    apart from the generation time.  Its description step writes the
    records of the first run carried over: every record with a non-empty
    hash gets [carriedFrom] set to the first run's generation time, the
    rest of each record and the order of the records are unchanged. *)
Theorem consecutive_runs (w : World) (localeLe : string -> string -> bool)
  (before : Snapshots) (nowIndex1 nowDescribe1 : string) (out1 : SyncOutput) :
  syncRepo w localeLe before nowIndex1 nowDescribe1 = Returned out1 ->
  forall nowIndex2 nowDescribe2 : string,
  exists out2,
    syncRepo w localeLe (snapshotsAfter out1) nowIndex2 nowDescribe2 = Returned out2
    /\ index (indexOut out2) = withGeneratedAt nowIndex2 (index (indexOut out1))
    /\ indexMd (indexOut out1) = digestOf (index (indexOut out1))
    /\ indexMd (indexOut out2) = digestOf (index (indexOut out2))
    /\ Describe.Snapshot.files (Describe.descriptions (describeOut out2))
       = map (fun kv =>
                (fst kv, carriedOver (Describe.descriptions (describeOut out1)) (snd kv)))
           (Describe.Snapshot.files (Describe.descriptions (describeOut out1))).
Proof.
  unfold syncRepo. intros Hrun nowIndex2 nowDescribe2.
  destruct (generateIndex w (indexJson before) nowIndex1) as [o1|] eqn:E1;
    [|discriminate].
  simpl in Hrun. inversion Hrun; subst out1. clear Hrun. simpl.
  rewrite (generateIndex_again w (indexJson before) nowIndex1 o1 E1).
  destruct (generateIndex_time w (indexJson before) nowIndex1 nowIndex2 o1 E1)
    as (E2 & Hmd & Hnd).
  rewrite E2. simpl. eexists. split; [reflexivity|]. simpl.
  repeat (split; [reflexivity || assumption|]).
  exact (describe_again localeLe (index o1) (withGeneratedAt nowIndex2 (index o1))
           (descriptionsJson before) nowDescribe1 nowDescribe2
           eq_refl eq_refl Hnd).
Qed.

(** The second run in the sample repository. *)
Lemma consecutive_runs_witness :
  match sampleSync with
  | Returned out1 =>
      exists out2,
        syncRepo sampleWorld String.leb (snapshotsAfter out1)
          "2026-01-02T00:00:00.000Z" "2026-01-02T00:00:01.000Z" = Returned out2
        /\ index (indexOut out2)
           = withGeneratedAt "2026-01-02T00:00:00.000Z" (index (indexOut out1))
        /\ indexMd (indexOut out1) = digestOf (index (indexOut out1))
        /\ indexMd (indexOut out2) = digestOf (index (indexOut out2))
        /\ Describe.Snapshot.files (Describe.descriptions (describeOut out2))
           = map (fun kv =>
                    (fst kv,
                     carriedOver (Describe.descriptions (describeOut out1)) (snd kv)))
               (Describe.Snapshot.files (Describe.descriptions (describeOut out1)))
  | Thrown => False
  end.
Proof.
  destruct sampleSync as [out1|] eqn:E.
  - exact (consecutive_runs sampleWorld String.leb _ _ _ out1 E
             "2026-01-02T00:00:00.000Z" "2026-01-02T00:00:01.000Z").
  - vm_compute in E. discriminate E.
Defined.

(* ------------------------------------------------------------------ *)
(** ** Further properties of the code *)

Lemma pushEdges_lists (edges : list Edge) (acc : DepEntry) :
  let acc' := fold_left pushEdge edges acc in
  local acc' = local acc ++ localsOf edges
  /\ localUnresolved acc' = localUnresolved acc ++ unresolvedOf edges
  /\ external acc' = external acc ++ externalsOf edges.
Proof.
  revert acc; induction edges as [|e edges IH]; intro acc; simpl.
  - now rewrite !app_nil_r.
  - destruct (IH (pushEdge acc e)) as (H1 & H2 & H3).
    rewrite H1, H2, H3. destruct e; simpl; now rewrite <- ?app_assoc.
Qed.

(** The three lists of [deps[relPath]] are in ascending order, and they
    hold, with their multiplicities, the resolved paths, the unresolved
    specifiers and the package identities of the file's static and dynamic
    specifiers. *)
Lemma depsOf_sorted_merged (w : World) (projectRootAbs relPath : string)
  (aliasPaths : list AliasRule) (file : FileEntry.t) :
  let entry := depsOf w projectRootAbs relPath aliasPaths (rawSpecifiers file) in
  let edges :=
    map (fun spec => classify w projectRootAbs relPath spec aliasPaths)
      (orEmpty (FileEntry.importSpecifiers file)
       ++ orEmpty (FileEntry.dynamicImportSpecifiers file)) in
  ascending (local entry) /\ ascending (localUnresolved entry)
  /\ ascending (external entry)
  /\ Permutation (local entry) (localsOf edges)
  /\ Permutation (localUnresolved entry) (unresolvedOf edges)
  /\ Permutation (external entry) (externalsOf edges).
Proof.
  intros entry edges. unfold entry, depsOf, rawSpecifiers. simpl.
  set (raw := orEmpty (FileEntry.importSpecifiers file)
              ++ orEmpty (FileEntry.dynamicImportSpecifiers file)) in *.
  assert (Hfold :
    fold_left
      (fun acc spec => pushEdge acc (classify w projectRootAbs relPath spec aliasPaths))
      raw {| local := []; localUnresolved := []; external := [] |}
    = fold_left pushEdge edges {| local := []; localUnresolved := []; external := [] |}).
  { unfold edges. generalize {| local := []; localUnresolved := []; external := [] |}.
    induction raw as [|spec raw IH]; intro acc; simpl; [reflexivity|]. apply IH. }
  rewrite Hfold.
  destruct (pushEdges_lists edges {| local := []; localUnresolved := []; external := [] |})
    as (H1 & H2 & H3).
  simpl in H1, H2, H3. rewrite H1, H2, H3.
  repeat split; try apply JsArrayFacts.sort_ascending; apply JsArrayFacts.sort_perm.
Qed.

(** Two single-quoted [/api/] literals with only a comma between them
    are recorded as one endpoint: the single quote and the comma belong to
    the character class of the [/api/] alternative.  With white space after
    the comma they are two. *)
Lemma adjacent_api_literals_merge :
  extractApiEndpoints "const routes = ['/api/users','/api/orders'];"
  = ["/api/users','/api/orders"]
  /\ extractApiEndpoints "const routes = ['/api/users', '/api/orders'];"
     = ["/api/users"; "/api/orders"].
Proof. split; vm_compute; reflexivity. Qed.

(** The end-to-end scenario of the design document: [pages/home.tsx]
    imports [../utils/fmt], and [utils/fmt.ts] exports [formatDate]. *)
Lemma end_to_end_sample :
  match sampleRun with
  | Returned out =>
      option_map local (JsObj.get "pages/home.tsx" (deps (Index.graph (index out))))
      = Some ["utils/fmt.ts"]
      /\ JsObj.get "utils/fmt.ts" (reverseDeps (Index.graph (index out)))
         = Some ["pages/home.tsx"]
      /\ option_map FileEntry.exports (JsObj.get "utils/fmt.ts" (Index.files (index out)))
         = Some (Some {| named := ["formatDate"]; default := false |})
      /\ option_map (fun f => option_map routes (FileEntry.semantic f))
           (JsObj.get "pages/home.tsx" (Index.files (index out)))
         = Some (Some ["/home"])
  | Thrown => False
  end.
Proof. vm_compute. repeat split. Qed.

(** A snapshot of another schema version is never reused: every record
    is computed afresh. *)
Lemma schema_bump_invalidates (w : World) (ix : Index.t)
  (aliasPaths : list AliasRule) (relPath text : string) :
  Index.schemaVersion ix <> SCHEMA_VERSION ->
  recordFor w (Some ix) aliasPaths relPath text
  = freshEntry w aliasPaths relPath text (sha256Hex w text).
Proof.
  intro H. unfold recordFor.
  destruct (JsObj.get relPath (previousFiles (Some ix))) as [prev|]; [|reflexivity].
  destruct (canReuse (Some ix) (Some prev) (sha256Hex w text)) eqn:E; [|reflexivity].
  apply canReuse_iff in E as (_ & (ix' & Hix & Hv) & _).
  inversion Hix; subst. contradiction.
Qed.

Lemma schema_bump_invalidates_witness :
  recordFor sampleWorld (Some olderSnapshot) [] "utils/fmt.ts" fmtText
  = freshEntry sampleWorld [] "utils/fmt.ts" fmtText "digest-52".
Proof.
  apply (schema_bump_invalidates sampleWorld olderSnapshot [] "utils/fmt.ts" fmtText).
  discriminate.
Defined.

(** The alias example of the design document: with the rule [@app/*]
    for [./src/*], the specifier [@app/widgets/button] has the candidate
    [src/widgets/button] below the root. *)
Lemma alias_rewrite_sample :
  candidateRel "pages/home.tsx" "@app/widgets/button"
    [ {| pattern := "@app/*"; targets := [JStr "./src/*"] |} ]
  = Some "./src/widgets/button"
  /\ NodePath.resolve "/repo" ["/repo"; "./src/widgets/button"]
     = "/repo/src/widgets/button"
  /\ NodePath.relative "/repo" "/repo" "/repo/src/widgets/button.ts"
     = "src/widgets/button.ts".
Proof. repeat split. Qed.

(* ------------------------------------------------------------------ *)
(** ** The semantic tagger: what the recorded facts are *)

Lemma In_firstn (A : Type) (n : nat) (l : list A) (x : A) :
  In x (firstn n l) -> In x l.
Proof.
  intro H. rewrite <- (firstn_skipn n l). apply in_app_iff. now left.
Qed.

Section ScannerFacts.
Import JsString JsStringFacts Regex.

Lemma includes_prefix (s t : string) :
  String.prefix t s = true -> includes s t = true.
Proof. destruct s; simpl; intro H; rewrite H; reflexivity. Qed.

Lemma includes_infix (pre v post : string) :
  includes (pre +++ v +++ post) v = true.
Proof.
  induction pre as [|c pre IH].
  - simpl. apply includes_prefix, prefix_app.
  - simpl. rewrite IH. apply orb_true_r.
Qed.

Lemma stripPrefix_Some (p s r : string) :
  stripPrefix p s = Some r -> s = p +++ r.
Proof.
  unfold stripPrefix. destruct (String.prefix p s) eqn:E; [|discriminate].
  intro H. inversion H; subst. now apply prefix_split.
Qed.

Lemma closeRun_Some (cls : ascii -> bool) (q : ascii) (s run rest : string) :
  closeRun cls q s = Some (run, rest) ->
  s = run +++ String q rest /\ allChars cls run = true.
Proof.
  revert run rest; induction s as [|c s IH]; intros run rest H; simpl in H;
    [discriminate|].
  assert (Hhere : (if Ascii.eqb c q then Some (EmptyString, s) else None)
                  = Some (run, rest) ->
                  String c s = run +++ String q rest /\ allChars cls run = true).
  { destruct (Ascii.eqb c q) eqn:E; [|discriminate].
    apply Ascii.eqb_eq in E. subst c. intro H0. inversion H0; subst. now split. }
  destruct (cls c) eqn:Ec; [|now apply Hhere].
  destruct (closeRun cls q s) as [[run' rest']|]; [|now apply Hhere].
  inversion H; subst. destruct (IH run' rest eq_refl) as [-> Hall].
  split; [reflexivity|]. simpl. now rewrite Ec.
Qed.

Lemma closeRun1_Some (cls : ascii -> bool) (q : ascii) (s run rest : string) :
  closeRun1 cls q s = Some (run, rest) ->
  s = run +++ String q rest /\ allChars cls run = true /\ run <> "".
Proof.
  unfold closeRun1. destruct (closeRun cls q s) as [[run' rest']|] eqn:E;
    [|discriminate].
  destruct (truthy run') eqn:Et; [|discriminate].
  intro H. inversion H; subst. apply closeRun_Some in E as [-> Hall].
  repeat split; [assumption|]. intros ->. discriminate.
Qed.

Lemma span_spec (cls : ascii -> bool) (s : string) :
  s = fst (span cls s) +++ snd (span cls s)
  /\ allChars cls (fst (span cls s)) = true.
Proof.
  induction s as [|c s [IH1 IH2]]; simpl; [now split|].
  destruct (cls c) eqn:E; [|now split].
  destruct (span cls s) as [run rest]. simpl in *. split; [now f_equal|].
  now rewrite E.
Qed.

(** Every group that the scan delivers is the group of a match at some
    position of the text. *)
Lemma scan_In (re : option ascii -> string -> option (string * string))
  (g : string) (s : string) :
  forall (skip : nat) (prev : option ascii),
    In g (scan re skip prev s) ->
    exists pre prev' s' rest, s = pre +++ s' /\ re prev' s' = Some (g, rest).
Proof.
  induction s as [|c s IH]; intros skip prev H; simpl in H; [destruct H|].
  assert (Hlater : forall k p, In g (scan re k p s) ->
            exists pre prev' s' rest,
              String c s = pre +++ s' /\ re prev' s' = Some (g, rest)).
  { intros k p Hin. destruct (IH k p Hin) as (pre & prev' & s' & rest & -> & Hre).
    exists (String c pre), prev', s', rest. now split. }
  destruct skip as [|k]; [|now apply (Hlater k (Some c))].
  destruct (re prev (String c s)) as [[group rest]|] eqn:E;
    [|now apply (Hlater 0 (Some c))].
  destruct H as [<-|H]; [|now apply (Hlater _ (Some c)) in H].
  exists "", prev, (String c s), rest. now split.
Qed.

Lemma matchAll_In (re : option ascii -> string -> option (string * string))
  (g text : string) :
  In g (matchAll re text) ->
  exists pre prev' s' rest, text = pre +++ s' /\ re prev' s' = Some (g, rest).
Proof. apply scan_In. Qed.

Lemma collectCapped_In (cap : nat) (keep : string -> bool)
  (matches : list string) (v : string) :
  0 < cap -> In v (collectCapped cap keep matches []) ->
  In v matches /\ v <> "" /\ keep v = true.
Proof.
  intros Hcap H. rewrite collectCapped_first_distinct in H by assumption.
  apply In_firstn in H. apply (proj1 (JsArrayFacts.setOfList_In _ _)) in H.
  unfold kept in H. apply filter_In in H as [Hin Hk].
  apply andb_true_iff in Hk as [Ht Hk]. repeat split; try assumption.
  intros ->. discriminate.
Qed.

Lemma apiRe_Some (prev : option ascii) (s g rest : string) :
  apiRe prev s = Some (g, rest) ->
  exists q run,
    isQuote q = true /\ s = String q (g +++ String q rest) /\ run <> ""
    /\ ((allChars isUrlChar run = true
         /\ (g = "https://" +++ run \/ g = "http://" +++ run))
        \/ (allChars isApiChar run = true /\ g = "/api/" +++ run)).
Proof.
  unfold apiRe. destruct s as [|q s1]; [discriminate|].
  destruct (isQuote q) eqn:Eq; [|discriminate].
  assert (Hcase : forall (cls : ascii -> bool) (scheme : string),
            match stripPrefix scheme s1 with
            | Some s2 =>
                match closeRun1 cls q s2 with
                | Some (run, rest) => Some (scheme +++ run, rest)
                | None => None
                end
            | None => None
            end = Some (g, rest) ->
            exists run,
              String q s1 = String q (g +++ String q rest) /\ run <> ""
              /\ allChars cls run = true /\ g = scheme +++ run).
  { intros cls scheme H.
    destruct (stripPrefix scheme s1) as [s2|] eqn:E1; [|discriminate].
    destruct (closeRun1 cls q s2) as [[run rest']|] eqn:E2; [|discriminate].
    inversion H; subst. apply stripPrefix_Some in E1.
    apply closeRun1_Some in E2 as (-> & Hall & Hne).
    exists run. subst s1. rewrite append_assoc. auto. }
  intro H. unfold firstSome in H.
  destruct (match stripPrefix "https://" s1 with Some _ => _ | None => _ end)
    as [r1|] eqn:E1.
  - rewrite H in E1. apply Hcase in E1 as (run & Hs & Hne & Hall & Hg).
    exists q, run. auto 10.
  - destruct (match stripPrefix "http://" s1 with Some _ => _ | None => _ end)
      as [r2|] eqn:E2.
    + rewrite H in E2. apply Hcase in E2 as (run & Hs & Hne & Hall & Hg).
      exists q, run. auto 10.
    + apply Hcase in H as (run & Hs & Hne & Hall & Hg).
      exists q, run. auto 10.
Qed.

End ScannerFacts.

Section ScannerFacts2.
Import JsString JsStringFacts Regex.

Lemma storageRe_Some (prev : option ascii) (s g rest : string) :
  storageRe prev s = Some (g, rest) ->
  g <> "" /\ allChars isKeyChar g = true
  /\ exists method ws q,
       In method ["getItem"; "setItem"; "removeItem"]
       /\ allChars isSpace ws = true /\ isQuote q = true
       /\ s = ("localStorage." +++ method +++ "(" +++ ws
               +++ String q (g +++ String q "")) +++ rest.
Proof.
  unfold storageRe.
  destruct (stripPrefix "localStorage." s) as [s1|] eqn:E1; [|discriminate].
  apply stripPrefix_Some in E1.
  assert (Hm : forall s2,
            firstSome (firstSome (stripPrefix "getItem" s1) (stripPrefix "setItem" s1))
              (stripPrefix "removeItem" s1) = Some s2 ->
            exists method,
              In method ["getItem"; "setItem"; "removeItem"] /\ s1 = method +++ s2).
  { intros s2 H. unfold firstSome in H.
    destruct (stripPrefix "getItem" s1) eqn:Ea.
    - inversion H; subst. apply stripPrefix_Some in Ea. exists "getItem". simpl. auto.
    - destruct (stripPrefix "setItem" s1) eqn:Eb.
      + inversion H; subst. apply stripPrefix_Some in Eb. exists "setItem". simpl. auto.
      + apply stripPrefix_Some in H. exists "removeItem". simpl. auto. }
  destruct (firstSome (firstSome (stripPrefix "getItem" s1) (stripPrefix "setItem" s1))
              (stripPrefix "removeItem" s1)) as [s2|]; [|discriminate].
  destruct (Hm s2 eq_refl) as (method & Hin & Hs1).
  destruct (stripPrefix "(" s2) as [s3|] eqn:E3; [|discriminate].
  apply stripPrefix_Some in E3.
  destruct (span_spec isSpace s3) as [Hs3 Hws].
  destruct (snd (span isSpace s3)) as [|q s4] eqn:E4; [discriminate|].
  destruct (isQuote q) eqn:Eq; [|discriminate].
  intro H. apply closeRun1_Some in H as (Hs4 & Hall & Hne).
  split; [assumption|]. split; [assumption|].
  remember (fst (span isSpace s3)) as ws eqn:Ews. clear Ews E4.
  exists method, ws, q.
  split; [assumption|]. split; [assumption|]. split; [assumption|].
  subst s s1 s2 s3 s4.
  simpl. do 3 (rewrite ?append_assoc; simpl). reflexivity.
Qed.

Lemma envRe_Some (prev : option ascii) (s g rest : string) :
  envRe prev s = Some (g, rest) ->
  g <> "" /\ allChars isEnvChar g = true
  /\ (s = ("process.env." +++ g) +++ rest
      \/ s = ("import.meta.env." +++ g) +++ rest).
Proof.
  unfold envRe.
  destruct (negb match prev with Some c => negb (isWord c) | None => true end);
    [discriminate|].
  assert (Hm : forall s1,
            firstSome (stripPrefix "process.env." s) (stripPrefix "import.meta.env." s)
            = Some s1 ->
            s = "process.env." +++ s1 \/ s = "import.meta.env." +++ s1).
  { intros s1 H. unfold firstSome in H.
    destruct (stripPrefix "process.env." s) eqn:Ea.
    - inversion H; subst. apply stripPrefix_Some in Ea. now left.
    - apply stripPrefix_Some in H. now right. }
  destruct (firstSome (stripPrefix "process.env." s) (stripPrefix "import.meta.env." s))
    as [s1|]; [|discriminate].
  specialize (Hm s1 eq_refl).
  destruct (span_spec isEnvChar s1) as [Hs1 Hall].
  destruct (span isEnvChar s1) as [run rest']. simpl in Hs1, Hall.
  destruct (truthy run) eqn:Et; [|discriminate].
  intro H. inversion H; subst run rest'. repeat split; try assumption.
  - intros ->. discriminate.
  - rewrite !append_assoc, <- Hs1. exact Hm.
Qed.

End ScannerFacts2.

Lemma includes_at (pre x rest text : string) :
  text = pre +++ x +++ rest -> JsString.includes text x = true.
Proof. intros ->. apply includes_infix. Qed.

(** Every endpoint recorded for a text stands in the text between two
    occurrences of one quote character, and is [http://] or [https://]
    followed by one or more characters that are neither quotes nor white
    space, or [/api/] followed by one or more characters of the [/api/]
    class. *)
Theorem endpoints_are_quoted_literals (text filePath : string)
  (externalDeps : list string) (v : string) :
  In v (apiEndpoints (extractSemanticFromText text filePath externalDeps)) ->
  quotedIn text v
  /\ exists run,
       run <> ""
       /\ ((allChars Regex.isUrlChar run = true
            /\ (v = "https://" +++ run \/ v = "http://" +++ run))
           \/ (allChars Regex.isApiChar run = true /\ v = "/api/" +++ run)).
Proof.
  simpl. intro H. apply (proj1 (JsArrayFacts.sort_In _ _)) in H.
  apply collectCapped_In in H as (Hin & _ & _); [|lia].
  apply matchAll_In in Hin as (pre & prev & s & rest & Htext & Hre).
  apply apiRe_Some in Hre as (q & run & Hq & Hs & Hne & Hshape).
  split.
  - exists q. split; [assumption|].
    apply (includes_at pre _ rest). rewrite Htext, Hs. f_equal. simpl.
    f_equal. now rewrite JsStringFacts.append_assoc.
  - exists run. split; assumption.
Qed.

Lemma endpoints_are_quoted_literals_witness :
  quotedIn "fetch('/api/users')" "/api/users"
  /\ exists run,
       run <> ""
       /\ ((allChars Regex.isUrlChar run = true
            /\ ("/api/users" = "https://" +++ run \/ "/api/users" = "http://" +++ run))
           \/ (allChars Regex.isApiChar run = true /\ "/api/users" = "/api/" +++ run)).
Proof.
  apply (endpoints_are_quoted_literals "fetch('/api/users')" "utils/api.ts" []).
  vm_compute. now left.
Defined.

(** Every storage key recorded for a text is the non-empty, quote-free
    first argument of a [localStorage.getItem], [setItem] or [removeItem]
    call that stands in the text. *)
Theorem storage_keys_are_call_arguments (text filePath : string)
  (externalDeps : list string) (v : string) :
  In v (storageKeys (extractSemanticFromText text filePath externalDeps)) ->
  v <> "" /\ allChars Regex.isKeyChar v = true
  /\ exists method ws q,
       In method ["getItem"; "setItem"; "removeItem"]
       /\ allChars isSpace ws = true /\ Regex.isQuote q = true
       /\ JsString.includes text
            ("localStorage." +++ method +++ "(" +++ ws
             +++ String q (v +++ String q "")) = true.
Proof.
  simpl. intro H. apply (proj1 (JsArrayFacts.sort_In _ _)) in H.
  apply collectCapped_In in H as (Hin & _ & _); [|lia].
  apply matchAll_In in Hin as (pre & prev & s & rest & Htext & Hre).
  apply storageRe_Some in Hre as (Hne & Hall & method & ws & q & Hm & Hws & Hq & Hs).
  split; [assumption|]. split; [assumption|].
  exists method, ws, q. repeat (split; [assumption|]).
  apply (includes_at pre _ rest). now rewrite Htext, Hs.
Qed.

Lemma storage_keys_are_call_arguments_witness :
  "theme" <> "" /\ allChars Regex.isKeyChar "theme" = true
  /\ exists method ws q,
       In method ["getItem"; "setItem"; "removeItem"]
       /\ allChars isSpace ws = true /\ Regex.isQuote q = true
       /\ JsString.includes "const t = localStorage.getItem( 'theme');"
            ("localStorage." +++ method +++ "(" +++ ws
             +++ String q ("theme" +++ String q "")) = true.
Proof.
  apply (storage_keys_are_call_arguments
           "const t = localStorage.getItem( 'theme');" "utils/theme.ts" []).
  vm_compute. now left.
Defined.

(** Every environment variable recorded for a text is a non-empty name
    of capitals, digits and underscores that stands in the text after
    [process.env.] or [import.meta.env.]. *)
Theorem env_vars_are_member_names (text filePath : string)
  (externalDeps : list string) (v : string) :
  In v (envVars (extractSemanticFromText text filePath externalDeps)) ->
  v <> "" /\ allChars Regex.isEnvChar v = true
  /\ (JsString.includes text ("process.env." +++ v) = true
      \/ JsString.includes text ("import.meta.env." +++ v) = true).
Proof.
  simpl. intro H. apply (proj1 (JsArrayFacts.sort_In _ _)) in H.
  apply collectCapped_In in H as (Hin & _ & _); [|lia].
  apply matchAll_In in Hin as (pre & prev & s & rest & Htext & Hre).
  apply envRe_Some in Hre as (Hne & Hall & Hs).
  split; [assumption|]. split; [assumption|].
  destruct Hs as [Hs|Hs]; [left|right];
    apply (includes_at pre _ rest); now rewrite Htext, Hs.
Qed.

Lemma env_vars_are_member_names_witness :
  "API_KEY" <> "" /\ allChars Regex.isEnvChar "API_KEY" = true
  /\ (JsString.includes "const k = import.meta.env.API_KEY;"
        ("process.env." +++ "API_KEY") = true
      \/ JsString.includes "const k = import.meta.env.API_KEY;"
           ("import.meta.env." +++ "API_KEY") = true).
Proof.
  apply (env_vars_are_member_names "const k = import.meta.env.API_KEY;" "utils/env.ts" []).
  vm_compute. now left.
Defined.

Lemma closeRun_complete (cls : ascii -> bool) (q : ascii) (run rest : string) :
  allChars cls run = true -> Regex.closeRun cls q rest = None ->
  Regex.closeRun cls q (run +++ String q rest) = Some (run, rest).
Proof.
  intros Hall Hrest. induction run as [|c run IH]; simpl.
  - rewrite Ascii.eqb_refl, Hrest. now destruct (cls q).
  - simpl in Hall. apply andb_true_iff in Hall as [Hc Hall].
    now rewrite Hc, IH.
Qed.

(** A single-quoted [/api/] literal is read up to the last single quote
    that its character class reaches: when a non-empty run of characters
    of the class (the single quote is one of them) stands between [/api/]
    and a single quote after which no further closing quote can be
    reached, the whole run is the endpoint, quotes inside it included. *)
Theorem api_literal_closes_at_last_quote (prev : option ascii) (run rest : string) :
  run <> "" -> allChars Regex.isApiChar run = true ->
  Regex.closeRun Regex.isApiChar Regex.squote rest = None ->
  Regex.apiRe prev (String Regex.squote ("/api/" +++ run +++ String Regex.squote rest))
  = Some ("/api/" +++ run, rest).
Proof.
  intros Hne Hall Hrest. unfold Regex.apiRe.
  change (Regex.isQuote Regex.squote) with true. cbv iota.
  assert (H1 : forall x, Regex.stripPrefix "https://" ("/api/" +++ x) = None)
    by reflexivity.
  assert (H2 : forall x, Regex.stripPrefix "http://" ("/api/" +++ x) = None)
    by reflexivity.
  assert (H3 : forall x, Regex.stripPrefix "/api/" ("/api/" +++ x) = Some x).
  { intro x. unfold Regex.stripPrefix.
    now rewrite JsStringFacts.prefix_app. }
  rewrite H1, H2, H3.
  unfold Regex.firstSome, Regex.closeRun1.
  rewrite closeRun_complete by assumption.
  destruct run; [congruence|reflexivity].
Qed.

Lemma api_literal_closes_at_last_quote_witness :
  Regex.apiRe None
    (String Regex.squote
       ("/api/" +++ "users','/api/orders" +++ String Regex.squote "];"))
  = Some ("/api/" +++ "users','/api/orders", "];").
Proof.
  apply (api_literal_closes_at_last_quote None "users','/api/orders" "];");
    [discriminate | reflexivity | reflexivity].
Defined.

(* ------------------------------------------------------------------ *)
(** ** Tags, routes and feature *)

Section TagFacts.
Import JsString JsStringFacts JsArrayFacts.

Lemma keywordFold_In (haystack : string) (kws tags : list string) (t : string) :
  In t (fold_left
          (fun tags kw => if includes haystack kw then JsArray.setAdd kw tags else tags)
          kws tags)
  <-> In t tags \/ (In t kws /\ includes haystack t = true).
Proof.
  revert tags; induction kws as [|kw kws IH]; intro tags; simpl.
  - tauto.
  - rewrite IH. destruct (includes haystack kw) eqn:E.
    + rewrite setAdd_In. split.
      * intros [[H|H]|H]; [subst; tauto | tauto | tauto].
      * intros [H|[[H|H] Hi]]; [tauto | subst; tauto | tauto].
    + split; [tauto|].
      intros [H|[[H|H] Hi]]; [tauto | subst; congruence | tauto].
Qed.

Lemma keywordFold_NoDup (haystack : string) (kws tags : list string) :
  NoDup tags ->
  NoDup (fold_left
           (fun tags kw => if includes haystack kw then JsArray.setAdd kw tags else tags)
           kws tags).
Proof.
  revert tags; induction kws as [|kw kws IH]; intros tags H; simpl; [assumption|].
  apply IH. destruct (includes haystack kw); [now apply setAdd_NoDup|assumption].
Qed.

Lemma someDepIncludes_cons (dep : string) (deps : list string) (needle : string) :
  someDepIncludes (dep :: deps) needle
  <-> includes (toLowerCase dep) needle = true \/ someDepIncludes deps needle.
Proof.
  unfold someDepIncludes. split.
  - intros (d & [<-|Hin] & Hi); [now left|right; eauto].
  - intros [Hi|(d & Hin & Hi)]; [exists dep|exists d]; simpl; auto.
Qed.

Lemma someDepIncludes_nil (needle : string) : ~ someDepIncludes [] needle.
Proof. intros (d & [] & _). Qed.

Lemma addDependencyTags_In (deps tags : list string) (t : string) :
  In t (addDependencyTags deps tags)
  <-> In t tags
      \/ (t = "flow"
          /\ (someDepIncludes deps "reactflow" \/ someDepIncludes deps "xyflow"))
      \/ (t = "qrcode" /\ someDepIncludes deps "qrcode")
      \/ (t = "zip" /\ someDepIncludes deps "jszip").
Proof.
  unfold addDependencyTags.
  revert tags; induction deps as [|dep deps IH]; intro tags; simpl.
  - pose proof someDepIncludes_nil. split; [tauto|]. intuition; exfalso; eauto.
  - rewrite IH, !someDepIncludes_cons. clear IH.
    set (d := toLowerCase dep).
    destruct (includes d "reactflow") eqn:E1; destruct (includes d "xyflow") eqn:E2;
      destruct (includes d "qrcode") eqn:E3; destruct (includes d "jszip") eqn:E4;
      simpl; rewrite ?setAdd_In; intuition (subst; auto; congruence).
Qed.

Lemma addDependencyTags_NoDup (deps tags : list string) :
  NoDup tags -> NoDup (addDependencyTags deps tags).
Proof.
  unfold addDependencyTags.
  revert tags; induction deps as [|dep deps IH]; intros tags H; simpl; [assumption|].
  apply IH.
  repeat match goal with
         | |- NoDup (if ?b then _ else _) => destruct b
         | |- NoDup (JsArray.setAdd _ _) => apply setAdd_NoDup
         end; assumption.
Qed.

Lemma routeFold (routes : list string) :
  fold_left (fun tags _ => JsArray.setAdd "route" tags) routes []
  = match routes with [] => [] | _ => ["route"] end.
Proof.
  destruct routes as [|r routes]; simpl; [reflexivity|].
  induction routes as [|r' routes IH]; simpl; [reflexivity|exact IH].
Qed.

Lemma sort_NoDup (l : list string) : NoDup l -> NoDup (JsArray.sort l).
Proof.
  intro H. apply (Permutation_NoDup (l := l)); [|assumption].
  apply Permutation_sym, sort_perm.
Qed.

End TagFacts.

Lemma tags_In (text filePath : string) (externalDeps : list string) (t : string) :
  In t (tags (extractSemanticFromText text filePath externalDeps))
  <-> tagCalledFor text filePath externalDeps t.
Proof.
  unfold extractSemanticFromText, tags, tagCalledFor.
  rewrite JsArrayFacts.sort_In, addDependencyTags_In.
  unfold addKeywordTags. rewrite !keywordFold_In, routeFold.
  destruct (inferRoutesFromPath filePath) as [|r rs]; simpl In;
    intuition congruence.
Qed.

(** The tags of a record are in ascending order and without repeats; a
    tag is present exactly when something calls for it: a route for
    [route]; for a keyword of the vocabulary, its occurrence in the
    lower-cased path or text; for [flow], [qrcode] and [zip], also a
    dependency named after the library.  So every tag is [route] or a
    keyword of the vocabulary, and a record has at most 21 tags. *)
Theorem tags_characterised (text filePath : string) (externalDeps : list string) :
  let s := extractSemanticFromText text filePath externalDeps in
  ascending (tags s) /\ NoDup (tags s)
  /\ (forall t, In t (tags s) <-> tagCalledFor text filePath externalDeps t)
  /\ incl (tags s) ("route" :: TAG_KEYWORDS)
  /\ List.length (tags s) <= 21.
Proof.
  intro s.
  assert (Hin : forall t, In t (tags s) <-> tagCalledFor text filePath externalDeps t)
    by (intro t; apply tags_In).
  assert (Hnd : NoDup (tags s)).
  { unfold s, extractSemanticFromText, tags. apply sort_NoDup.
    apply addDependencyTags_NoDup. unfold addKeywordTags.
    apply keywordFold_NoDup, keywordFold_NoDup. rewrite routeFold.
    destruct (inferRoutesFromPath filePath); repeat constructor. intros []. }
  assert (Hincl : incl (tags s) ("route" :: TAG_KEYWORDS)).
  { intros t Ht. apply Hin in Ht.
    destruct Ht as [[-> _]|[[Hk _]|[[-> _]|[[-> _]|[-> _]]]]]; simpl; auto 25. }
  split; [apply JsArrayFacts.sort_ascending|].
  split; [assumption|]. split; [assumption|]. split; [assumption|].
  apply (NoDup_incl_length Hnd Hincl).
Qed.

Section RouteFacts.
Import JsString JsStringFacts.

Lemma hasChar_of_list (c : ascii) (l : list ascii) :
  hasChar c (string_of_list_ascii l) = existsb (fun d => Ascii.eqb d c) l.
Proof. induction l as [|d l IH]; simpl; [reflexivity|now rewrite IH]. Qed.

Lemma takeWhile_Forall (f : ascii -> bool) (l : list ascii) :
  Forall (fun c => f c = true) (NodePath.takeWhile f l).
Proof.
  induction l as [|c l IH]; simpl; [constructor|].
  destruct (f c) eqn:E; constructor; assumption.
Qed.

Lemma basename_no_slash (p : string) :
  hasChar NodePath.slash (NodePath.basename p) = false.
Proof.
  unfold NodePath.basename. rewrite hasChar_of_list.
  apply not_true_is_false. intro H. apply existsb_exists in H as (c & Hin & Hc).
  apply in_rev in Hin.
  pose proof (takeWhile_Forall (fun c => negb (NodePath.isSlash c))
                (NodePath.dropWhile NodePath.isSlash (rev (list_ascii_of_string p))))
    as Hall.
  rewrite Forall_forall in Hall. specialize (Hall c Hin).
  unfold NodePath.isSlash in Hall. rewrite Hc in Hall. discriminate.
Qed.

Lemma hasChar_take (c : ascii) (n : nat) (s : string) :
  hasChar c s = false -> hasChar c (take n s) = false.
Proof.
  revert s; induction n as [|n IH]; intros [|d s]; simpl; auto.
  intro H. apply orb_false_iff in H as [H1 H2]. now rewrite H1, IH.
Qed.

Lemma stripSourceExtension_no_slash (s : string) :
  hasChar NodePath.slash s = false ->
  hasChar NodePath.slash (stripSourceExtension s) = false.
Proof.
  intro H. unfold stripSourceExtension.
  destruct (find _ _); [|assumption]. now apply hasChar_take.
Qed.

Lemma featureFromPath_page (filePath : string) :
  featureFromPath filePath = "route/page"
  <-> startsWith (replaceAllChar "\"%char "/"%char filePath) "pages/" = true.
Proof.
  unfold featureFromPath.
  repeat match goal with
         | |- context [if ?b then _ else _] => destruct b
         end; split; intro H; try reflexivity; discriminate.
Qed.

End RouteFacts.

(** A record has a route exactly when its feature is [route/page], and
    exactly then the tag [route]; it has at most one route, which is a
    slash followed by a name without slashes (the directories between
    [pages/] and the file do not appear in it). *)
Theorem routes_follow_feature (text filePath : string) (externalDeps : list string) :
  let s := extractSemanticFromText text filePath externalDeps in
  (routes s <> [] <-> feature s = "route/page")
  /\ (In "route" (tags s) <-> feature s = "route/page")
  /\ List.length (routes s) <= 1
  /\ (forall r, In r (routes s) ->
        exists name, r = "/" +++ name /\ JsString.hasChar NodePath.slash name = false).
Proof.
  intro s.
  assert (Hroutes : routes s <> [] <-> feature s = "route/page").
  { unfold s, extractSemanticFromText, routes, feature.
    rewrite featureFromPath_page. unfold inferRoutesFromPath.
    destruct (JsString.startsWith _ "pages/"); simpl.
    - destruct (String.eqb _ "index");
        (split; [intros _; reflexivity | intros _; discriminate]).
    - split; [congruence|discriminate]. }
  split; [assumption|]. split; [|split].
  - rewrite <- Hroutes. unfold s. rewrite tags_In. unfold tagCalledFor.
    change (routes (extractSemanticFromText text filePath externalDeps))
      with (inferRoutesFromPath filePath).
    split; [|tauto].
    intros [[_ H]|[[Hk _]|[[H _]|[[H _]|[H _]]]]]; [assumption| |discriminate ..].
    exfalso. simpl in Hk. repeat (destruct Hk as [Hk|Hk]; [discriminate|]).
    exact Hk.
  - unfold s, extractSemanticFromText, routes, inferRoutesFromPath.
    destruct (negb _); [simpl; lia|].
    destruct (String.eqb _ "index"); simpl; lia.
  - unfold s, extractSemanticFromText, routes, inferRoutesFromPath.
    destruct (negb _); [intros r []|].
    destruct (String.eqb _ "index").
    + intros r [<-|[]]. exists "". now split.
    + intros r [<-|[]]. eexists. split; [reflexivity|].
      apply stripSourceExtension_no_slash, basename_no_slash.
Qed.

(* ------------------------------------------------------------------ *)
(** ** The index run: discovery, failure, records *)

Section TrimFacts.
Import NodePath.

Lemma dropWhile_suffix (f : ascii -> bool) (l : list ascii) :
  exists pre, l = pre ++ dropWhile f l.
Proof.
  induction l as [|c l [pre IH]]; simpl; [now exists []|].
  destruct (f c); [|now exists []].
  exists (c :: pre). simpl. now f_equal.
Qed.

Lemma dropWhile_head (f : ascii -> bool) (l : list ascii) :
  match dropWhile f l with
  | [] => True
  | c :: _ => f c = false
  end.
Proof.
  induction l as [|c l IH]; simpl; [exact I|].
  destruct (f c) eqn:E; [exact IH|exact E].
Qed.

Lemma dropWhile_id (f : ascii -> bool) (l : list ascii) :
  match l with [] => True | c :: _ => f c = false end -> dropWhile f l = l.
Proof. destruct l as [|c l]; simpl; [reflexivity|]. now intros ->. Qed.

Lemma list_of_string_of_list (l : list ascii) :
  list_ascii_of_string (string_of_list_ascii l) = l.
Proof. apply list_ascii_of_string_of_list_ascii. Qed.

Lemma trim_idempotent (s : string) : trim (trim s) = trim s.
Proof.
  unfold trim. rewrite list_of_string_of_list.
  set (a := dropWhile isSpace (list_ascii_of_string s)).
  set (b := dropWhile isSpace (rev a)).
  assert (Ha : match a with [] => True | c :: _ => isSpace c = false end)
    by apply dropWhile_head.
  assert (Hb : match b with [] => True | c :: _ => isSpace c = false end)
    by apply dropWhile_head.
  destruct (dropWhile_suffix isSpace (rev a)) as [pre Hpre]. fold b in Hpre.
  assert (Hrb : dropWhile isSpace (rev b) = rev b).
  { apply dropWhile_id.
    assert (Hab : a = rev b ++ rev pre).
    { rewrite <- rev_app_distr, <- Hpre. symmetry. apply rev_involutive. }
    destruct (rev b) as [|c r]; [exact I|].
    rewrite Hab in Ha. exact Ha. }
  rewrite Hrb, rev_involutive, dropWhile_id by exact Hb. reflexivity.
Qed.

Lemma trim_chars (s : string) (c : ascii) :
  JsString.hasChar c (trim s) = true -> JsString.hasChar c s = true.
Proof.
  unfold trim. rewrite hasChar_of_list.
  rewrite <- (string_of_list_ascii_of_string s) at 2. rewrite hasChar_of_list.
  rewrite !existsb_exists. intros (d & Hin & Hd). exists d. split; [|assumption].
  apply in_rev in Hin.
  destruct (dropWhile_suffix isSpace
              (rev (dropWhile isSpace (list_ascii_of_string s)))) as [pre Hpre].
  assert (H1 : In d (rev (dropWhile isSpace (list_ascii_of_string s)))).
  { rewrite Hpre. apply in_app_iff. now right. }
  apply in_rev in H1.
  destruct (dropWhile_suffix isSpace (list_ascii_of_string s)) as [pre' Hpre'].
  rewrite Hpre'. apply in_app_iff. now right.
Qed.

End TrimFacts.

(** The paths that the listing of tracked files delivers are not empty,
    carry no white space at either end, and hold no line feed: one path
    per non-blank line of the output of git. *)
Theorem tracked_paths_are_trimmed_lines (w : World) (tracked : list string)
  (p : string) :
  gitLsFiles w = Returned tracked -> In p tracked ->
  p <> "" /\ trim p = p /\ JsString.hasChar newline p = false.
Proof.
  unfold gitLsFiles. destruct (gitLsFilesStdout w) as [stdout|]; [|discriminate].
  simpl. intro H. inversion H; subst tracked. clear H. intro Hin.
  apply filter_In in Hin as [Hin Ht].
  apply in_map_iff in Hin as (line & <- & Hline).
  split; [intro E; rewrite E in Ht; discriminate|].
  split; [apply trim_idempotent|].
  apply not_true_is_false. intro Hc. apply trim_chars in Hc.
  apply JsStringFacts.split_no_sep in Hline. congruence.
Qed.

Lemma tracked_paths_are_trimmed_lines_witness :
  "pages/home.tsx" <> "" /\ trim "pages/home.tsx" = "pages/home.tsx"
  /\ JsString.hasChar newline "pages/home.tsx" = false.
Proof.
  apply (tracked_paths_are_trimmed_lines sampleWorld
           ["README.md"; "pages/home.tsx"; "utils/fmt.ts"] "pages/home.tsx");
    [reflexivity | simpl; auto].
Defined.

Section RunFacts.
Import JsObj JsObjFacts.

Lemma keys_set (V : Type) (k : string) (v : V) (o : JsObj.t V) :
  keys (set k v o) = JsArray.setAdd k (keys o).
Proof.
  unfold JsArray.setAdd. induction o as [|[k' v'] o IH]; simpl; [reflexivity|].
  destruct (String.eqb k k') eqn:E; simpl.
  - apply String.eqb_eq in E. now subst.
  - rewrite IH. now destruct (JsArray.mem k (keys o)).
Qed.

Lemma buildFiles_order (w : World) (previousIndex : option Index.t)
  (aliases : list AliasRule) (sourceFiles : list string) :
  forall acc result : JsObj.t FileEntry.t,
    buildFiles w previousIndex aliases sourceFiles acc = Returned result ->
    keys result = fold_left (fun s x => JsArray.setAdd x s) sourceFiles (keys acc).
Proof.
  induction sourceFiles as [|relPath later IH]; intros acc result Hrun;
    simpl in Hrun.
  - now inversion Hrun.
  - destruct (analyzeFile w previousIndex aliases relPath) as [entry|];
      [|discriminate].
    simpl in Hrun. apply IH in Hrun. now rewrite keys_set in Hrun.
Qed.

(** The stages of a run that returns. *)
Lemma generateIndex_stages (w : World) (previousIndex : option Index.t)
  (now : string) (out : IndexOutput) :
  generateIndex w previousIndex now = Returned out ->
  exists aliases tracked nextFiles g,
    readTsconfigPaths w (cwd w) = Returned aliases
    /\ gitLsFiles w = Returned tracked
    /\ buildFiles w previousIndex aliases (filter isSourceFile tracked) []
       = Returned nextFiles
    /\ buildGraph w (cwd w) aliases nextFiles = Returned g
    /\ Index.files (index out) = nextFiles
    /\ Index.graph (index out) = g
    /\ Index.counts (index out)
       = {| trackedFiles := List.length tracked;
            sourceFiles := List.length (filter isSourceFile tracked) |}
    /\ aliasPaths (Index.project (index out)) = aliases.
Proof.
  unfold generateIndex, indexWith. intro Hrun.
  destruct (readTsconfigPaths w (cwd w)) as [aliases|]; [|discriminate].
  destruct (gitLsFiles w) as [tracked|] eqn:Hgit; [|discriminate].
  simpl in Hrun.
  destruct (buildFiles w previousIndex aliases (filter isSourceFile tracked) [])
    as [nextFiles|] eqn:Hfiles; [|discriminate].
  simpl in Hrun.
  destruct (buildGraph w (cwd w) aliases nextFiles) as [g|] eqn:Hgraph;
    [|discriminate].
  simpl in Hrun. inversion Hrun; subst out. simpl.
  exists aliases, tracked, nextFiles, g. repeat split; assumption.
Qed.

End RunFacts.

(** The files of a snapshot are the tracked paths with a source
    extension, each once, in the order in which git lists them; nothing
    else is indexed, whatever the previous snapshot holds.  The two counts
    are the numbers of listed lines, so a path listed more than once is
    counted as often. *)
Theorem indexed_files_are_tracked_sources (w : World)
  (previousIndex : option Index.t) (now : string) (out : IndexOutput) :
  generateIndex w previousIndex now = Returned out ->
  exists tracked,
    gitLsFiles w = Returned tracked
    /\ JsObj.keys (Index.files (index out))
       = JsArray.setOfList (filter isSourceFile tracked)
    /\ NoDup (JsObj.keys (Index.files (index out)))
    /\ (forall p, In p (JsObj.keys (Index.files (index out)))
                  <-> In p tracked /\ isSourceFile p = true)
    /\ trackedFiles (Index.counts (index out)) = List.length tracked
    /\ sourceFiles (Index.counts (index out))
       = List.length (filter isSourceFile tracked)
    /\ List.length (JsObj.keys (Index.files (index out)))
       <= sourceFiles (Index.counts (index out)).
Proof.
  intro Hrun.
  apply generateIndex_stages in Hrun
    as (aliases & tracked & nextFiles & g & _ & Hgit & Hfiles & _ & -> & _ & -> & _).
  exists tracked. apply buildFiles_order in Hfiles. simpl in Hfiles.
  fold (JsArray.setOfList (filter isSourceFile tracked)) in Hfiles.
  rewrite Hfiles. simpl.
  split; [assumption|]. split; [reflexivity|].
  split; [apply JsArrayFacts.setOfList_NoDup|].
  split; [intro p; rewrite JsArrayFacts.setOfList_In; apply filter_In|].
  split; [reflexivity|]. split; [reflexivity|].
  apply NoDup_incl_length; [apply JsArrayFacts.setOfList_NoDup|].
  intros p Hp. exact (proj1 (JsArrayFacts.setOfList_In _ _) Hp).
Qed.

Lemma indexed_files_are_tracked_sources_witness :
  match sampleRun with
  | Returned out =>
      exists tracked,
        gitLsFiles sampleWorld = Returned tracked
        /\ JsObj.keys (Index.files (index out))
           = JsArray.setOfList (filter isSourceFile tracked)
        /\ NoDup (JsObj.keys (Index.files (index out)))
        /\ (forall p, In p (JsObj.keys (Index.files (index out)))
                      <-> In p tracked /\ isSourceFile p = true)
        /\ trackedFiles (Index.counts (index out)) = List.length tracked
        /\ sourceFiles (Index.counts (index out))
           = List.length (filter isSourceFile tracked)
        /\ List.length (JsObj.keys (Index.files (index out)))
           <= sourceFiles (Index.counts (index out))
  | Thrown => False
  end.
Proof.
  destruct sampleRun as [out|] eqn:E.
  - exact (indexed_files_are_tracked_sources sampleWorld None _ out E).
  - vm_compute in E. discriminate E.
Defined.

Section FailureFacts.
Import JsObj JsObjFacts.

Variable w : World.





End FailureFacts.


(** Every record of a run is the record computed for the present text
    of its file. *)
Lemma run_record_for (w : World) (previousIndex : option Index.t)
  (now : string) (out : IndexOutput) (p : string) (e : FileEntry.t) :
  generateIndex w previousIndex now = Returned out ->
  JsObj.get p (Index.files (index out)) = Some e ->
  exists text,
    fsReadFile w (NodePath.join2 (cwd w) p) = Returned text
    /\ e = recordFor w previousIndex (aliasPaths (Index.project (index out))) p text.
Proof.
  intros Hrun Hget.
  apply generateIndex_stages in Hrun
    as (aliases & tracked & nextFiles & g & _ & _ & Hfiles & _ & Hf & _ & _ & ->).
  rewrite Hf in Hget. clear Hf.
  pose proof (buildFiles_records w aliases previousIndex _ _ _ Hfiles) as [Hin Hout].
  destruct (in_dec string_dec p (filter isSourceFile tracked)) as [Hp|Hp].
  - destruct (Hin p Hp) as (text & Hread & Hrec).
    exists text. split; [assumption|congruence].
  - rewrite (Hout p Hp) in Hget. discriminate.
Qed.

(** Every record of a snapshot belongs to the present text of its file:
    the file can be read, the stored hash is the hash of that text, the
    semantic facts are present, and the record is either computed from
    that text in this run or the record of the previous snapshot. *)
Theorem records_match_present_text (w : World) (previousIndex : option Index.t)
  (now : string) (out : IndexOutput) (p : string) (e : FileEntry.t) :
  generateIndex w previousIndex now = Returned out ->
  JsObj.get p (Index.files (index out)) = Some e ->
  exists text,
    fsReadFile w (NodePath.join2 (cwd w) p) = Returned text
    /\ FileEntry.sha256 e = Some (sha256Hex w text)
    /\ FileEntry.semantic e <> None
    /\ (e = freshEntry w (aliasPaths (Index.project (index out))) p text
              (sha256Hex w text)
        \/ JsObj.get p (previousFiles previousIndex) = Some e).
Proof.
  intros Hrun Hget.
  destruct (run_record_for _ _ _ _ _ _ Hrun Hget) as (text & Hread & ->).
  set (aliases := aliasPaths (Index.project (index out))).
  exists text. split; [assumption|].
  destruct (recordFor_reusable w aliases previousIndex p text) as [Hsha Hsem].
  split; [assumption|]. split; [assumption|].
  unfold recordFor.
  destruct (JsObj.get p (previousFiles previousIndex)) as [prev|]; [|now left].
  destruct (canReuse previousIndex (Some prev) (sha256Hex w text)); auto.
Qed.

Lemma records_match_present_text_witness :
  match sampleRun with
  | Returned out =>
      match JsObj.get "utils/fmt.ts" (Index.files (index out)) with
      | Some e =>
          exists text,
            fsReadFile sampleWorld (NodePath.join2 (cwd sampleWorld) "utils/fmt.ts")
            = Returned text
            /\ FileEntry.sha256 e = Some (sha256Hex sampleWorld text)
            /\ FileEntry.semantic e <> None
            /\ (e = freshEntry sampleWorld (aliasPaths (Index.project (index out)))
                      "utils/fmt.ts" text (sha256Hex sampleWorld text)
                \/ JsObj.get "utils/fmt.ts" (previousFiles None) = Some e)
      | None => False
      end
  | Thrown => False
  end.
Proof.
  destruct sampleRun as [out|] eqn:E.
  - destruct (JsObj.get "utils/fmt.ts" (Index.files (index out))) as [e|] eqn:G.
    + exact (records_match_present_text sampleWorld None _ out "utils/fmt.ts" e E G).
    + vm_compute in E. inversion E as [Hout]. rewrite <- Hout in G.
      vm_compute in G. discriminate G.
  - vm_compute in E. discriminate E.
Defined.

(* ------------------------------------------------------------------ *)
(** ** The graph of a snapshot *)

Section GraphShape.
Import JsObj JsObjFacts.

Variable w : World.
Variable projectRootAbs : string.
Variable aliases : list AliasRule.
Variable nextFiles : JsObj.t FileEntry.t.

Lemma graphLoop_deps (paths : list string) :
  forall g g' : Graph,
    graphLoop w projectRootAbs aliases nextFiles paths g = Returned g' ->
    NoDup paths ->
    (forall p, In p paths -> get p (deps g) = None) ->
    keys (deps g') = keys (deps g) ++ paths
    /\ (forall p file,
          In p paths -> get p nextFiles = Some file ->
          get p (deps g')
          = Some (depsOf w projectRootAbs p aliases (rawSpecifiers file)))
    /\ (forall p, ~ In p paths -> get p (deps g') = get p (deps g)).
Proof.
  induction paths as [|relPath later IH]; intros g g' Hrun Hnd Hfresh;
    simpl in Hrun.
  - inversion Hrun; subst. rewrite app_nil_r. repeat split. intros p file [].
  - destruct (get relPath nextFiles) as [file|] eqn:Hfile; [|discriminate].
    inversion Hnd as [|? ? Hnotin Hnd']; subst.
    apply IH in Hrun as (Hkeys & Hin & Hout); [|assumption|].
    + simpl in Hkeys, Hin, Hout. repeat split.
      * rewrite Hkeys, set_fresh by (apply Hfresh; now left).
        unfold keys. rewrite map_app. simpl. now rewrite <- app_assoc.
      * intros p file' [<-|Hp] Hget.
        -- rewrite Hout by assumption. rewrite get_set_eq. congruence.
        -- now apply Hin.
      * intros p Hp. rewrite Hout by (intro; apply Hp; now right).
        apply get_set_ne. intro. apply Hp. now left.
    + intros p Hp. simpl. rewrite get_set_ne.
      * apply Hfresh. now right.
      * intro. subst p. contradiction.
Qed.

Lemma pushAll_nonempty (relPath : string) (L : list string)
  (rd : JsObj.t (list string)) (allPaths : list string) :
  (forall Q, get Q rd = Some [] -> In Q allPaths) ->
  forall Q, get Q (fold_left (pushReverse relPath) L rd) = Some [] -> In Q allPaths.
Proof.
  revert rd; induction L as [|to L IH]; intros rd H Q; simpl; [apply H|].
  apply IH. intros Q' HQ'. rewrite get_pushReverse in HQ'.
  destruct (String.eqb Q' to); [|now apply H].
  inversion HQ' as [Heq]. destruct (orEmpty (get to rd)); discriminate.
Qed.

Lemma graphLoop_reverse (allPaths paths : list string) :
  forall g g' : Graph,
    graphLoop w projectRootAbs aliases nextFiles paths g = Returned g' ->
    (forall Q, get Q (reverseDeps g) = Some [] -> In Q allPaths) ->
    forall Q, get Q (reverseDeps g') = Some [] -> In Q allPaths.
Proof.
  induction paths as [|relPath later IH]; intros g g' Hrun H Q HQ;
    simpl in Hrun.
  - inversion Hrun; subst. now apply H.
  - destruct (get relPath nextFiles) as [file|]; [|discriminate].
    eapply IH; [exact Hrun| |exact HQ]. simpl. now apply pushAll_nonempty.
Qed.

(** The shape of the graph built over files with distinct keys. *)
Lemma buildGraph_shape (g : Graph) :
  NoDup (keys nextFiles) ->
  buildGraph w projectRootAbs aliases nextFiles = Returned g ->
  keys (deps g) = keys nextFiles
  /\ (forall p file,
        get p nextFiles = Some file ->
        get p (deps g)
        = Some (depsOf w projectRootAbs p aliases (rawSpecifiers file)))
  /\ (forall Q importers,
        get Q (reverseDeps g) = Some importers ->
        ascending importers
        /\ incl importers (keys nextFiles)
        /\ (importers = [] -> In Q (keys nextFiles))).
Proof.
  intros Hnd Hrun.
  destruct (buildGraph_symmetric w projectRootAbs aliases nextFiles g Hnd Hrun)
    as [Hsym _].
  unfold buildGraph in Hrun.
  set (rd0 := fold_left (fun rd p => set p [] rd) (keys nextFiles) []) in *.
  destruct (graphLoop w projectRootAbs aliases nextFiles (keys nextFiles)
              {| deps := []; reverseDeps := rd0 |}) as [g0|] eqn:E;
    [|discriminate].
  simpl in Hrun. inversion Hrun; subst g. clear Hrun.
  pose proof (graphLoop_deps _ _ _ E Hnd (fun p _ => eq_refl))
    as (Hkeys & Hin & _).
  simpl in Hkeys, Hin |- *.
  split; [assumption|]. split.
  - intros p file Hget. apply Hin; [|assumption].
    now apply get_Some_In_keys in Hget.
  - intros Q importers HQ. split; [|split].
    + rewrite get_map_sort in HQ.
      destruct (get Q (reverseDeps g0)); [|discriminate].
      inversion HQ. apply JsArrayFacts.sort_ascending.
    + intros P HP.
      assert (Hd : inLocalDeps
                     {| deps := deps g0;
                        reverseDeps :=
                          map (fun kv => (fst kv, JsArray.sort (snd kv)))
                            (reverseDeps g0) |} P Q).
      { apply Hsym. exists importers. now split. }
      destruct Hd as (entry & He & _). simpl in He.
      rewrite <- Hkeys. now apply get_Some_In_keys in He.
    + intros ->. rewrite get_map_sort in HQ.
      destruct (get Q (reverseDeps g0)) as [l0|] eqn:E0; [|discriminate].
      simpl in HQ. inversion HQ as [Hs].
      assert (l0 = []) as ->.
      { apply length_zero_iff_nil. rewrite <- JsArrayFacts.sort_length, Hs.
        reflexivity. }
      apply (graphLoop_reverse (keys nextFiles) _ _ _ E); [|assumption].
      intros Q' HQ'. simpl in HQ'. unfold rd0 in HQ'.
      rewrite initial_reverseDeps in HQ'.
      destruct (JsArray.mem Q' (keys nextFiles)) eqn:Em; [|discriminate].
      now apply JsArrayFacts.mem_In.
Qed.

End GraphShape.

(** The graph of a snapshot covers its files: [deps] has one entry per
    file, in the order of the files, computed from the file's record;
    every list of [reverseDeps] is in ascending order and names files
    only; and a key of [reverseDeps] that is not a file (the target of an
    import that is not itself indexed) has at least one importer. *)
Theorem graph_covers_files (w : World) (previousIndex : option Index.t)
  (now : string) (out : IndexOutput) :
  generateIndex w previousIndex now = Returned out ->
  let ix := index out in
  JsObj.keys (deps (Index.graph ix)) = JsObj.keys (Index.files ix)
  /\ (forall p file,
        JsObj.get p (Index.files ix) = Some file ->
        JsObj.get p (deps (Index.graph ix))
        = Some (depsOf w (cwd w) p (aliasPaths (Index.project ix))
                  (rawSpecifiers file)))
  /\ (forall Q importers,
        JsObj.get Q (reverseDeps (Index.graph ix)) = Some importers ->
        ascending importers
        /\ incl importers (JsObj.keys (Index.files ix))
        /\ (importers = [] -> In Q (JsObj.keys (Index.files ix)))).
Proof.
  intros Hrun ix. unfold ix.
  apply generateIndex_stages in Hrun
    as (aliases & tracked & nextFiles & g & _ & _ & Hfiles & Hgraph & -> & -> & _ & ->).
  apply buildGraph_shape; [|assumption].
  apply buildFiles_keys in Hfiles as [Hnd _]. apply Hnd. constructor.
Qed.

Lemma graph_covers_files_witness :
  match sampleRun with
  | Returned out =>
      let ix := index out in
      JsObj.keys (deps (Index.graph ix)) = JsObj.keys (Index.files ix)
      /\ (forall p file,
            JsObj.get p (Index.files ix) = Some file ->
            JsObj.get p (deps (Index.graph ix))
            = Some (depsOf sampleWorld (cwd sampleWorld) p
                      (aliasPaths (Index.project ix)) (rawSpecifiers file)))
      /\ (forall Q importers,
            JsObj.get Q (reverseDeps (Index.graph ix)) = Some importers ->
            ascending importers
            /\ incl importers (JsObj.keys (Index.files ix))
            /\ (importers = [] -> In Q (JsObj.keys (Index.files ix))))
  | Thrown => False
  end.
Proof.
  destruct sampleRun as [out|] eqn:E.
  - exact (graph_covers_files sampleWorld None _ out E).
  - vm_compute in E. discriminate E.
Defined.

(* ------------------------------------------------------------------ *)
(** ** Classification of specifiers *)

Section ClassifyFacts.
Import JsString JsStringFacts.

Variable w : World.
Variable projectRootAbs relPath : string.
Variable aliases : list AliasRule.

Lemma resolveLocalImport_looksLocal (spec resolved : string) :
  resolveLocalImport w projectRootAbs relPath spec aliases = Some resolved ->
  looksLocal spec aliases = true.
Proof.
  unfold resolveLocalImport.
  destruct (candidateRel relPath spec aliases) as [rel|] eqn:E; [|discriminate].
  intros _. exact (candidate_looksLocal _ _ _ _ E).
Qed.

(** A specifier that does not look local is external, whatever the file
    system holds; one that looks local is never external. *)
Lemma classify_cases (spec : string) :
  (looksLocal spec aliases = false
   /\ classify w projectRootAbs relPath spec aliases
      = EXTERNAL (externalPackageName spec))
  \/ (looksLocal spec aliases = true
      /\ ((exists resolved,
             resolved <> ""
             /\ resolveLocalImport w projectRootAbs relPath spec aliases
                = Some resolved
             /\ classify w projectRootAbs relPath spec aliases = LOCAL resolved)
          \/ classify w projectRootAbs relPath spec aliases
             = LOCAL_UNRESOLVED spec)).
Proof.
  unfold classify.
  destruct (resolveLocalImport w projectRootAbs relPath spec aliases)
    as [resolved|] eqn:E.
  - right. rewrite (resolveLocalImport_looksLocal _ _ E). split; [reflexivity|].
    destruct (truthy resolved) eqn:Et; [left|now right].
    exists resolved. repeat split. intros ->. discriminate.
  - destruct (looksLocal spec aliases); [right|left]; auto.
Qed.

Lemma externalsOf_classified (raw : list string) :
  externalsOf (map (fun spec => classify w projectRootAbs relPath spec aliases) raw)
  = map externalPackageName (filter (fun spec => negb (looksLocal spec aliases)) raw).
Proof.
  induction raw as [|spec raw IH]; simpl; [reflexivity|].
  destruct (classify_cases spec) as [[Hl ->]|[Hl [(r & _ & _ & ->)| ->]]];
    rewrite Hl; simpl; now rewrite IH.
Qed.

Lemma taggerFold (raw acc : list string) :
  fold_left
    (fun external spec =>
       if looksLocal spec aliases then external
       else external ++ [externalPackageName spec])
    raw acc
  = acc ++ map externalPackageName
             (filter (fun spec => negb (looksLocal spec aliases)) raw).
Proof.
  revert acc; induction raw as [|spec raw IH]; intro acc; simpl.
  - now rewrite app_nil_r.
  - rewrite IH. destruct (looksLocal spec aliases); simpl; [reflexivity|].
    now rewrite <- app_assoc.
Qed.

Lemma depsOf_fold (raw : list string) (acc : DepEntry) :
  fold_left
    (fun acc spec => pushEdge acc (classify w projectRootAbs relPath spec aliases))
    raw acc
  = fold_left pushEdge
      (map (fun spec => classify w projectRootAbs relPath spec aliases) raw) acc.
Proof.
  revert acc; induction raw as [|spec raw IH]; intro acc; simpl; [reflexivity|].
  apply IH.
Qed.

End ClassifyFacts.

(** Which specifiers are external is decided by their spelling and the
    alias rules alone, not by the file system: the [external] list of a
    file holds the package identities of the specifiers that are neither
    relative, nor root-absolute, nor rewritten by an alias, one per
    specifier, sorted.  The set handed to the tagger holds the same
    identities, each once. *)
Theorem externals_are_the_non_local_specifiers (w : World)
  (projectRootAbs relPath : string) (aliases : list AliasRule)
  (raw : list string) :
  let packages :=
    map externalPackageName
      (filter (fun spec => negb (looksLocal spec aliases)) raw) in
  external (depsOf w projectRootAbs relPath aliases raw) = JsArray.sort packages
  /\ externalDepsOf raw aliases = JsArray.sort (JsArray.setOfList packages)
  /\ (forall x, In x (externalDepsOf raw aliases)
                <-> In x (external (depsOf w projectRootAbs relPath aliases raw))).
Proof.
  intro packages.
  assert (H1 : external (depsOf w projectRootAbs relPath aliases raw)
               = JsArray.sort packages).
  { unfold depsOf. simpl. rewrite depsOf_fold.
    destruct (pushEdges_lists
                (map (fun spec => classify w projectRootAbs relPath spec aliases) raw)
                {| local := []; localUnresolved := []; external := [] |})
      as (_ & _ & H).
    rewrite H. simpl. now rewrite externalsOf_classified. }
  assert (H2 : externalDepsOf raw aliases = JsArray.sort (JsArray.setOfList packages)).
  { unfold externalDepsOf. now rewrite taggerFold. }
  split; [assumption|]. split; [assumption|].
  intro x. rewrite H1, H2, !JsArrayFacts.sort_In. apply JsArrayFacts.setOfList_In.
Qed.

Section PackageFacts.
Import JsString JsStringFacts.

Lemma join_cons2 (sep a b : string) (l : list string) :
  join sep (a :: b :: l) = a +++ sep +++ join sep (b :: l).
Proof. reflexivity. Qed.

Lemma startsWith_first_segment (spec p0 : string) (rest : list string) (c : ascii) :
  split NodePath.slash spec = p0 :: rest ->
  c <> NodePath.slash ->
  startsWith p0 (String c "") = startsWith spec (String c "").
Proof.
  intros Hs Hc. pose proof (join_split NodePath.slash spec) as Hj.
  rewrite Hs in Hj.
  assert (Hspec : exists tail, spec = p0 +++ tail
                               /\ (tail = "" \/ exists t, tail = String NodePath.slash t)).
  { destruct rest as [|p1 rest].
    - exists "". simpl in Hj. rewrite append_nil_r. auto.
    - rewrite join_cons2 in Hj. eexists. split; [symmetry; exact Hj|].
      right. simpl. eauto. }
  destruct Hspec as (tail & -> & Htail).
  destruct p0 as [|d p0]; simpl.
  - destruct Htail as [->|[t ->]]; simpl; [reflexivity|].
    unfold startsWith. simpl.
    destruct (ascii_dec c NodePath.slash); [contradiction|reflexivity].
  - unfold startsWith. simpl. destruct (ascii_dec c d); [|reflexivity].
    assert (He : forall x, String.prefix "" x = true) by (now intros []).
    now rewrite !He.
Qed.

End PackageFacts.

(** A package identity is a prefix of its specifier, holds a slash only
    for a scoped specifier, and then only one; reducing it again changes
    nothing. *)
Theorem package_identity_is_stable (spec : string) :
  let pkg := externalPackageName spec in
  externalPackageName pkg = pkg
  /\ JsString.startsWith spec pkg = true
  /\ List.length (JsString.split NodePath.slash pkg)
     <= (if JsString.startsWith spec "@" then 2 else 1).
Proof.
  intro pkg. unfold pkg, externalPackageName.
  pose proof (JsStringFacts.join_split NodePath.slash spec) as Hj.
  pose proof (JsStringFacts.split_nonempty NodePath.slash spec) as Hne.
  assert (Hfree : forall p, In p (JsString.split NodePath.slash spec) ->
                            JsString.hasChar NodePath.slash p = false)
    by (intros p; apply JsStringFacts.split_no_sep).
  destruct (JsString.split NodePath.slash spec) as [|p0 rest] eqn:Hs; [congruence|].
  assert (Hat : JsString.startsWith p0 "@" = JsString.startsWith spec "@").
  { apply (startsWith_first_segment spec p0 rest "@"%char Hs). discriminate. }
  assert (H0 : JsString.split NodePath.slash p0 = [p0]).
  { apply NodePathFacts.split_slashfree, Hfree. now left. }
  assert (Hprefix0 : JsString.startsWith spec p0 = true).
  { apply JsStringFacts.startsWith_iff. rewrite <- Hj.
    destruct rest as [|p1 rest]; [exists ""|eexists;  rewrite join_cons2];
      [now rewrite JsStringFacts.append_nil_r|reflexivity]. }
  destruct (JsString.startsWith spec "@") eqn:Escoped.
  - destruct rest as [|p1 rest].
    + assert (spec = p0) as -> by (now rewrite <- Hj).
      rewrite Escoped, Hs. simpl. split; [reflexivity|]. split; [assumption|lia].
    + assert (H1 : JsString.split NodePath.slash p1 = [p1]).
      { apply NodePathFacts.split_slashfree, Hfree. right. now left. }
      assert (Hsplit : JsString.split NodePath.slash (p0 +++ "/" +++ p1) = [p0; p1]).
      { change (p0 +++ "/" +++ p1) with (p0 +++ String NodePath.slash p1).
        now rewrite NodePathFacts.split_app, H0, H1. }
      assert (Hpre : JsString.startsWith (p0 +++ "/" +++ p1) "@" = true).
      { apply JsStringFacts.startsWith_iff in Hat as [r ->].
        apply JsStringFacts.startsWith_iff. eexists.
        rewrite JsStringFacts.append_assoc. reflexivity. }
      rewrite Hpre, Hsplit. simpl List.length.
      split; [reflexivity|]. split; [|lia].
      apply JsStringFacts.startsWith_iff. rewrite <- Hj, join_cons2.
      destruct rest as [|p2 rest]; [exists ""|eexists; rewrite join_cons2].
      * simpl JsString.join. now rewrite JsStringFacts.append_nil_r.
      * rewrite !JsStringFacts.append_assoc. reflexivity.
  - rewrite Hat, H0. simpl List.length. split; [reflexivity|].
    split; [assumption|lia].
Qed.

(* ------------------------------------------------------------------ *)
(** ** The description pass: coverage and counters *)

Section DescribeCoverage.
Import JsObj JsObjFacts.

Lemma main_progress (localeLe : string -> string -> bool) (ix : Index.t)
  (previousDescriptions : option Describe.Snapshot.t) (now : string) :
  Describe.main localeLe ix previousDescriptions now
  = let st := describeProgress ix (previousOrEmpty previousDescriptions) in
    {| Describe.descriptions :=
         {| Describe.Snapshot.schemaVersion := Describe.DESC_SCHEMA_VERSION;
            Describe.Snapshot.generatedAt := Some now;
            Describe.Snapshot.files := Describe.nextFiles st |};
       Describe.descriptionsMd := Render.text (Describe.lines localeLe now st) |}.
Proof. reflexivity. Qed.

Lemma describe_records (localeLe : string -> string -> bool) (ix : Index.t)
  (previousDescriptions : option Describe.Snapshot.t) (now : string) :
  NoDup (keys (Index.files ix)) ->
  Describe.Snapshot.files
    (Describe.descriptions (Describe.main localeLe ix previousDescriptions now))
  = map (fun kv =>
           (fst kv,
            describedEntry (deps (Index.graph ix))
              (previousOrEmpty previousDescriptions) (fst kv) (snd kv)))
      (Index.files ix).
Proof.
  intro Hnd. rewrite main_progress. simpl. unfold describeProgress.
  now rewrite describe_files by (assumption || reflexivity).
Qed.

Lemma describedEntry_cases (deps : JsObj.t DepEntry) (prev : Describe.Snapshot.t)
  (p : string) (file : FileEntry.t) :
  let e := describedEntry deps prev p file in
  Describe.Entry.sha256 e = FileEntry.sha256 file
  /\ Describe.Entry.description e <> None
  /\ ((carriable prev (p, file) = false /\ e = Describe.fresh p file (get p deps))
      \/ (carriable prev (p, file) = true
          /\ exists previous,
               get p (Describe.Snapshot.files prev) = Some previous
               /\ e = Describe.carry previous prev)).
Proof.
  unfold describedEntry, carriable. simpl.
  destruct (get p (Describe.Snapshot.files prev)) as [previous|].
  - destruct (Describe.canCarry prev (Some previous) (FileEntry.sha256 file)) eqn:E.
    + apply canCarry_iff in E as ((h & _ & Hp & Hf) & _ & Hd). simpl.
      split; [congruence|]. split; [assumption|]. right. eauto.
    + simpl. split; [reflexivity|]. split; [discriminate|]. now left.
  - simpl. split; [reflexivity|]. split; [discriminate|].
    left. split; [|reflexivity].
    unfold Describe.canCarry. apply andb_false_r.
Qed.

Lemma step_counter (deps : JsObj.t DepEntry) (prev : Describe.Snapshot.t)
  (st : Describe.Progress) (kv : string * FileEntry.t) :
  Describe.carried (Describe.step deps prev st kv)
  = Describe.carried st + (if carriable prev kv then 1 else 0)
  /\ Describe.updated (Describe.step deps prev st kv)
     = Describe.updated st + (if carriable prev kv then 0 else 1).
Proof.
  destruct kv as [p file]. unfold carriable, Describe.step. cbn [fst snd].
  destruct (get p (Describe.Snapshot.files prev)) as [previous|].
  - destruct (Describe.canCarry prev (Some previous) (FileEntry.sha256 file));
      simpl; lia.
  - assert (Describe.canCarry prev None (FileEntry.sha256 file) = false) as ->
      by (unfold Describe.canCarry; apply andb_false_r).
    simpl. lia.
Qed.

Lemma step_counters (deps : JsObj.t DepEntry) (prev : Describe.Snapshot.t)
  (files : JsObj.t FileEntry.t) :
  forall st : Describe.Progress,
    let st' := fold_left (Describe.step deps prev) files st in
    Describe.carried st'
    = Describe.carried st + List.length (filter (carriable prev) files)
    /\ Describe.updated st' + Describe.carried st'
       = Describe.updated st + Describe.carried st + List.length files.
Proof.
  induction files as [|kv files IH]; intro st; cbn [fold_left].
  - simpl. lia.
  - destruct (IH (Describe.step deps prev st kv)) as [H1 H2].
    destruct (step_counter deps prev st kv) as [H3 H4].
    cbv zeta in H1, H2 |- *. rewrite H2, H1, H3, H4. clear IH H1 H2 H3 H4.
    cbn [filter]. destruct (carriable prev kv); simpl; lia.
Qed.

End DescribeCoverage.

(** The description pass writes one record per file of the index, in the
    order of the index, and nothing else: records of the previous snapshot
    for files that have left the index are dropped.  Each record carries
    the hash of its file's index record and a description; it is the
    previous record carried over when that can be carried, and a freshly
    written one otherwise. *)
Theorem descriptions_cover_index (localeLe : string -> string -> bool)
  (ix : Index.t) (previousDescriptions : option Describe.Snapshot.t)
  (now : string) :
  NoDup (JsObj.keys (Index.files ix)) ->
  let prev := previousOrEmpty previousDescriptions in
  let written :=
    Describe.Snapshot.files
      (Describe.descriptions (Describe.main localeLe ix previousDescriptions now)) in
  JsObj.keys written = JsObj.keys (Index.files ix)
  /\ forall p file,
       JsObj.get p (Index.files ix) = Some file ->
       exists e,
         JsObj.get p written = Some e
         /\ Describe.Entry.sha256 e = FileEntry.sha256 file
         /\ Describe.Entry.description e <> None
         /\ ((carriable prev (p, file) = false
              /\ e = Describe.fresh p file (JsObj.get p (deps (Index.graph ix))))
             \/ (carriable prev (p, file) = true
                 /\ exists previous,
                      JsObj.get p (Describe.Snapshot.files prev) = Some previous
                      /\ e = Describe.carry previous prev)).
Proof.
  intros Hnd prev written. unfold written. rewrite describe_records by assumption.
  split.
  - unfold JsObj.keys. rewrite map_map. reflexivity.
  - intros p file Hget. apply JsObjFacts.get_Some_In in Hget.
    eexists. split.
    + apply (get_map_entry _ _
               (fun kv => describedEntry (deps (Index.graph ix)) prev (fst kv) (snd kv))
               _ _ _ Hnd Hget).
    + apply describedEntry_cases.
Qed.

Lemma descriptions_cover_index_witness :
  match sampleRun with
  | Returned out =>
      let ix := index out in
      let prev := previousOrEmpty (Some cachedDescriptions) in
      let written :=
        Describe.Snapshot.files
          (Describe.descriptions
             (Describe.main String.leb ix (Some cachedDescriptions)
                "2026-01-02T00:00:00.000Z")) in
      JsObj.keys written = JsObj.keys (Index.files ix)
      /\ forall p file,
           JsObj.get p (Index.files ix) = Some file ->
           exists e,
             JsObj.get p written = Some e
             /\ Describe.Entry.sha256 e = FileEntry.sha256 file
             /\ Describe.Entry.description e <> None
             /\ ((carriable prev (p, file) = false
                  /\ e = Describe.fresh p file (JsObj.get p (deps (Index.graph ix))))
                 \/ (carriable prev (p, file) = true
                     /\ exists previous,
                          JsObj.get p (Describe.Snapshot.files prev) = Some previous
                          /\ e = Describe.carry previous prev))
  | Thrown => False
  end.
Proof.
  destruct sampleRun as [out|] eqn:E.
  - apply (descriptions_cover_index String.leb (index out) (Some cachedDescriptions)
             "2026-01-02T00:00:00.000Z").
    vm_compute in E. inversion E. simpl.
    repeat constructor; simpl; intuition discriminate.
  - vm_compute in E. discriminate E.
Defined.

(** The two counters in the header of [descriptions.md] add up to the
    number of files of the index; the second one counts the files whose
    description could be carried over, the first one all the others. *)
Theorem description_counters_add_up (localeLe : string -> string -> bool)
  (ix : Index.t) (previousDescriptions : option Describe.Snapshot.t)
  (now : string) :
  let prev := previousOrEmpty previousDescriptions in
  let st := describeProgress ix prev in
  Describe.descriptionsMd (Describe.main localeLe ix previousDescriptions now)
  = Render.text (Describe.lines localeLe now st)
  /\ Describe.carried st = List.length (filter (carriable prev) (Index.files ix))
  /\ Describe.updated st
     = List.length (filter (fun kv => negb (carriable prev kv)) (Index.files ix))
  /\ Describe.updated st + Describe.carried st = List.length (Index.files ix).
Proof.
  intros prev st. split; [reflexivity|].
  destruct (step_counters (deps (Index.graph ix)) prev (Index.files ix)
              {| Describe.nextFiles := []; Describe.updated := 0;
                 Describe.carried := 0 |}) as [H1 H2].
  simpl in H1, H2. fold (describeProgress ix prev) in H1, H2. fold st in H1, H2.
  split; [assumption|]. split; [|assumption].
  pose proof (filter_length (carriable prev) (Index.files ix)) as Hl.
  lia.
Qed.

Lemma run_files_NoDup (w : World) (previousIndex : option Index.t)
  (now : string) (out : IndexOutput) :
  generateIndex w previousIndex now = Returned out ->
  NoDup (JsObj.keys (Index.files (index out))).
Proof.
  intro Hrun.
  apply generateIndex_stages in Hrun
    as (aliases & tracked & nextFiles & g & _ & _ & Hfiles & _ & -> & _).
  apply buildFiles_keys in Hfiles as [Hnd _]. apply Hnd. constructor.
Qed.

(** After a run of the pipeline the descriptions are in step with the
    repository: there is one description record per indexed file, and the
    hash stored in it is the hash of the present text of that file, also
    when the record was carried over from an earlier run. *)
Theorem sync_descriptions_match_present_text (w : World)
  (localeLe : string -> string -> bool) (before : Snapshots)
  (nowIndex nowDescribe : string) (out : SyncOutput) :
  syncRepo w localeLe before nowIndex nowDescribe = Returned out ->
  let written :=
    Describe.Snapshot.files (Describe.descriptions (describeOut out)) in
  JsObj.keys written = JsObj.keys (Index.files (index (indexOut out)))
  /\ forall p e,
       JsObj.get p written = Some e ->
       exists text,
         fsReadFile w (NodePath.join2 (cwd w) p) = Returned text
         /\ Describe.Entry.sha256 e = Some (sha256Hex w text)
         /\ Describe.Entry.description e <> None.
Proof.
  unfold syncRepo. intro Hsync.
  destruct (generateIndex w (indexJson before) nowIndex) as [io|] eqn:Hrun;
    [|discriminate].
  simpl in Hsync. inversion Hsync; subst out. clear Hsync.
  cbn [describeOut indexOut]. cbv zeta.
  pose proof (run_files_NoDup _ _ _ _ Hrun) as Hnd.
  rewrite describe_records by assumption.
  split.
  - unfold JsObj.keys. rewrite map_map. reflexivity.
  - intros p e Hget. apply JsObjFacts.get_Some_In in Hget.
    apply in_map_iff in Hget as ([p' file] & Heq & Hin). simpl in Heq.
    inversion Heq; subst p' e. clear Heq.
    apply JsObjFacts.get_In in Hin; [|assumption].
    destruct (run_record_for _ _ _ _ _ _ Hrun Hin) as (text & Hread & Hrec).
    assert (Hsha : FileEntry.sha256 file = Some (sha256Hex w text)).
    { rewrite Hrec. apply recordFor_reusable. }
    destruct (describedEntry_cases (deps (Index.graph (index io)))
                (previousOrEmpty (descriptionsJson before)) p file)
      as (Hsame & Hdesc & _).
    exists text. split; [assumption|]. split; [congruence|assumption].
Qed.

Lemma sync_descriptions_match_present_text_witness :
  match sampleSync with
  | Returned out =>
      let written :=
        Describe.Snapshot.files (Describe.descriptions (describeOut out)) in
      JsObj.keys written = JsObj.keys (Index.files (index (indexOut out)))
      /\ forall p e,
           JsObj.get p written = Some e ->
           exists text,
             fsReadFile sampleWorld (NodePath.join2 (cwd sampleWorld) p)
             = Returned text
             /\ Describe.Entry.sha256 e = Some (sha256Hex sampleWorld text)
             /\ Describe.Entry.description e <> None
  | Thrown => False
  end.
Proof.
  destruct sampleSync as [out|] eqn:E.
  - exact (sync_descriptions_match_present_text sampleWorld String.leb _ _ _ out E).
  - vm_compute in E. discriminate E.
Defined.

(* ------------------------------------------------------------------ *)
(** ** The digest: rankings and counts *)

Section RankingFacts.
Variable A : Type.
Variable count : A -> nat.

Lemma insertDesc_perm (x : A) (l : list A) :
  Permutation (JsArray.insertDesc count x l) (x :: l).
Proof.
  induction l as [|y l IH]; simpl; [reflexivity|].
  destruct (count x <? count y); [|reflexivity].
  rewrite IH. apply perm_swap.
Qed.

Lemma sortDesc_perm (l : list A) : Permutation (JsArray.sortDesc count l) l.
Proof.
  induction l as [|x l IH]; simpl; [reflexivity|].
  rewrite insertDesc_perm. now constructor.
Qed.

Lemma insertDesc_descending (x : A) (l : list A) :
  descendingBy count l -> descendingBy count (JsArray.insertDesc count x l).
Proof.
  unfold descendingBy. induction l as [|y l IH]; intro H; simpl.
  - repeat constructor.
  - inversion H as [|? ? Hl Hy]; subst.
    destruct (count x <? count y) eqn:E.
    + apply Nat.ltb_lt in E. constructor; [now apply IH|].
      apply Forall_forall. intros z Hz.
      apply (Permutation_in _ (insertDesc_perm x l)) in Hz.
      destruct Hz as [<-|Hz]; [lia|].
      rewrite Forall_forall in Hy. now apply Hy.
    + apply Nat.ltb_ge in E. constructor; [assumption|].
      constructor; [assumption|].
      apply Forall_forall. intros z Hz. rewrite Forall_forall in Hy.
      specialize (Hy z Hz). lia.
Qed.

Lemma sortDesc_descending (l : list A) :
  descendingBy count (JsArray.sortDesc count l).
Proof.
  induction l as [|x l IH]; simpl; [constructor|].
  now apply insertDesc_descending.
Qed.

Lemma descending_firstn (n : nat) (l : list A) :
  descendingBy count l ->
  descendingBy count (firstn n l)
  /\ forall x y, In x (firstn n l) -> In y (skipn n l) -> count y <= count x.
Proof.
  unfold descendingBy. revert l; induction n as [|n IH]; intros l H.
  - simpl. split; [constructor|]. intros x y [].
  - destruct l as [|a l]; simpl; [split; [constructor|intros x y []]|].
    inversion H as [|? ? Hl Ha]; subst.
    destruct (IH l Hl) as [Hs Hle]. rewrite Forall_forall in Ha. split.
    + constructor; [assumption|]. apply Forall_forall.
      intros z Hz. apply Ha. now apply In_firstn in Hz.
    + intros x y [<-|Hx] Hy; [|now apply Hle].
      apply Ha. rewrite <- (firstn_skipn n l). apply in_app_iff. now right.
Qed.

End RankingFacts.

(** The list of most referenced files is a true ranking: it holds the
    25 files with the most importers (all files when there are fewer), in
    descending order of that number; each entry shows a file of the index
    with its number of importers, and no file left out has more importers
    than a file listed. *)
Theorem most_referenced_is_a_ranking (allPaths : list string)
  (reverseDeps : JsObj.t (list string)) :
  let top := Render.topReferenced allPaths reverseDeps in
  List.length top = Nat.min 25 (List.length allPaths)
  /\ descendingBy snd top
  /\ (forall p n, In (p, n) top -> In p allPaths /\ n = referencedBy reverseDeps p)
  /\ (forall p, In p allPaths ->
        In (p, referencedBy reverseDeps p) top
        \/ forall q n, In (q, n) top -> referencedBy reverseDeps p <= n).
Proof.
  intro top. unfold top, Render.topReferenced.
  set (items := map (fun p => (p, List.length (orEmpty (JsObj.get p reverseDeps))))
                  allPaths).
  set (sorted := JsArray.sortDesc snd items).
  pose proof (sortDesc_perm _ snd items) as Hperm. fold sorted in Hperm.
  destruct (descending_firstn _ snd 25 sorted (sortDesc_descending _ snd items))
    as [Hdesc Hle].
  split; [|split; [assumption|split]].
  - rewrite length_firstn, (Permutation_length Hperm). unfold items.
    now rewrite length_map.
  - intros p n Hin. apply In_firstn in Hin.
    apply (Permutation_in _ Hperm) in Hin. unfold items in Hin.
    apply in_map_iff in Hin as (p' & Heq & Hp). inversion Heq; subst. now split.
  - intros p Hp.
    assert (Hin : In (p, referencedBy reverseDeps p) sorted).
    { apply (Permutation_in _ (Permutation_sym Hperm)). unfold items.
      apply in_map_iff. exists p. now split. }
    rewrite <- (firstn_skipn 25 sorted) in Hin.
    apply in_app_iff in Hin as [Hin|Hin]; [now left|right].
    intros q n Hq. apply (Hle _ _ Hq Hin).
Qed.

Section CountFacts.
Import JsObj JsObjFacts.

Lemma get_bump (d k : string) (m : JsObj.t nat) :
  get d (JsArray.bump k m)
  = if String.eqb d k
    then Some (match get k m with Some n => n | None => 0 end + 1)
    else get d m.
Proof.
  unfold JsArray.bump. rewrite get_set. rewrite String.eqb_sym.
  destruct (String.eqb d k) eqn:E; [|reflexivity].
  reflexivity.
Qed.

Lemma bumpAll_get (ks : list string) (d : string) :
  forall m : JsObj.t nat,
    get d (fold_left (fun m k => JsArray.bump k m) ks m)
    = match get d m with
      | Some c => Some (c + occurrences d ks)
      | None => if occurrences d ks =? 0 then None else Some (occurrences d ks)
      end.
Proof.
  unfold occurrences.
  induction ks as [|k ks IH]; intro m; simpl.
  - destruct (get d m); [f_equal; lia|reflexivity].
  - rewrite IH, get_bump. destruct (String.eqb d k) eqn:E; simpl.
    + apply String.eqb_eq in E. subst k.
      destruct (get d m); f_equal; lia.
    + reflexivity.
Qed.

Lemma fold_flat_map (B : Type) (f : B -> list string) (l : list B) :
  forall m : JsObj.t nat,
    fold_left (fun m p => fold_left (fun m t => JsArray.bump t m) (f p) m) l m
    = fold_left (fun m t => JsArray.bump t m) (flat_map f l) m.
Proof.
  induction l as [|p l IH]; intro m; simpl; [reflexivity|].
  now rewrite IH, fold_left_app.
Qed.

End CountFacts.

Lemma toPosixPath_id (p : string) : toPosixPath p = p.
Proof. apply (JsStringFacts.join_split NodePath.slash). Qed.

(** The counts of the digest are exact: a directory is listed with the
    number of indexed files that lie directly in it, a tag with the number
    of times it occurs in the tag lists of the indexed files, and what
    does not occur is not listed. *)
Theorem digest_counts_are_exact (allPaths : list string)
  (nextFiles : JsObj.t FileEntry.t) (k : string) :
  let dirs := map NodePath.dirname allPaths in
  let tagsUsed := flat_map (fun p => Render.tagsOf (JsObj.get p nextFiles)) allPaths in
  JsObj.get k (Render.dirCounts allPaths)
  = (if occurrences k dirs =? 0 then None else Some (occurrences k dirs))
  /\ JsObj.get k (Render.tagCounts allPaths nextFiles)
     = (if occurrences k tagsUsed =? 0 then None else Some (occurrences k tagsUsed)).
Proof.
  intros dirs tagsUsed. split.
  - unfold Render.dirCounts.
    assert (H : forall m,
              fold_left (fun m p => JsArray.bump (toPosixPath (NodePath.dirname p)) m)
                allPaths m
              = fold_left (fun m d => JsArray.bump d m) dirs m).
    { unfold dirs. induction allPaths as [|p l IH]; intro m; simpl; [reflexivity|].
      now rewrite toPosixPath_id, IH. }
    rewrite H, bumpAll_get. reflexivity.
  - unfold Render.tagCounts. rewrite fold_flat_map, bumpAll_get. reflexivity.
Qed.

(* ------------------------------------------------------------------ *)
(** ** Resolved imports name existing files *)

Section RoundTrip.
Import JsString JsStringFacts NodePath NodePathFacts.

Lemma normalizeAcc_app (b : bool) (l1 l2 : list string) :
  forall res,
    normalizeAcc b res (l1 ++ l2)
    = normalizeAcc b (rev (normalizeAcc b res l1)) l2.
Proof.
  induction l1 as [|seg l1 IH]; intro res; simpl.
  - now rewrite rev_involutive.
  - destruct (String.eqb seg "" || String.eqb seg "."); [apply IH|].
    destruct (String.eqb seg ".."); [|apply IH].
    destruct res as [|last res']; [apply IH|].
    destruct (String.eqb last ".."); apply IH.
Qed.

Lemma resolveScan_acc (l : list string) :
  forall acc,
    resolveScan l acc
    = (fst (resolveScan l "") +++ acc, snd (resolveScan l "")).
Proof.
  induction l as [|p l IH]; intro acc; simpl; [reflexivity|].
  destruct (String.eqb p ""); [apply IH|].
  destruct (startsWith p "/"); simpl.
  - now rewrite !append_assoc.
  - rewrite IH. rewrite (IH (p +++ "/")). simpl.
    now rewrite !append_assoc.
Qed.

Lemma resolveScan_slash (cwd : string) (l : list string) :
  startsWith cwd "/" = true ->
  exists P, fst (resolveScan (l ++ [cwd]) "") = P +++ "/".
Proof.
  intro H. induction l as [|p l [P IH]]; simpl.
  - rewrite H. destruct (String.eqb cwd "") eqn:E.
    + apply String.eqb_eq in E. subst. discriminate.
    + exists cwd. reflexivity.
  - destruct (String.eqb p ""); [eauto|].
    destruct (startsWith p "/"); [exists p; reflexivity|].
    rewrite resolveScan_acc, IH. simpl. exists (P +++ "/" +++ p).
    now rewrite !append_assoc.
Qed.

Lemma split_trailing (s : string) :
  split slash (s +++ "/") = split slash s ++ [""].
Proof.
  change (s +++ "/") with (s +++ String slash ""). now rewrite split_app.
Qed.

Lemma normalizeAcc_trailing (b : bool) (res l : list string) :
  normalizeAcc b res (l ++ [""]) = normalizeAcc b res l.
Proof. rewrite normalizeAcc_app. simpl. apply rev_involutive. Qed.

(** Resolving one more relative argument continues the normalization
    from the segments resolved so far. *)
Lemma resolve_snoc (cwd : string) (args : list string) (r : string) :
  startsWith cwd "/" = true ->
  r <> "" -> startsWith r "/" = false ->
  exists rs,
    Forall (fun s => cleanSegment s = true) rs
    /\ resolve cwd args = "/" +++ join "/" rs
    /\ resolve cwd (args ++ [r])
       = "/" +++ join "/" (normalizeAcc false (rev rs) (split slash r)).
Proof.
  intros Habs Hne Hrel.
  pose proof (resolveScan_absolute cwd (rev args) "" Habs) as Ha.
  destruct (resolveScan_slash cwd (rev args) Habs) as [P HP].
  assert (HS : resolveScan (rev args ++ [cwd]) "" = (P +++ "/", true)).
  { destruct (resolveScan (rev args ++ [cwd]) ""). simpl in *. congruence. }
  assert (HS2 : resolveScan (rev (args ++ [r]) ++ [cwd]) ""
                = (P +++ String slash (r +++ "/"), true)).
  { rewrite rev_app_distr. simpl rev. simpl app. cbn [resolveScan].
    destruct (String.eqb r "") eqn:E; [apply String.eqb_eq in E; congruence|].
    rewrite Hrel, resolveScan_acc, HS. simpl. f_equal.
    rewrite !append_assoc. reflexivity. }
  unfold resolve. rewrite HS, HS2. simpl negb. cbv iota. unfold normalizeString.
  exists (normalizeAcc false [] (split slash P)).
  rewrite split_trailing, normalizeAcc_trailing.
  split; [|split; [reflexivity|]].
  - apply normalizeAcc_output_clean; [|constructor].
    apply Forall_forall. intros s Hs. now apply split_no_sep in Hs.
  - do 2 f_equal.
    rewrite split_app, split_trailing, app_assoc, normalizeAcc_trailing.
    apply normalizeAcc_app.
Qed.

Lemma resolve_snoc_empty (cwd : string) (args : list string) :
  resolve cwd (args ++ [""]) = resolve cwd args.
Proof. unfold resolve. rewrite rev_app_distr. reflexivity. Qed.

Lemma normalizeAcc_pop (popped res rest : list string) :
  Forall (fun s => cleanSegment s = true) popped ->
  normalizeAcc false (popped ++ res)
    (map (fun _ => "..") popped ++ rest)
  = normalizeAcc false res rest.
Proof.
  induction 1 as [|x popped Hx _ IH]; simpl; [reflexivity|].
  unfold cleanSegment in Hx.
  apply andb_true_iff in Hx as [Hx _]. apply andb_true_iff in Hx as [_ Hx].
  apply negb_true_iff in Hx. rewrite Hx. exact IH.
Qed.

Lemma map_const_rev (A : Type) (f : list A) :
  map (fun _ => "..") (rev f) = map (fun _ => "..") f.
Proof.
  induction f as [|x f IH]; simpl; [reflexivity|].
  rewrite map_app, IH. simpl. clear IH.
  induction f as [|y f IH]; simpl; [reflexivity|]. now rewrite IH.
Qed.

Lemma stripCommon_spec (a b f t : list string) :
  stripCommon a b = (f, t) -> exists c, a = c ++ f /\ b = c ++ t.
Proof.
  revert b; induction a as [|x a IH]; intros b H; simpl in H.
  - inversion H; subst. now exists [].
  - destruct b as [|y b]; [inversion H; subst; now exists []|].
    destruct (String.eqb x y) eqn:E.
    + apply String.eqb_eq in E. subst y.
      destruct (IH b H) as (c & -> & ->). now exists (x :: c).
    + inversion H; subst. now exists [].
Qed.

Lemma split_join_slashfree (segs : list string) :
  Forall (fun s => hasChar slash s = false) segs -> segs <> [] ->
  split slash (join "/" segs) = segs.
Proof.
  unfold join. induction segs as [|x [|y l] IH]; intros Hc Hne.
  - congruence.
  - inversion Hc; subst. simpl. now apply split_slashfree.
  - inversion Hc; subst.
    change (String.concat "/" (x :: y :: l))
      with (x +++ String slash (String.concat "/" (y :: l))).
    rewrite split_app, IH by (assumption || discriminate).
    now rewrite split_slashfree.
Qed.

Lemma clean_slashfree (segs : list string) :
  Forall (fun s => cleanSegment s = true) segs -> Forall (fun s => hasChar slash s = false) segs.
Proof.
  intro H. eapply Forall_impl; [|exact H]. apply cleanSegment_slashfree.
Qed.

Lemma normalize_join (segs : list string) :
  Forall (fun s => cleanSegment s = true) segs -> normalizeAcc false [] (split slash (join "/" segs)) = segs.
Proof.
  intro H. destruct segs as [|x l]; [reflexivity|].
  rewrite split_join by (assumption || discriminate).
  now rewrite normalizeAcc_clean.
Qed.

Lemma segments_resolved (segs : list string) :
  Forall (fun s => cleanSegment s = true) segs -> segments ("/" +++ join "/" segs) = segs.
Proof.
  intro H. unfold segments.
  change ("/" +++ join "/" segs) with (String slash (join "/" segs)).
  rewrite split_sep. simpl filter.
  destruct segs as [|x l]; [reflexivity|].
  rewrite split_join by (assumption || discriminate).
  apply forallb_filter_id. apply forallb_forall. intros s Hs.
  rewrite Forall_forall in H. specialize (H s Hs). unfold cleanSegment in H.
  apply andb_true_iff in H as [H _]. apply andb_true_iff in H as [H _].
  now apply andb_true_iff in H as [H _].
Qed.

(** A resolved path resolves to itself. *)
Lemma resolve_resolved (cwd : string) (segs : list string) :
  Forall (fun s => cleanSegment s = true) segs -> resolve cwd ["/" +++ join "/" segs] = "/" +++ join "/" segs.
Proof.
  intro H.
  assert (HS : resolveScan (rev ["/" +++ join "/" segs] ++ [cwd]) ""
               = (String slash (join "/" segs +++ "/"), true)).
  { simpl rev. simpl app. cbn [resolveScan].
    change (String.eqb (String "/" (join "/" segs)) "") with false. cbv iota.
    assert (startsWith (String "/" (join "/" segs)) "/" = true) as ->
      by (apply startsWith_iff; eexists; reflexivity).
    reflexivity. }
  unfold resolve. rewrite HS. simpl negb. cbv iota. unfold normalizeString.
  rewrite split_sep, split_trailing.
  change (normalizeAcc false [] ("" :: split slash (join "/" segs) ++ [""]))
    with (normalizeAcc false [] (split slash (join "/" segs) ++ [""])).
  now rewrite normalizeAcc_trailing, normalize_join.
Qed.

Lemma join_relative_head (segs : list string) :
  Forall (fun s => s <> "" /\ hasChar slash s = false) segs ->
  startsWith (join "/" segs) "/" = false.
Proof.
  intro H. destruct segs as [|x l]; [reflexivity|].
  inversion H as [|? ? [Hne Hs] _]; subst.
  destruct x as [|c x]; [congruence|].
  simpl in Hs. apply orb_false_iff in Hs as [Hc _].
  destruct (startsWith (join "/" (String c x :: l)) "/") eqn:E; [|reflexivity].
  apply startsWith_iff in E as [r Hr]. unfold join in Hr.
  destruct l; simpl in Hr; inversion Hr; subst; discriminate.
Qed.

(** The round trip of the resolver: a path relative to the root,
    resolved against the root, is the path it was computed from. *)
Lemma resolve_relative (cwd root : string) (segs : list string) :
  startsWith cwd "/" = true -> Forall (fun s => cleanSegment s = true) segs ->
  resolve cwd [root; relative cwd root ("/" +++ join "/" segs)]
  = "/" +++ join "/" segs.
Proof.
  intros Habs Hsegs. unfold relative.
  destruct (resolve_form cwd [root] Habs) as (rs & Hrs & Hroot).
  rewrite Hroot, resolve_resolved, !segments_resolved by assumption.
  destruct (stripCommon rs segs) as [f t] eqn:Hstrip.
  destruct (stripCommon_spec _ _ _ _ Hstrip) as (c & -> & ->).
  apply Forall_app in Hrs as [Hc Hf]. apply Forall_app in Hsegs as [_ Ht].
  set (r := join "/" (map (fun _ => "..") f ++ t)).
  assert (Hfree : Forall (fun s => s <> "" /\ hasChar slash s = false)
                    (map (fun _ : string => "..") f ++ t)).
  { apply Forall_app. split.
    - apply Forall_forall. intros s Hs. apply in_map_iff in Hs as (_ & <- & _).
      split; [discriminate|reflexivity].
    - eapply Forall_impl; [|exact Ht]. intros s Hs. split.
      + intros ->. discriminate.
      + now apply cleanSegment_slashfree. }
  destruct (map (fun _ : string => "..") f ++ t) as [|h rest] eqn:Hlist.
  - apply app_eq_nil in Hlist as [Hf0 ->].
    destruct f; [|discriminate]. rewrite !app_nil_r in *.
    change [root; r] with ([root] ++ [r]). unfold r. simpl join.
    now rewrite resolve_snoc_empty.
  - assert (Hne : r <> "").
    { unfold r. inversion Hfree as [|? ? [Hh _] _]; subst.
      destruct h; [congruence|]. destruct rest; discriminate. }
    assert (Hrel : startsWith r "/" = false) by (now apply join_relative_head).
    change [root; r] with ([root] ++ [r]).
    destruct (resolve_snoc cwd [root] r Habs Hne Hrel) as (rs' & Hclean & Hrs' & ->).
    rewrite Hroot in Hrs'.
    assert (rs' = c ++ f) as ->.
    { apply (f_equal segments) in Hrs'.
      rewrite !segments_resolved in Hrs' by (assumption || (apply Forall_app; now split)).
      now symmetry. }
    do 2 f_equal. unfold r.
    rewrite split_join_slashfree;
      [|eapply Forall_impl; [|exact Hfree]; now intros s [_ Hs] | discriminate].
    rewrite <- Hlist, rev_app_distr, <- (map_const_rev _ f).
    rewrite normalizeAcc_pop by now apply Forall_rev.
    rewrite normalizeAcc_clean by assumption. now rewrite rev_involutive.
Qed.

End RoundTrip.

Section ProbeFacts.
Import JsString JsStringFacts NodePath NodePathFacts.

Lemma hasChar_app (c : ascii) (a b : string) :
  hasChar c (a +++ b) = hasChar c a || hasChar c b.
Proof.
  induction a as [|d a IH]; simpl; [reflexivity|]. now rewrite IH, orb_assoc.
Qed.

Lemma long_segment_clean (s : string) :
  3 <= String.length s -> hasChar slash s = false -> cleanSegment s = true.
Proof.
  intros Hlen Hs. unfold cleanSegment. rewrite Hs.
  destruct s as [|a [|b [|c s]]]; simpl in Hlen; try lia.
  cbn [String.eqb].
  now destruct (Ascii.eqb a "."), (Ascii.eqb b ".").
Qed.

Lemma extension_shape (ext : string) :
  In ext RESOLVE_EXTENSIONS ->
  3 <= String.length ext /\ hasChar slash ext = false
  /\ cleanSegment ("index" +++ ext) = true.
Proof.
  simpl. intro H.
  repeat (destruct H as [<-|H]; [repeat split; simpl; lia|]). destruct H.
Qed.

Lemma join_last_append (init : list string) (last ext : string) :
  join "/" (init ++ [last]) +++ ext = join "/" (init ++ [last +++ ext]).
Proof.
  destruct init as [|x init]; [reflexivity|].
  rewrite !join_snoc by discriminate. now rewrite !append_assoc.
Qed.

(** Every probe of the resolver is a resolved path. *)
Lemma tryPaths_resolved_form (segs : list string) (abs : string) :
  Forall (fun s => cleanSegment s = true) segs ->
  In abs (tryPaths ("/" +++ join "/" segs)) ->
  exists segs',
    Forall (fun s => cleanSegment s = true) segs'
    /\ abs = "/" +++ join "/" segs'.
Proof.
  intros Hc Hin. unfold tryPaths in Hin.
  destruct (truthy (extname ("/" +++ join "/" segs))).
  - destruct Hin as [<-|[]]. eauto.
  - apply in_app_iff in Hin as [Hin|Hin];
      apply in_map_iff in Hin as (ext & <- & Hext);
      destruct (extension_shape ext Hext) as (Hlen & Hfree & Hindex).
    + destruct (rev segs) as [|last rinit] eqn:Hrev.
      * apply (f_equal (@rev string)) in Hrev. rewrite rev_involutive in Hrev.
        subst segs. exists [ext]. split; [|reflexivity].
        constructor; [|constructor]. now apply long_segment_clean.
      * apply (f_equal (@rev string)) in Hrev. rewrite rev_involutive in Hrev.
        simpl in Hrev. subst segs.
        apply Forall_app in Hc as [Hinit Hlast].
        inversion Hlast as [|? ? Hl _]; subst.
        exists (rev rinit ++ [last +++ ext]). split.
        -- apply Forall_app. split; [assumption|].
           constructor; [|constructor]. apply long_segment_clean.
           ++ rewrite length_append. lia.
           ++ rewrite hasChar_app, Hfree.
              now rewrite (cleanSegment_slashfree _ Hl).
        -- rewrite append_assoc. now rewrite join_last_append.
    + rewrite join2_resolved by assumption.
      exists (segs ++ ["index" +++ ext]). split.
      * apply Forall_app. split; [assumption|]. now constructor.
      * destruct segs as [|x l]; [reflexivity|].
        rewrite join_snoc by discriminate.
        assert (Hne : join "/" (x :: l) <> "")
          by (apply join_clean_nonempty; [assumption|discriminate]).
        destruct (join "/" (x :: l)) as [|c J] eqn:EJ; [congruence|].
        reflexivity.
Qed.

Lemma firstExisting_Some (w : World) (paths : list string) (p : string) :
  firstExisting w paths = Some p -> In p paths /\ pathExists w p = true.
Proof.
  induction paths as [|q paths IH]; simpl; [discriminate|].
  destruct (pathExists w q) eqn:E.
  - intro H. inversion H; subst. auto.
  - intro H. destruct (IH H). auto.
Qed.

(** What the resolver returns, resolved against the root, is the probe
    that it found. *)
Lemma resolveLocalImport_probe (w : World)
  (projectRootAbs importerRel spec : string) (aliases : list AliasRule)
  (resolved : string) :
  startsWith (cwd w) "/" = true ->
  resolveLocalImport w projectRootAbs importerRel spec aliases = Some resolved ->
  exists rel,
    candidateRel importerRel spec aliases = Some rel
    /\ firstExisting w (tryPaths (resolve (cwd w) [projectRootAbs; rel]))
       = Some (resolve (cwd w) [projectRootAbs; resolved]).
Proof.
  intros Habs H. unfold resolveLocalImport in H.
  destruct (candidateRel importerRel spec aliases) as [rel|]; [|discriminate].
  destruct (negb (truthy rel)); [discriminate|].
  exists rel. split; [reflexivity|].
  destruct (resolve_form (cwd w) [projectRootAbs; rel] Habs) as (segs & Hc & Hcand).
  rewrite Hcand in H |- *.
  destruct (firstExisting w (tryPaths ("/" +++ join "/" segs))) as [absPath|] eqn:E;
    [|discriminate].
  inversion H; subst resolved. clear H.
  apply firstExisting_Some in E as [Hin _].
  destruct (tryPaths_resolved_form segs absPath Hc Hin) as (segs' & Hc' & ->).
  now rewrite toPosixPath_id, resolve_relative.
Qed.

End ProbeFacts.

(** A specifier that the resolver resolves names an existing file: the
    path returned, resolved against the project root, is the first probe
    of the candidate that exists in the file system (the working
    directory being absolute). *)
Theorem resolved_import_exists (w : World)
  (projectRootAbs importerRel spec : string) (aliases : list AliasRule)
  (resolved : string) :
  JsString.startsWith (cwd w) "/" = true ->
  resolveLocalImport w projectRootAbs importerRel spec aliases = Some resolved ->
  exists rel,
    candidateRel importerRel spec aliases = Some rel
    /\ In (NodePath.resolve (cwd w) [projectRootAbs; resolved])
         (tryPaths (NodePath.resolve (cwd w) [projectRootAbs; rel]))
    /\ pathExists w (NodePath.resolve (cwd w) [projectRootAbs; resolved]) = true.
Proof.
  intros Habs H.
  destruct (resolveLocalImport_probe _ _ _ _ _ _ Habs H) as (rel & Hrel & Hfirst).
  exists rel. split; [assumption|].
  now apply firstExisting_Some in Hfirst.
Qed.

Lemma resolved_import_exists_witness :
  exists rel,
    candidateRel "pages/home.tsx" "../utils/fmt" [] = Some rel
    /\ In (NodePath.resolve (cwd sampleWorld) ["/repo"; "utils/fmt.ts"])
         (tryPaths (NodePath.resolve (cwd sampleWorld) ["/repo"; rel]))
    /\ pathExists sampleWorld
         (NodePath.resolve (cwd sampleWorld) ["/repo"; "utils/fmt.ts"]) = true.
Proof.
  apply (resolved_import_exists sampleWorld "/repo" "pages/home.tsx" "../utils/fmt" []);
    reflexivity.
Defined.

(** Every local edge of a snapshot names an existing file: a member of
    [deps[P].local] is a non-empty path that, resolved against the project
    root, exists in the file system. *)
Theorem local_edges_name_existing_files (w : World)
  (previousIndex : option Index.t) (now : string) (out : IndexOutput)
  (P Q : string) :
  JsString.startsWith (cwd w) "/" = true ->
  generateIndex w previousIndex now = Returned out ->
  inLocalDeps (Index.graph (index out)) P Q ->
  Q <> "" /\ pathExists w (NodePath.resolve (cwd w) [cwd w; Q]) = true.
Proof.
  intros Habs Hrun (entry & Hentry & HQ).
  pose proof (run_files_NoDup _ _ _ _ Hrun) as Hnd.
  apply generateIndex_stages in Hrun
    as (aliases & tracked & nextFiles & g & _ & _ & _ & Hgraph & Hf & Hg & _ & _).
  rewrite Hf in Hnd. rewrite Hg in Hentry. clear Hf Hg.
  destruct (buildGraph_shape w (cwd w) aliases nextFiles g Hnd Hgraph)
    as (Hkeys & Hdeps & _).
  assert (Hin : In P (JsObj.keys nextFiles)).
  { rewrite <- Hkeys. now apply JsObjFacts.get_Some_In_keys in Hentry. }
  apply JsObjFacts.In_keys_get in Hin as [file Hfile].
  rewrite (Hdeps P file Hfile) in Hentry. inversion Hentry; subst entry.
  clear Hentry. unfold depsOf in HQ. simpl in HQ.
  apply (proj1 (JsArrayFacts.sort_In _ _)) in HQ.
  rewrite depsOf_fold in HQ.
  destruct (pushEdges_lists
              (map (fun spec => classify w (cwd w) P spec aliases) (rawSpecifiers file))
              {| local := []; localUnresolved := []; external := [] |})
    as (Hl & _ & _).
  rewrite Hl in HQ. simpl in HQ. unfold localsOf in HQ.
  apply in_flat_map in HQ as (edge & Hedge & HQ).
  apply in_map_iff in Hedge as (spec & <- & _).
  destruct (classify_cases w (cwd w) P aliases spec)
    as [[_ Hc]|[_ [(r & Hne & Hres & Hc)|Hc]]]; rewrite Hc in HQ;
    try (now destruct HQ).
  destruct HQ as [<-|[]]. split; [assumption|].
  destruct (resolveLocalImport_probe w (cwd w) P spec aliases r Habs Hres)
    as (rel & _ & Hfirst).
  now apply firstExisting_Some in Hfirst.
Qed.

Lemma local_edges_name_existing_files_witness :
  match sampleRun with
  | Returned out =>
      "utils/fmt.ts" <> ""
      /\ pathExists sampleWorld
           (NodePath.resolve (cwd sampleWorld) [cwd sampleWorld; "utils/fmt.ts"]) = true
  | Thrown => False
  end.
Proof.
  destruct sampleRun as [out|] eqn:E.
  - apply (local_edges_name_existing_files sampleWorld None _ out
             "pages/home.tsx" "utils/fmt.ts" eq_refl E).
    vm_compute in E. inversion E.
    eexists. split; [reflexivity|]. simpl. auto.
  - vm_compute in E. discriminate E.
Defined.

(* ------------------------------------------------------------------ *)
(** ** The syntax extractor, the extraction guards, page descriptions *)

(** The three lists that the syntax extractor delivers for a file are
    sets in ascending order: each holds what the walk over the syntax
    tree found (static specifiers, dynamic specifiers, exported names),
    every item once. *)
Theorem parsed_lists_are_sorted_sets (w : World) (text fileName : string) :
  let parsed := parseTsFile w text fileName in
  let facts := tsScan w (scriptKindOf fileName) fileName text in
  (ascending (Parsed.importSpecifiers parsed)
   /\ NoDup (Parsed.importSpecifiers parsed)
   /\ forall x, In x (Parsed.importSpecifiers parsed) <-> In x (staticSpecifiers facts))
  /\ (ascending (Parsed.dynamicImportSpecifiers parsed)
      /\ NoDup (Parsed.dynamicImportSpecifiers parsed)
      /\ forall x, In x (Parsed.dynamicImportSpecifiers parsed)
                   <-> In x (dynamicSpecifiers facts))
  /\ (ascending (named (Parsed.exports parsed))
      /\ NoDup (named (Parsed.exports parsed))
      /\ forall x, In x (named (Parsed.exports parsed)) <-> In x (exportedNames facts))
  /\ default (Parsed.exports parsed) = hasExportAssignment facts.
Proof.
  intros parsed facts.
  assert (H : forall l,
            ascending (JsArray.sort (JsArray.setOfList l))
            /\ NoDup (JsArray.sort (JsArray.setOfList l))
            /\ forall x, In x (JsArray.sort (JsArray.setOfList l)) <-> In x l).
  { intro l. split; [apply JsArrayFacts.sort_ascending|]. split.
    - apply sort_NoDup, JsArrayFacts.setOfList_NoDup.
    - intro x. rewrite JsArrayFacts.sort_In. apply JsArrayFacts.setOfList_In. }
  unfold parsed, parseTsFile. simpl. fold facts.
  repeat split; apply H.
Qed.

Section GuardFacts.
Import JsString JsStringFacts.

Lemma matchAll_Forall (re : option ascii -> string -> option (string * string))
  (P : string -> Prop) (text : string) :
  (forall prev s g rest, re prev s = Some (g, rest) -> P g) ->
  Forall P (Regex.matchAll re text).
Proof.
  intro H. apply Forall_forall. intros g Hg.
  apply matchAll_In in Hg as (pre & prev & s & rest & _ & Hre). eauto.
Qed.

Lemma kept_all (keep : string -> bool) (matches : list string) :
  Forall (fun v => v <> "" /\ keep v = true) matches ->
  kept keep matches = matches.
Proof.
  unfold kept. induction 1 as [|v l [Hne Hk] _ IH]; simpl; [reflexivity|].
  rewrite Hk, IH. unfold truthy.
  destruct (String.eqb v "") eqn:E; [apply String.eqb_eq in E; congruence|].
  reflexivity.
Qed.

End GuardFacts.

(** The guards inside the three extraction loops never reject a match:
    a captured group is never empty, and a captured endpoint always starts
    with [http://], [https://] or [/api/].  Each loop therefore returns
    the first distinct captured groups up to its cap. *)
Theorem extraction_guards_never_reject (text : string) :
  extractApiEndpoints text
  = firstn 25 (JsArray.setOfList (Regex.matchAll Regex.apiRe text))
  /\ extractStorageKeys text
     = firstn 25 (JsArray.setOfList (Regex.matchAll Regex.storageRe text))
  /\ extractEnvVars text
     = firstn 40 (JsArray.setOfList (Regex.matchAll Regex.envRe text)).
Proof.
  unfold extractApiEndpoints, extractStorageKeys, extractEnvVars.
  rewrite !collectCapped_first_distinct by lia.
  rewrite !kept_all; [repeat split| | |].
  - apply matchAll_Forall. intros prev s g rest H.
    apply envRe_Some in H as (Hne & _). now split.
  - apply matchAll_Forall. intros prev s g rest H.
    apply storageRe_Some in H as (Hne & _). now split.
  - apply matchAll_Forall. intros prev s g rest H.
    apply apiRe_Some in H as (q & run & _ & _ & Hne & Hshape).
    assert (Hlen : forall scheme, scheme <> "" -> scheme +++ run <> "").
    { intros scheme Hs E. destruct scheme; [congruence|discriminate]. }
    unfold isEndpoint. rewrite !orb_true_iff.
    destruct Hshape as [[_ [->| ->]]|[_ ->]];
      (split; [apply Hlen; discriminate|]).
    + left. right. apply JsStringFacts.startsWith_iff. eexists. reflexivity.
    + left. left. apply JsStringFacts.startsWith_iff. eexists. reflexivity.
    + right. apply JsStringFacts.startsWith_iff. eexists. reflexivity.
Qed.

Lemma replaceAllChar_absent (a b : ascii) (s : string) :
  JsString.hasChar a s = false -> JsString.replaceAllChar a b s = s.
Proof.
  induction s as [|c s IH]; simpl; [reflexivity|].
  intro H. apply orb_false_iff in H as [Hc Hs]. now rewrite Hc, IH.
Qed.

(** The two scripts agree on the route of a page: for a path without
    backslashes whose feature is [route/page], the freshly written
    description opens with the route that the index generator infers for
    the same path. *)
Theorem page_description_names_indexed_route (filePath : string)
  (file : FileEntry.t) (deps : option DepEntry) :
  JsString.hasChar "\"%char filePath = false ->
  Describe.featureFromPath filePath = "route/page" ->
  exists route tail,
    inferRoutesFromPath filePath = [route]
    /\ Describe.Entry.description (Describe.fresh filePath file deps)
       = Some ("Page for route " +++ Render.code route +++ tail).
Proof.
  intros Hslash Hfeature.
  assert (Hpages : JsString.startsWith filePath "pages/" = true).
  { unfold Describe.featureFromPath in Hfeature.
    rewrite replaceAllChar_absent in Hfeature by assumption.
    destruct (JsString.startsWith filePath "pages/"); [reflexivity|].
    repeat match type of Hfeature with
           | (if ?b then _ else _) = _ => destruct b; try discriminate
           end. }
  unfold inferRoutesFromPath. rewrite replaceAllChar_absent by assumption.
  rewrite Hpages. simpl negb. cbv iota.
  unfold Describe.fresh, Describe.Entry.description, Describe.defaultDescription.
  cbv zeta. rewrite Hfeature.
  change (String.eqb "route/page" "route/page") with true. cbv iota.
  destruct (String.eqb (stripSourceExtension (NodePath.basename filePath)) "index");
    eexists; eexists; split; reflexivity.
Qed.

Lemma page_description_names_indexed_route_witness :
  exists route tail,
    inferRoutesFromPath "pages/home.tsx" = [route]
    /\ Describe.Entry.description
         (Describe.fresh "pages/home.tsx"
            (freshEntry sampleWorld [] "pages/home.tsx" homeText "digest-221") None)
       = Some ("Page for route " +++ Render.code route +++ tail).
Proof.
  apply (page_description_names_indexed_route "pages/home.tsx"); reflexivity.
Defined.

(* ------------------------------------------------------------------ *)
(** ** The caps of the semantic tagger *)



Section LineFacts.
Import JsString JsStringFacts Regex.




(** *** The scanner on such lines *)










(** *** The literals of such lines *)









End LineFacts.




(* ------------------------------------------------------------------ *)
(** ** The installer *)

Section ParseFacts.
Import Install.

Lemma last_cons (A : Type) (x d : A) (l : list A) : last (x :: l) d = last l x.
Proof.
  revert x d; induction l as [|y l IH]; intros x d; [reflexivity|].
  change (last (x :: y :: l) d) with (last (y :: l) d).
  now rewrite (IH y d), (IH y x).
Qed.

Ltac parse_step IH :=
  match goal with
  | |- context [parseLoop ?r ?a] =>
      let H1 := fresh "H" in
      let H2 := fresh "H" in
      let H3 := fresh "H" in
      let H4 := fresh "H" in
      let H5 := fresh "H" in
      let H6 := fresh "H" in
      let H7 := fresh "H" in
      destruct (IH r a) as (H1 & H2 & H3 & H4 & H5 & H6 & H7);
      [simpl in *; lia|];
      cbv zeta in H1, H2, H3, H4, H5, H6, H7;
      rewrite H1, H2, H3, H4, H5, H6, H7; clear H1 H2 H3 H4 H5 H6 H7
  end;
  cbn -[parseLoop optionWords codexHomeValues last];
  rewrite ?last_cons;
  rewrite ?orb_true_r, ?orb_true_l, ?orb_false_r, ?orb_false_l;
  repeat split; reflexivity.

Lemma parseLoop_flags (n : nat) :
  forall (rest : list string) (args : Args),
    List.length rest <= n ->
    let ws := optionWords rest in
    let result := parseLoop rest args in
    force result = force args || JsArray.mem "--force" ws
    /\ dryRun result = dryRun args || JsArray.mem "--dry-run" ws
    /\ generate result
       = generate args || JsArray.mem "--generate" ws || JsArray.mem "--init" ws
    /\ init result = init args || JsArray.mem "--init" ws
    /\ agents result
       = agents args || JsArray.mem "--agents" ws || JsArray.mem "--init" ws
    /\ help result = help args || JsArray.mem "-h" ws || JsArray.mem "--help" ws
    /\ codexHome result = last (codexHomeValues rest) (codexHome args).
Proof.
  induction n as [|n IH]; intros rest args Hlen.
  - destruct rest; [|simpl in Hlen; lia].
    simpl. now rewrite !orb_false_r.
  - destruct rest as [|a rest]; [simpl; now rewrite !orb_false_r|].
    cbv zeta. cbn [parseLoop optionWords codexHomeValues].
    destruct (String.eqb a "--force") eqn:E1;
      [apply String.eqb_eq in E1; subst a; parse_step IH|].
    destruct (String.eqb a "--dry-run") eqn:E2;
      [apply String.eqb_eq in E2; subst a; parse_step IH|].
    destruct (String.eqb a "--generate") eqn:E3;
      [apply String.eqb_eq in E3; subst a; parse_step IH|].
    destruct (String.eqb a "--init") eqn:E4;
      [apply String.eqb_eq in E4; subst a; parse_step IH|].
    destruct (String.eqb a "--agents") eqn:E5;
      [apply String.eqb_eq in E5; subst a; parse_step IH|].
    destruct (String.eqb a "--codex-home") eqn:E6.
    + apply String.eqb_eq in E6; subst a. destruct rest as [|value rest].
      * cbn. rewrite !orb_false_r. repeat split; reflexivity.
      * parse_step IH.
    + destruct (String.eqb a "-h") eqn:E7;
        [apply String.eqb_eq in E7; subst a; cbn [orb]; parse_step IH|].
      destruct (String.eqb a "--help") eqn:E8;
        [apply String.eqb_eq in E8; subst a; cbn [orb]; parse_step IH|].
      cbn [orb].
      unfold JsArray.mem. cbn [existsb].
      rewrite (String.eqb_sym "--force" a), (String.eqb_sym "--dry-run" a),
        (String.eqb_sym "--generate" a), (String.eqb_sym "--init" a),
        (String.eqb_sym "--agents" a), (String.eqb_sym "-h" a),
        (String.eqb_sym "--help" a), E1, E2, E3, E4, E5, E7, E8.
      cbn [orb]. apply IH. simpl in Hlen. lia.
Qed.

End ParseFacts.

(** The options of the installer are read off the command line as
    follows: a flag is set exactly when its word occurs among the
    arguments from the third on, the argument after each [--codex-home]
    being its value and never read as a flag; [--init] sets [generate] and
    [agents] as well; the directory is the value of the last
    [--codex-home], and [null] when that one stands last without a value.
    Other words are ignored, and the order of the flags does not
    matter. *)
Theorem parseArgs_reads_flags (argv : list string) :
  let ws := optionWords (skipn 2 argv) in
  let args := Install.parseArgs argv in
  Install.force args = JsArray.mem "--force" ws
  /\ Install.dryRun args = JsArray.mem "--dry-run" ws
  /\ Install.generate args = JsArray.mem "--generate" ws || JsArray.mem "--init" ws
  /\ Install.init args = JsArray.mem "--init" ws
  /\ Install.agents args = JsArray.mem "--agents" ws || JsArray.mem "--init" ws
  /\ Install.help args = JsArray.mem "-h" ws || JsArray.mem "--help" ws
  /\ Install.codexHome args = last (codexHomeValues (skipn 2 argv)) None
  /\ (Install.init args = true ->
      Install.generate args = true /\ Install.agents args = true).
Proof.
  intros ws args. unfold args, ws, Install.parseArgs.
  generalize (skipn 2 argv). intro rest.
  destruct (parseLoop_flags (List.length rest) rest Install.noArgs (le_n _))
    as (H1 & H2 & H3 & H4 & H5 & H6 & H7).
  cbv zeta in H1, H2, H3, H4, H5, H6, H7. simpl in H1, H2, H3, H4, H5, H6, H7.
  repeat (split; [assumption|]).
  intro Hinit. rewrite H4 in Hinit. rewrite H3, H5, Hinit.
  now rewrite !orb_true_r.
Qed.

Section SearchFacts.
Import JsString JsStringFacts Install.

Lemma prefix_nil (s : string) : String.prefix "" s = true.
Proof. now destruct s. Qed.

Lemma prefix_long (n p x y : string) :
  String.length n <= String.length p ->
  String.prefix n (p +++ x) = String.prefix n (p +++ y).
Proof.
  revert p; induction n as [|d n IH]; intros p Hlen;
    [now rewrite !prefix_nil|].
  destruct p as [|e p]; [simpl in Hlen; lia|].
  simpl. destruct (ascii_dec d e); [|reflexivity].
  apply IH. simpl in Hlen. lia.
Qed.

Lemma cut_Some (n s before after : string) :
  cut n s = Some (before, after) -> s = before +++ n +++ after.
Proof.
  revert before after; induction s as [|c s IH]; intros before after H.
  - cbn [cut] in H. destruct (String.prefix n "") eqn:E; [|discriminate].
    inversion H; subst. now apply prefix_split in E.
  - cbn [cut] in H. destruct (String.prefix n (String c s)) eqn:E.
    + inversion H; subst. now apply prefix_split in E.
    + destruct (cut n s) as [[b a]|]; [|discriminate].
      inversion H; subst. simpl. f_equal. now apply IH.
Qed.

Lemma cut_here (n y : string) : cut n (n +++ y) = Some ("", y).
Proof.
  destruct (n +++ y) eqn:E; cbn [cut]; rewrite <- E, prefix_app, drop_app;
    reflexivity.
Qed.

(** Where the first occurrence of [n] stands depends on the text up to
    its end only. *)
Lemma cut_stable (n before x y : string) :
  cut n (before +++ n +++ x) = Some (before, x) ->
  cut n (before +++ n +++ y) = Some (before, y).
Proof.
  induction before as [|c before IH]; intro H.
  - change ("" +++ n +++ y) with (n +++ y). apply cut_here.
  - change (String c before +++ n +++ x) with (String c (before +++ n +++ x)) in H.
    change (String c before +++ n +++ y) with (String c (before +++ n +++ y)).
    cbn [cut] in H |- *.
    destruct (String.prefix n (String c (before +++ n +++ x))) eqn:E;
      [discriminate|].
    assert (String.prefix n (String c (before +++ n +++ y)) = false) as ->.
    { rewrite <- E.
      change (String c (before +++ n +++ y)) with (String c before +++ n +++ y).
      change (String c (before +++ n +++ x)) with (String c before +++ n +++ x).
      rewrite <- !append_assoc. apply prefix_long.
      rewrite length_append. lia. }
    destruct (cut n (before +++ n +++ x)) as [[b a]|] eqn:Ecut; [|discriminate].
    inversion H; subst b a. now rewrite IH.
Qed.

Lemma cut_again (n s before after y : string) :
  cut n s = Some (before, after) ->
  cut n (before +++ n +++ y) = Some (before, y).
Proof.
  intro H. apply (cut_stable n before after). 
  now rewrite <- (cut_Some _ _ _ _ H).
Qed.

Lemma prefix_app_sep (n a b : string) (c : ascii) :
  hasChar c n = false ->
  String.prefix n (a +++ String c b) = String.prefix n a.
Proof.
  revert a; induction n as [|d n IH]; intros a H.
  - now rewrite !prefix_nil.
  - simpl in H. apply orb_false_iff in H as [Hd Hn].
    destruct a as [|x a]; simpl.
    + destruct (ascii_dec d c) as [->|]; [|reflexivity].
      rewrite Ascii.eqb_refl in Hd. discriminate.
    + destruct (ascii_dec d x); [now apply IH|reflexivity].
Qed.

(** A needle that does not hold the character [c] and does not occur in
    [a] is first found in [a], [c], [b] where it is first found in
    [b]. *)
Lemma cut_app_sep (n a b : string) (c : ascii) :
  hasChar c n = false -> includes a n = false ->
  cut n (a +++ String c b)
  = match cut n b with
    | Some (before, after) => Some (a +++ String c before, after)
    | None => None
    end.
Proof.
  intros Hc. induction a as [|x a IH]; intro Ha.
  - simpl append. cbn [cut].
    assert (String.prefix n (String c b) = false) as ->; [|reflexivity].
    destruct n as [|d n]; [discriminate|]. simpl in Hc |- *.
    apply orb_false_iff in Hc as [Hd _].
    destruct (ascii_dec d c) as [->|]; [|reflexivity].
    rewrite Ascii.eqb_refl in Hd. discriminate.
  - cbn [includes] in Ha. apply orb_false_iff in Ha as [Hp Ha].
    change (String x a +++ String c b) with (String x (a +++ String c b)).
    cbn [cut].
    change (String x (a +++ String c b)) with (String x a +++ String c b).
    rewrite prefix_app_sep, Hp by assumption.
    change (String x a +++ String c b) with (String x (a +++ String c b)).
    rewrite (IH Ha). destruct (cut n b) as [[before after]|]; reflexivity.
Qed.

Lemma includes_Some (s n : string) :
  includes s n = true -> exists p q, s = p +++ n +++ q.
Proof.
  induction s as [|c s IH]; cbn [includes]; intro H.
  - rewrite orb_false_r in H. apply prefix_split in H. exists "". eauto.
  - apply orb_true_iff in H as [H|H].
    + apply prefix_split in H. exists "". eauto.
    + destruct (IH H) as (p & q & ->). exists (String c p), q. reflexivity.
Qed.

Lemma includes_app_l (a b n : string) :
  includes a n = true -> includes (a +++ b) n = true.
Proof.
  intro H. destruct (includes_Some _ _ H) as (p & q & ->).
  rewrite !append_assoc. apply includes_infix.
Qed.

Lemma string_of_list_app (l1 l2 : list ascii) :
  string_of_list_ascii (l1 ++ l2)
  = string_of_list_ascii l1 +++ string_of_list_ascii l2.
Proof. induction l1 as [|c l1 IH]; simpl; [reflexivity|now rewrite IH]. Qed.

Lemma dropSpaces_suffix (n : nat) :
  forall r, List.length r <= n -> exists dropped, r = dropped ++ dropSpaces r.
Proof.
  induction n as [|n IH]; intros r Hlen.
  - destruct r; [now exists []|simpl in Hlen; lia].
  - destruct r as [|b3 r1]; [now exists []|]. simpl in Hlen. cbn [dropSpaces].
    destruct (isSpace1 b3).
    { destruct (IH r1) as [d Hd]; [lia|]. exists (b3 :: d). simpl. now f_equal. }
    destruct r1 as [|b2 r2]; [now exists []|]. simpl in Hlen.
    destruct (isSpace2 b2 b3).
    { destruct (IH r2) as [d Hd]; [lia|]. exists (b3 :: b2 :: d). simpl.
      now do 2 f_equal. }
    destruct r2 as [|b1 r3]; [now exists []|]. simpl in Hlen.
    destruct (isSpace3 b1 b2 b3); [|now exists []].
    destruct (IH r3) as [d Hd]; [lia|]. exists (b3 :: b2 :: b1 :: d). simpl.
    now do 3 f_equal.
Qed.

(** Trimming removes an end of the text and nothing else. *)
Lemma trimEnd_prefix (s : string) : exists spaces, s = trimEnd s +++ spaces.
Proof.
  unfold trimEnd.
  destruct (dropSpaces_suffix _ (rev (list_ascii_of_string s)) (le_n _))
    as [dropped Hd].
  exists (string_of_list_ascii (rev dropped)).
  rewrite <- string_of_list_app, <- rev_app_distr, <- Hd, rev_involutive.
  symmetry. apply string_of_list_ascii_of_string.
Qed.

Lemma body_shape :
  body = AGENTS_START +++ bodyInner +++ AGENTS_END +++ lf.
Proof. vm_compute. reflexivity. Qed.

Lemma body_inner_end :
  cut AGENTS_END (bodyInner +++ AGENTS_END +++ "") = Some (bodyInner, "").
Proof. vm_compute. reflexivity. Qed.

Lemma template_is_body (matched before after : string) :
  getSubstitution matched before after (trimEnd body +++ lf) = body.
Proof. vm_compute. reflexivity. Qed.

End SearchFacts.

Section AgentsFacts.
Import JsString JsStringFacts Install.

Lemma replaceBlock_on_block (before after : string) :
  cut AGENTS_START (before +++ AGENTS_START +++ "") = Some (before, "") ->
  replaceBlock (before +++ body +++ after) (trimEnd body +++ lf)
  = before +++ body +++ after.
Proof.
  intro Hfirst. unfold replaceBlock.
  rewrite body_shape at 1. rewrite !append_assoc.
  rewrite (cut_stable AGENTS_START before ""
             (bodyInner +++ AGENTS_END +++ lf +++ after) Hfirst).
  rewrite (cut_stable AGENTS_END bodyInner "" (lf +++ after) body_inner_end).
  change (lf +++ after) with (String newline after).
  cbv beta iota. rewrite Ascii.eqb_refl. cbv beta iota.
  rewrite template_is_body. rewrite body_shape, !append_assoc. reflexivity.
Qed.

Lemma first_start_again (existing before rest : string) :
  cut AGENTS_START existing = Some (before, rest) ->
  cut AGENTS_START (before +++ AGENTS_START +++ "") = Some (before, "").
Proof. apply cut_again. Qed.

Lemma hasMarkers_on_block (before after : string) :
  includes (before +++ body +++ after) AGENTS_START = true
  /\ includes (before +++ body +++ after) AGENTS_END = true.
Proof.
  rewrite body_shape. split.
  - rewrite !append_assoc. apply includes_infix.
  - replace (before +++ (AGENTS_START +++ bodyInner +++ AGENTS_END +++ lf) +++ after)
      with ((before +++ AGENTS_START +++ bodyInner) +++ AGENTS_END +++ (lf +++ after))
      by (now rewrite !append_assoc).
    apply includes_infix.
Qed.

(** The update of a text that holds the block already, in the place
    where the first start marker stands, changes nothing. *)
Lemma agentsNextText_on_block (before after : string) :
  cut AGENTS_START (before +++ AGENTS_START +++ "") = Some (before, "") ->
  agentsNextText (before +++ body +++ after) = before +++ body +++ after.
Proof.
  intro H. unfold agentsNextText.
  destruct (hasMarkers_on_block before after) as [-> ->]. simpl andb. cbv iota.
  now apply replaceBlock_on_block.
Qed.

Lemma start_after_blank_lines (text : string) :
  includes text AGENTS_START = false ->
  cut AGENTS_START ((text +++ lf +++ lf) +++ AGENTS_START +++ "")
  = Some (text +++ lf +++ lf, "").
Proof.
  intro H.
  replace ((text +++ lf +++ lf) +++ AGENTS_START +++ "")
    with (text +++ String newline (String newline (AGENTS_START +++ "")))
    by (now rewrite !append_assoc).
  rewrite cut_app_sep by (assumption || reflexivity).
  change (cut AGENTS_START (String newline (AGENTS_START +++ "")))
    with (Some (String newline "", "")).
  reflexivity.
Qed.

End AgentsFacts.

(** What an update gives, for a text without a lone start marker: the
    text as it was, or the block in a place where it is found again. *)
Lemma agentsNextText_cases (existing : string) :
  (JsString.includes existing Install.AGENTS_START = true ->
   JsString.includes existing Install.AGENTS_END = true) ->
  Install.agentsNextText existing = existing
  \/ exists before after,
       Install.cut Install.AGENTS_START (before +++ Install.AGENTS_START +++ "")
       = Some (before, "")
       /\ Install.agentsNextText existing = before +++ Install.body +++ after.
Proof.
  intro Hpaired. unfold Install.agentsNextText.
  destruct (JsString.includes existing Install.AGENTS_START) eqn:Hstart.
  - rewrite (Hpaired eq_refl). simpl andb. cbv iota.
    unfold Install.replaceBlock.
    destruct (Install.cut Install.AGENTS_START existing) as [[before rest]|] eqn:E1;
      [|now left].
    destruct (Install.cut Install.AGENTS_END rest) as [[inner rest']|] eqn:E2;
      [|now left].
    right. exists before.
    assert (Hfirst := first_start_again _ _ _ E1).
    destruct rest' as [|c after].
    + exists "". split; [assumption|]. cbv beta iota.
      now rewrite template_is_body.
    + destruct (Ascii.eqb c newline); cbv beta iota; rewrite template_is_body;
        eexists; (split; [eassumption|reflexivity]).
  - simpl andb. cbv iota. right.
    destruct (JsString.truthy (Install.trimEnd existing)).
    + exists (Install.trimEnd existing +++ Install.lf +++ Install.lf), "".
      split; [|now rewrite JsStringFacts.append_nil_r].
      apply start_after_blank_lines.
      destruct (JsString.includes (Install.trimEnd existing) Install.AGENTS_START)
        eqn:E; [|reflexivity].
      destruct (trimEnd_prefix existing) as [spaces Hs].
      apply (includes_app_l _ spaces) in E. rewrite <- Hs in E. congruence.
    + exists "", "". split; [reflexivity|].
      now rewrite JsStringFacts.append_nil_r.
Qed.

(** Updating [AGENTS.md] twice is the same as updating it once, provided
    the text does not hold a start marker without an end marker: the
    second update finds the block that the first one wrote and puts the
    same block in its place. *)
Theorem agents_update_is_idempotent (existing : string) :
  (JsString.includes existing Install.AGENTS_START = true ->
   JsString.includes existing Install.AGENTS_END = true) ->
  Install.agentsNextText (Install.agentsNextText existing)
  = Install.agentsNextText existing.
Proof.
  intro Hpaired.
  destruct (agentsNextText_cases existing Hpaired)
    as [H|(before & after & Hfirst & H)]; rewrite H.
  - exact H.
  - now apply agentsNextText_on_block.
Qed.

Lemma agents_update_is_idempotent_witness :
  Install.agentsNextText (Install.agentsNextText ("# Notes" +++ Install.lf))
  = Install.agentsNextText ("# Notes" +++ Install.lf).
Proof.
  apply (agents_update_is_idempotent ("# Notes" +++ Install.lf)).
  intro H. vm_compute in H. discriminate H.
Defined.

Section RunFacts.
Import Install.

Variable env : Env.

Lemma In_andThen (a : Action) (first second : Run) :
  In a (fst (andThen first second)) -> In a (fst first) \/ In a (fst second).
Proof.
  unfold andThen. destruct first as [done [| |status]]; simpl; auto.
  apply in_app_or.
Qed.

Lemma In_perform (a b : Action) : In a (fst (perform env b)) -> a = b.
Proof.
  unfold perform. destruct (throws env b); simpl; [tauto|].
  intros [H|[]]. now symmetry.
Qed.

Lemma In_print (a : Action) (text : string) :
  In a (fst (print text)) -> a = Print text.
Proof. simpl. intros [H|[]]. now symmetry. Qed.

Lemma licensed_makeRoom (a : Action) :
  In a (fst (makeRoom env (parseArgs (processArgv env))
               (destDirOf env (parseArgs (processArgv env))))) ->
  licensed env a.
Proof.
  unfold makeRoom, licensed. cbv zeta.
  set (args := parseArgs (processArgv env)).
  destruct (accessible env (destDirOf env args)) eqn:Ha;
    destruct (force args) eqn:Hf; destruct (dryRun args) eqn:Hd; simpl;
    intro H;
    repeat match goal with
           | H : In _ (fst (andThen _ _)) |- _ => apply In_andThen in H as [H|H]
           | H : In _ (fst (perform _ _)) |- _ => apply In_perform in H; subst a
           | H : In _ (fst (print _)) |- _ => apply In_print in H; subst a
           | H : _ = _ \/ False |- _ => destruct H as [H|[]]; subst a
           | H : False |- _ => destruct H
           end; try exact I; auto 10.
Qed.

Lemma licensed_copySkill (a : Action) :
  In a (fst (copySkill env (parseArgs (processArgv env)) (sourceDirOf env)
               (destDirOf env (parseArgs (processArgv env))))) ->
  licensed env a.
Proof.
  unfold copySkill, licensed. cbv zeta.
  set (args := parseArgs (processArgv env)).
  destruct (dryRun args) eqn:Hd; simpl; [tauto|]. intro H.
  apply In_andThen in H as [H|H]; apply In_perform in H; subst a; auto.
Qed.

Lemma licensed_updateAgents (a : Action) :
  In a (fst (updateAgents env (parseArgs (processArgv env)))) -> licensed env a.
Proof.
  unfold updateAgents, licensed. cbv zeta.
  set (args := parseArgs (processArgv env)).
  destruct (agents args) eqn:Hg; [|simpl; tauto].
  destruct (dryRun args) eqn:Hd; intro H.
  - apply In_print in H. now subst a.
  - apply In_andThen in H as [H|H].
    + apply In_perform in H. subst a. repeat split.
    + apply In_print in H. now subst a.
Qed.

Lemma licensed_runSync (a : Action) :
  In a (fst (runSync env (parseArgs (processArgv env))
               (destDirOf env (parseArgs (processArgv env))))) ->
  licensed env a.
Proof.
  unfold runSync, licensed. cbv zeta.
  set (args := parseArgs (processArgv env)).
  destruct (generate args) eqn:Hg; [|simpl; tauto].
  destruct (dryRun args) eqn:Hd; intro H.
  - apply In_print in H. now subst a.
  - destruct (spawnStatus env _) as [status|];
      [destruct (Z.eqb status 0)|]; simpl in H;
      destruct H as [<-|[]]; repeat split.
Qed.

(** The actions of a run are a printed line or an action of one of its
    four steps. *)
Lemma main_parts (a : Action) :
  In a (fst (main env)) ->
  let args := parseArgs (processArgv env) in
  isPrint a = true
  \/ In a (fst (makeRoom env args (destDirOf env args)))
  \/ In a (fst (copySkill env args (sourceDirOf env) (destDirOf env args)))
  \/ In a (fst (updateAgents env args))
  \/ In a (fst (runSync env args (destDirOf env args))).
Proof.
  unfold main. cbv zeta.
  destruct (help (parseArgs (processArgv env))).
  { intro H. apply In_print in H. subst a. now left. }
  destruct (negb (accessible env (sourceDirOf env))); [intros []|].
  intro H.
  apply In_andThen in H as [H|H]; [auto|].
  apply In_andThen in H as [H|H]; [auto|].
  apply In_andThen in H as [H|H]; [apply In_print in H; subst a; now left|].
  apply In_andThen in H as [H|H]; [auto 6|].
  apply In_andThen in H as [H|H]; [auto 6|].
  apply In_print in H. subst a. now left.
Qed.

Lemma andThen_Completed (first second : Run) :
  snd first = Completed -> snd second = Completed ->
  snd (andThen first second) = Completed.
Proof. destruct first as [done e]. simpl. intros ->. auto. Qed.

End RunFacts.

(** Whatever the installer does is licensed by its options: it renames
    the existing skill directory (to its backup name) only without
    [--force], removes it only with [--force], writes [AGENTS.md] only with
    [--agents] or [--init] and then with the updated text of the file it
    found, spawns the sync script only with [--generate] or [--init], and
    does none of these, nor creates or copies a directory, in a dry
    run. *)
Theorem installer_actions_are_licensed (env : Install.Env) (a : Install.Action) :
  In a (fst (Install.main env)) -> licensed env a.
Proof.
  intro H. apply main_parts in H. cbv zeta in H.
  destruct H as [H|[H|[H|[H|H]]]].
  - destruct a; try discriminate. exact I.
  - now apply licensed_makeRoom.
  - now apply licensed_copySkill.
  - now apply licensed_updateAgents.
  - now apply licensed_runSync.
Qed.

Lemma installer_actions_are_licensed_witness :
  licensed sampleInstall
    (Install.Rename "/home/dev/.codex/Skills/ai-metadata-sync"
       "/home/dev/.codex/Skills/ai-metadata-sync.bak-1767225600000").
Proof.
  apply (installer_actions_are_licensed sampleInstall).
  vm_compute. left. reflexivity.
Defined.

(** A dry run changes nothing: every action of the run is a line
    printed on the standard output, and the run completes, or it throws
    because the skill to install is missing. *)
Theorem dry_run_only_prints (env : Install.Env) :
  Install.dryRun (Install.parseArgs (Install.processArgv env)) = true ->
  forallb isPrint (fst (Install.main env)) = true
  /\ (snd (Install.main env) = Install.Completed
      \/ (snd (Install.main env) = Install.Threw
          /\ Install.accessible env (Install.sourceDirOf env) = false)).
Proof.
  intro Hdry. split.
  - apply forallb_forall. intros a Ha. apply main_parts in Ha. cbv zeta in Ha.
    assert (Hl : licensed env a).
    { destruct Ha as [Ha|[Ha|[Ha|[Ha|Ha]]]].
      - destruct a; try discriminate. exact I.
      - now apply licensed_makeRoom.
      - now apply licensed_copySkill.
      - now apply licensed_updateAgents.
      - now apply licensed_runSync. }
    unfold licensed in Hl. cbv zeta in Hl. rewrite Hdry in Hl.
    destruct a; try reflexivity; destruct Hl as [Hl _]; discriminate.
  - unfold Install.main. cbv zeta.
    destruct (Install.help _); [now left|].
    destruct (Install.accessible env (Install.sourceDirOf env)); [left|now right].
    simpl negb. cbv iota.
    unfold Install.makeRoom, Install.copySkill, Install.updateAgents,
      Install.runSync.
    rewrite Hdry. cbv zeta. simpl negb. cbv iota.
    repeat apply andThen_Completed;
      repeat match goal with
             | |- snd (if ?b then _ else _) = _ => destruct b
             end; reflexivity.
Qed.

Lemma dry_run_only_prints_witness :
  forallb isPrint (fst (Install.main sampleDryRun)) = true
  /\ (snd (Install.main sampleDryRun) = Install.Completed
      \/ (snd (Install.main sampleDryRun) = Install.Threw
          /\ Install.accessible sampleDryRun (Install.sourceDirOf sampleDryRun)
             = false)).
Proof. apply (dry_run_only_prints sampleDryRun). reflexivity. Defined.

(** An installation that is in the way is moved aside before anything
    else happens: without [--force] and outside a dry run, the first
    action on an existing skill directory is its renaming to the backup
    name; and when that renaming fails, the run ends there, with nothing
    printed, copied or written. *)
Theorem existing_skill_is_moved_first (env : Install.Env) :
  let args := Install.parseArgs (Install.processArgv env) in
  let destDir := Install.destDirOf env args in
  let backupDir := destDir +++ ".bak-" +++ Install.ofN (Install.dateNow env) in
  Install.help args = false -> Install.dryRun args = false ->
  Install.force args = false ->
  Install.accessible env (Install.sourceDirOf env) = true ->
  Install.accessible env destDir = true ->
  (Install.throws env (Install.Rename destDir backupDir) = true
   /\ Install.main env = ([], Install.Threw))
  \/ (Install.throws env (Install.Rename destDir backupDir) = false
      /\ exists later,
           fst (Install.main env)
           = Install.Rename destDir backupDir
             :: Install.Print ("Existing skill moved to: " +++ backupDir +++ Install.lf)
             :: later).
Proof.
  intros args destDir backupDir Hhelp Hdry Hforce Hsrc Hdest.
  unfold Install.main. cbv zeta. fold args. fold destDir.
  rewrite Hhelp, Hsrc. simpl negb. cbv iota.
  unfold Install.makeRoom. cbv zeta. rewrite Hdest, Hforce, Hdry.
  simpl andb. cbv iota. fold backupDir.
  unfold Install.perform.
  destruct (Install.throws env (Install.Rename destDir backupDir)).
  - left. split; reflexivity.
  - right. split; [reflexivity|].
    match goal with
    | |- context [Install.andThen (Install.andThen _ _) ?rest] =>
        exists (fst rest)
    end.
    reflexivity.
Qed.

Lemma existing_skill_is_moved_first_witness :
  let env := sampleInstall in
  let args := Install.parseArgs (Install.processArgv env) in
  let destDir := Install.destDirOf env args in
  let backupDir := destDir +++ ".bak-" +++ Install.ofN (Install.dateNow env) in
  (Install.throws env (Install.Rename destDir backupDir) = true
   /\ Install.main env = ([], Install.Threw))
  \/ (Install.throws env (Install.Rename destDir backupDir) = false
      /\ exists later,
           fst (Install.main env)
           = Install.Rename destDir backupDir
             :: Install.Print ("Existing skill moved to: " +++ backupDir +++ Install.lf)
             :: later).
Proof.
  apply (existing_skill_is_moved_first sampleInstall); reflexivity.
Defined.

(** Without the proviso the second update is not idle: after a start
    marker that has no end marker, the first update appends the block, and
    the second one replaces everything from the lone marker to the end of
    the appended block, the lines in between included. *)
Lemma lone_start_marker_sample :
  let existing :=
    Install.AGENTS_START +++ Install.lf +++ "my notes" +++ Install.lf in
  Install.agentsNextText existing
  = Install.AGENTS_START +++ Install.lf +++ "my notes" +++ Install.lf +++ Install.lf
    +++ Install.body
  /\ Install.agentsNextText (Install.agentsNextText existing) = Install.body.
Proof. split; vm_compute; reflexivity. Qed.
